(** * localize_texts.py: key generation, rewrite engine and table store

    A shallow embedding of [localize_texts.py].  A Python [str] is the list
    of its code points ([list N]); [bytes] is a list of numbers below 256.
    The pieces of the Python library the script calls ([re], [str.strip],
    [str.lower], [unicodedata.normalize], the [unicode_escape] codec) are
    modelled next to the functions that call them.  Exceptions are results
    ([Raise]); the three objects the rewrite engine shares with its caller
    are a [store] threaded through the calls. *)

From Stdlib Require Import NArith Ascii String DecimalNat.
From stdpp Require Import gmap strings list sorting.

Set Default Proof Using "Type".

(** ** Code points and strings *)

Definition c_nl : N := 10.
Definition c_cr : N := 13.
Definition c_dq : N := 34.
Definition c_lp : N := 40.
Definition c_rp : N := 41.
Definition c_dot : N := 46.
Definition c_bs : N := 92.

(** [lit s]: the code points of an ASCII literal of the script. *)
Definition lit (s : string) : list N :=
  map N_of_ascii (list_ascii_of_string s).
Arguments lit : simpl never.

(** [swift s]: like [lit], with an apostrophe of [s] standing for a double
    quote, so that Swift and [.strings] snippets stay readable. *)
Definition swift (s : string) : list N :=
  map (fun c => if N.eqb c 39 then c_dq else c) (lit s).

Definition is_ascii (c : N) : bool := N.ltb c 128.

Definition between (lo hi c : N) : bool := N.leb lo c && N.leb c hi.

(** ** The Unicode character database

    [str.isalnum], [str.isspace], [str.lower], NFKD and the character names
    of [\N{...}] are fixed by CPython on ASCII and come from the Unicode
    tables elsewhere.  The ASCII part is written out; the tables are a
    parameter of the development. *)

Record ucd := Ucd {
  isalnum_tbl : N -> bool;            (* str.isalnum, code points >= 128 *)
  isspace_tbl : N -> bool;            (* str.isspace, code points >= 128 *)
  lower_tbl : list N -> list N;       (* str.lower on a non-ASCII string *)
  nfkd_tbl : list N -> list N;        (* NFKD of a non-ASCII string *)
  ucn_getcode : list N -> option N    (* code point of a character name *)
}.

Definition ascii_isalnum (c : N) : bool :=
  between 48 57 c || between 65 90 c || between 97 122 c.

(* Py_UNICODE_ISSPACE below 128: \t \n \v \f \r, 0x1c..0x1f and space. *)
Definition ascii_isspace (c : N) : bool :=
  between 9 13 c || between 28 32 c.

Definition ascii_lower (c : N) : N :=
  if between 65 90 c then (c + 32)%N else c.

Section Unicode.
Variable U : ucd.

Definition isalnum (c : N) : bool :=
  if is_ascii c then ascii_isalnum c else isalnum_tbl U c.

Definition isspace (c : N) : bool :=
  if is_ascii c then ascii_isspace c else isspace_tbl U c.

Definition lower (s : list N) : list N :=
  if forallb is_ascii s then map ascii_lower s else lower_tbl U s.

Definition nfkd (s : list N) : list N :=
  if forallb is_ascii s then s else nfkd_tbl U s.
End Unicode.

(** ** Exceptions and results

    What a call can end in besides a value: the exceptions the script lets
    propagate, and [LoopBound] for a loop whose bounded unrolling ran out
    (shown below never to happen). *)

Inductive exn :=
  | UnicodeEncodeError
  | UnicodeDecodeError
  | IsADirectoryError
  | LoopBound.

Inductive result (A : Type) :=
  | Ok (a : A)
  | Raise (e : exn).
Arguments Ok {A} a.
Arguments Raise {A} e.

#[global] Instance result_ret : MRet result := fun A a => Ok a.

#[global] Instance result_bind : MBind result := fun A B f x =>
  match x with
  | Ok a => f a
  | Raise e => Raise e
  end.

(** A computation over a mutable store [S] that may raise. *)
Definition M (S A : Type) : Type := S -> result (A * S).

#[global] Instance M_ret {S} : MRet (M S) := fun A a st => Ok (a, st).

#[global] Instance M_bind {S} : MBind (M S) := fun A B f x st =>
  match x st with
  | Ok (a, st') => f a st'
  | Raise e => Raise e
  end.

(** A call that touches no store. *)
Definition lift {S A} (x : result A) : M S A := fun st =>
  match x with
  | Ok a => Ok (a, st)
  | Raise e => Raise e
  end.

(** ** Regular expressions

    Python's [re] is a backtracking matcher: alternatives are tried left to
    right, repetitions are greedy, and the first way to reach the end of the
    pattern wins.  A pattern is embedded as a function from its continuation
    to a matcher; [None] makes the caller backtrack. *)

Module Re.

(** Captured groups, most recent first. *)
Definition groups := list (nat * list N).

Definition cont := groups -> list N -> option (groups * list N).
Definition re := cont -> cont.

Definition chr (p : N -> bool) : re := fun k g s =>
  match s with
  | c :: s' => if p c then k g s' else None
  | [] => None
  end.

Definition eps : re := fun k => k.

(** One given character. *)
Definition one (c : N) : re := chr (fun d => N.eqb d c).

Definition seq (r1 r2 : re) : re := fun k => r1 (r2 k).

Definition alt (r1 r2 : re) : re := fun k g s =>
  match r1 k g s with
  | Some x => Some x
  | None => r2 k g s
  end.

Fixpoint str_ (l : list N) : re :=
  match l with
  | [] => eps
  | c :: l' => seq (one c) (str_ l')
  end.

(** Greedy [r*].  One more iteration is tried first; an iteration that
    consumes nothing ends the loop, as in [re].  The fuel is the length of
    the input, which no run of consuming iterations can exceed. *)
Fixpoint star_fuel (n : nat) (r : re) : re := fun k g s =>
  match n with
  | O => k g s
  | S n' =>
      match r (fun g' s' =>
                 if Nat.ltb (length s') (length s)
                 then star_fuel n' r k g' s' else None) g s with
      | Some x => Some x
      | None => k g s
      end
  end.

Definition star (r : re) : re := fun k g s => star_fuel (length s) r k g s.

Definition plus (r : re) : re := seq r (star r).

(** [(r)] as group number [i]. *)
Definition group (i : nat) (r : re) : re := fun k g s =>
  r (fun g' s' => k ((i, take (length s - length s') s) :: g') s') g s.

(** [(?!r)] *)
Definition nla (r : re) : re := fun k g s =>
  match r (fun g' s' => Some (g', s')) g s with
  | Some _ => None
  | None => k g s
  end.

(** [$] without MULTILINE: at the end, or before a final newline. *)
Definition eos : re := fun k g s =>
  match s with
  | [] => k g s
  | [c] => if N.eqb c c_nl then k g s else None
  | _ => None
  end.

(** [^] where [match] starts: always true there. *)
Definition bos : re := eps.

(** A match object: the matched text and the groups. *)
Record match_obj := Match {
  group0 : list N;
  m_groups : groups;
  m_rest : list N
}.

Fixpoint assoc (i : nat) (g : groups) : option (list N) :=
  match g with
  | [] => None
  | (j, v) :: g' => if Nat.eqb i j then Some v else assoc i g'
  end.

(** [m.group(i)] for a group that took part in the match. *)
Definition group_ (i : nat) (m : match_obj) : list N :=
  default [] (assoc i (m_groups m)).

(** [pattern.match(s)]: a match at the start of [s]. *)
Definition match_ (r : re) (s : list N) : option match_obj :=
  match r (fun g s' => Some (g, s')) [] s with
  | Some (g, s') => Some (Match (take (length s - length s') s) g s')
  | None => None
  end.

(** [pattern.sub(repl, s)] with a callable [repl] that may update a store
    and may raise.  The scan goes left to right; [skip] counts the
    characters still inside the last match.  The loop is written for a
    pattern that matches at least one character, as [TEXT_CALL_RE] does:
    the rules of [re] for empty matches are not needed and not modelled. *)
Fixpoint sub_loop {S} (r : re) (repl : match_obj -> M S (list N))
    (skip : nat) (s : list N) : M S (list N) :=
  match s with
  | [] => mret []
  | c :: s' =>
      match skip with
      | S n => sub_loop r repl n s'
      | O =>
          match match_ r s with
          | Some m =>
              new ← repl m;
              out ← sub_loop r repl (pred (length (group0 m))) s';
              mret (new ++ out)
          | None =>
              out ← sub_loop r repl 0 s'; mret (c :: out)
          end
      end
  end.

Definition sub {S} (r : re) (repl : match_obj -> M S (list N))
    (s : list N) : M S (list N) :=
  sub_loop r repl 0 s.

End Re.

Section Patterns.
Variable U : ucd.

(* \s *)
Definition re_space : Re.re := Re.chr (isspace U).
(* one character that is neither a double quote nor a backslash *)
Definition re_plain : Re.re :=
  Re.chr (fun c => negb (N.eqb c c_dq) && negb (N.eqb c c_bs)).
(* a backslash and any character but a newline *)
Definition re_escaped : Re.re :=
  Re.seq (Re.one c_bs) (Re.chr (fun c => negb (N.eqb c c_nl))).
(* either of the two *)
Definition re_token : Re.re := Re.alt re_plain re_escaped.
(* one or more of these, the body of a quoted literal *)
Definition re_body : Re.re := Re.plus re_token.

(** [Text\(\s*'((?:[^'\\]|\\.)+)'\s*\)(?!\s*\.localized)], writing an
    apostrophe for the double quote of the pattern, as [swift] does. *)
Definition TEXT_CALL_RE : Re.re :=
  Re.seq (Re.str_ (lit "Text("))
 (Re.seq (Re.star re_space)
 (Re.seq (Re.one c_dq)
 (Re.seq (Re.group 1 re_body)
 (Re.seq (Re.one c_dq)
 (Re.seq (Re.star re_space)
 (Re.seq (Re.one c_rp)
         (Re.nla (Re.seq (Re.star re_space)
                         (Re.str_ (lit ".localized")))))))))).

(** [^\s*'((?:[^'\\]|\\.)+)'\s*=\s*'((?:[^'\\]|\\.)+)'\s*;\s*$], with the
    same convention. *)
Definition LOC_LINE_RE : Re.re :=
  Re.seq Re.bos
 (Re.seq (Re.star re_space)
 (Re.seq (Re.one c_dq)
 (Re.seq (Re.group 1 re_body)
 (Re.seq (Re.one c_dq)
 (Re.seq (Re.star re_space)
 (Re.seq (Re.one 61)
 (Re.seq (Re.star re_space)
 (Re.seq (Re.one c_dq)
 (Re.seq (Re.group 2 re_body)
 (Re.seq (Re.one c_dq)
 (Re.seq (Re.star re_space)
 (Re.seq (Re.one 59)
 (Re.seq (Re.star re_space) Re.eos))))))))))))).
End Patterns.


(** ** Literal escaping codec *)

(** [s.encode('utf-8')]: surrogates cannot be encoded; numbers above
    U+10FFFF are no code points and are refused with them. *)
Definition utf8_char (c : N) : result (list N) :=
  if N.ltb c 128 then Ok [c]
  else if N.ltb c 2048 then Ok [192 + c / 64; 128 + c mod 64]%N
  else if between 55296 57343 c then Raise UnicodeEncodeError
  else if N.ltb c 65536 then
    Ok [224 + c / 4096; 128 + (c / 64) mod 64; 128 + c mod 64]%N
  else if N.leb c 1114111 then
    Ok [240 + c / 262144; 128 + (c / 4096) mod 64;
        128 + (c / 64) mod 64; 128 + c mod 64]%N
  else Raise UnicodeEncodeError.

Fixpoint utf8_encode (s : list N) : result (list N) :=
  match s with
  | [] => Ok []
  | c :: s' =>
      b ← utf8_char c; bs ← utf8_encode s'; Ok (b ++ bs)
  end.

Definition hex_value (c : N) : option N :=
  if between 48 57 c then Some (c - 48)%N
  else if between 97 102 c then Some (c - 87)%N
  else if between 65 70 c then Some (c - 55)%N
  else None.

(** The value of exactly [n] hexadecimal digits at the head of [bs]. *)
Fixpoint hex_escape (n : nat) (acc : N) (bs : list N) : option N :=
  match n with
  | O => Some acc
  | S n' =>
      match bs with
      | [] => None
      | c :: bs' =>
          match hex_value c with
          | Some d => hex_escape n' (acc * 16 + d)%N bs'
          | None => None
          end
      end
  end.

Definition is_octal (c : N) : bool := between 48 55 c.

(** [\ooo]: one to three octal digits, the first being [c]. *)
Definition octal_escape (c : N) (bs : list N) : list N * nat :=
  let d1 := (c - 48)%N in
  match bs with
  | c2 :: bs' =>
      if is_octal c2 then
        let d2 := (d1 * 8 + (c2 - 48))%N in
        match bs' with
        | c3 :: _ =>
            if is_octal c3 then ([(d2 * 8 + (c3 - 48))%N], 4) else ([d2], 3)
        | [] => ([d2], 3)
        end
      else ([d1], 2)
  | [] => ([d1], 2)
  end.

(** The text before the first closing brace, if there is one. *)
Fixpoint until_brace (bs : list N) : option (list N) :=
  match bs with
  | [] => None
  | c :: bs' =>
      if N.eqb c 125 then Some []
      else match until_brace bs' with
           | Some name => Some (c :: name)
           | None => None
           end
  end.

Section Codec.
Variable U : ucd.

(** One step of [bytes.decode('unicode_escape')] at a backslash followed
    by [c] and [bs]: the code points written and the bytes consumed. *)
Definition escape_step (c : N) (bs : list N) : result (list N * nat) :=
  if N.eqb c 10 then Ok ([], 2)
  else if N.eqb c 92 then Ok ([92%N], 2)
  else if N.eqb c 39 then Ok ([39%N], 2)
  else if N.eqb c 34 then Ok ([34%N], 2)
  else if N.eqb c 98 then Ok ([8%N], 2)
  else if N.eqb c 102 then Ok ([12%N], 2)
  else if N.eqb c 116 then Ok ([9%N], 2)
  else if N.eqb c 110 then Ok ([10%N], 2)
  else if N.eqb c 114 then Ok ([13%N], 2)
  else if N.eqb c 118 then Ok ([11%N], 2)
  else if N.eqb c 97 then Ok ([7%N], 2)
  else if is_octal c then Ok (octal_escape c bs)
  else if N.eqb c 120 || N.eqb c 117 || N.eqb c 85 then
    let n := if N.eqb c 120 then 2 else if N.eqb c 117 then 4 else 8 in
    match hex_escape n 0 bs with
    | Some ch =>
        if N.leb ch 1114111 then Ok ([ch], 2 + n)
        else Raise UnicodeDecodeError
    | None => Raise UnicodeDecodeError
    end
  else if N.eqb c 78 then
    match bs with
    | c' :: bs' =>
        if N.eqb c' 123 then
          match until_brace bs' with
          | Some [] => Raise UnicodeDecodeError
          | Some name =>
              match ucn_getcode U name with
              | Some ch => Ok ([ch], 4 + length name)
              | None => Raise UnicodeDecodeError
              end
          | None => Raise UnicodeDecodeError
          end
        else Raise UnicodeDecodeError
    | [] => Raise UnicodeDecodeError
    end
  else Ok ([92%N; c], 2).

(** [bytes.decode('unicode_escape')]: a byte stands for the code point of
    the same number, a backslash starts an escape; an unknown escape is
    kept as it is.  [skip] counts the bytes of the escape being read. *)
Fixpoint unicode_escape_decode (skip : nat) (bs : list N)
    : result (list N) :=
  match bs with
  | [] => Ok []
  | b :: bs' =>
      match skip with
      | S n => unicode_escape_decode n bs'
      | O =>
          if N.eqb b 92 then
            match bs' with
            | [] => Raise UnicodeDecodeError
            | c :: bs'' =>
                '(out, n) ← escape_step c bs'';
                tl ← unicode_escape_decode (pred n) bs';
                Ok (out ++ tl)
            end
          else tl ← unicode_escape_decode 0 bs'; Ok (b :: tl)
      end
  end.

(** [unescape]; [process_swift] spells the same expression out. *)
Definition unescape (s : list N) : result (list N) :=
  utf8_encode s ≫= unicode_escape_decode 0.
End Codec.

(** [s.replace(old, new)] for a one-character [old]. *)
Definition replace_char (old : N) (new : list N) (s : list N) : list N :=
  flat_map (fun c => if N.eqb c old then new else [c]) s.

Definition escape_for_strings (s : list N) : list N :=
  replace_char c_dq [c_bs; c_dq] (replace_char c_bs [c_bs; c_bs] s).

(** ** Key slugifier *)

Fixpoint lstrip (p : N -> bool) (s : list N) : list N :=
  match s with
  | [] => []
  | c :: s' => if p c then lstrip p s' else s
  end.

Fixpoint rstrip (p : N -> bool) (s : list N) : list N :=
  match s with
  | [] => []
  | c :: s' =>
      match rstrip p s' with
      | [] => if p c then [] else [c]
      | r => c :: r
      end
  end.

(** [s.strip()] with [p] the whitespace test, [s.strip(".")] with [p] the
    test for a dot. *)
Definition strip (p : N -> bool) (s : list N) : list N :=
  rstrip p (lstrip p s).

Definition is_dot (c : N) : bool := N.eqb c c_dot.

Section Slugify.
Variable U : ucd.

(** The [for ch in s] loop: what it appends to [out], given [prev_dot]. *)
Fixpoint slug_loop (prev_dot : bool) (s : list N) : list N :=
  match s with
  | [] => []
  | ch :: s' =>
      if isalnum U ch then ch :: slug_loop false s'
      else if prev_dot then slug_loop true s'
      else c_dot :: slug_loop true s'
  end.

(** The text the loop runs over. *)
Definition normalized (s : list N) : list N :=
  nfkd U (lower U (strip (isspace U) s)).

Definition slugify_key (s : list N) : list N :=
  let s := normalized s in
  let key := strip is_dot (slug_loop false s) in
  let key := if decide (key = []) then lit "text" else key in
  if decide (60 < length key) then strip is_dot (take 60 key) else key.
End Slugify.

(** ** Key uniqueness resolver *)

Fixpoint uint_digits (d : Decimal.uint) : list N :=
  match d with
  | Decimal.Nil => []
  | Decimal.D0 d => 48%N :: uint_digits d
  | Decimal.D1 d => 49%N :: uint_digits d
  | Decimal.D2 d => 50%N :: uint_digits d
  | Decimal.D3 d => 51%N :: uint_digits d
  | Decimal.D4 d => 52%N :: uint_digits d
  | Decimal.D5 d => 53%N :: uint_digits d
  | Decimal.D6 d => 54%N :: uint_digits d
  | Decimal.D7 d => 55%N :: uint_digits d
  | Decimal.D8 d => 56%N :: uint_digits d
  | Decimal.D9 d => 57%N :: uint_digits d
  end.

(** [str(i)] for the counter of the loop. *)
Definition str_of_int (i : nat) : list N := uint_digits (Nat.to_uint i).

(** The f-string of the loop body: base, a dot, the counter. *)
Definition suffixed (base : list N) (i : nat) : list N :=
  base ++ c_dot :: str_of_int i.

(** The [while key in existing_keys] loop, unrolled at most [fuel] times.
    The set is passed in and handed back, as the Python function receives
    a reference to it. *)
Fixpoint unique_key_loop (fuel : nat) (base key : list N) (i : nat)
    (existing_keys : gset (list N)) : option (list N * gset (list N)) :=
  match fuel with
  | O => None
  | S fuel' =>
      if decide (key ∈ existing_keys)
      then unique_key_loop fuel' base (suffixed base i) (S i) existing_keys
      else Some (key, existing_keys)
  end.

(** A set of [n] keys cannot hold all of [n + 1] candidates, so that many
    rounds are enough ([generate_unique_key_total]). *)
Definition generate_unique_key (base : list N)
    (existing_keys : gset (list N)) : option (list N * gset (list N)) :=
  unique_key_loop (S (size existing_keys)) base base 2 existing_keys.

(** ** Literal rewrite engine *)

(** [needle in s] *)
Fixpoint starts_with (needle s : list N) : bool :=
  match needle, s with
  | [], _ => true
  | c :: needle', d :: s' => N.eqb d c && starts_with needle' s'
  | _ :: _, [] => false
  end.

Fixpoint contains (needle s : list N) : bool :=
  starts_with needle s ||
  match s with
  | [] => false
  | _ :: s' => contains needle s'
  end.

Definition should_skip_literal (l : list N) : bool :=
  if contains (lit "\(") l then true
  else if contains (lit "%@") l || contains (lit "%d") l
          || contains (lit "%f") l then true
  else false.

(** The three objects [process_swift] shares with its caller. *)
Record store := Store {
  val_to_key : gmap (list N) (list N);
  existing_keys : gset (list N);
  additions : gmap (list N) (list N)
}.

(** The replacement text of a rewritten occurrence. *)
Definition localized_call (key : list N) : list N :=
  lit "Text(" ++ c_dq :: key ++ c_dq :: lit ".localized)".

(** The calls of [repl] on the shared objects. *)

(** [d.setdefault(k, v)] *)
Definition setdefault (k v : list N) (d : gmap (list N) (list N))
    : gmap (list N) (list N) :=
  match d !! k with
  | Some _ => d
  | None => <[k := v]> d
  end.

(** [val_to_key.get(literal)] *)
Definition val_to_key_get (literal : list N) : M store (option (list N)) :=
  fun st => Ok (val_to_key st !! literal, st).

(** [generate_unique_key(base, existing_keys)] *)
Definition call_generate_unique_key (base : list N) : M store (list N) :=
  fun st =>
    match generate_unique_key base (existing_keys st) with
    | Some (key, keys) => Ok (key, Store (val_to_key st) keys (additions st))
    | None => Raise LoopBound
    end.

(** [existing_keys.add(key)] *)
Definition existing_keys_add (key : list N) : M store unit := fun st =>
  Ok (tt, Store (val_to_key st) ({[key]} ∪ existing_keys st) (additions st)).

(** [additions.setdefault(key, literal)] *)
Definition additions_setdefault (key literal : list N) : M store unit :=
  fun st =>
    Ok (tt, Store (val_to_key st) (existing_keys st)
              (setdefault key literal (additions st))).

Section Rewrite.
Variable U : ucd.

(** The callable given to [sub].  The key found in the reuse map counts
    when it is a non-empty string (the test [if not key]). *)
Definition repl (m : Re.match_obj) : M store (list N) :=
  let raw := Re.group_ 1 m in
  literal ← lift (unescape U raw);
  if should_skip_literal literal then mret (Re.group0 m)
  else
    found ← val_to_key_get literal;
    key ← match found with
          | Some (c :: k) => mret (c :: k)
          | _ =>
              let base := slugify_key U literal in
              key ← call_generate_unique_key base;
              _ ← existing_keys_add key;
              _ ← additions_setdefault key literal;
              mret key
          end;
    mret (localized_call key).

Definition process_swift (content : list N) : M store (list N) :=
  Re.sub (TEXT_CALL_RE U) repl content.
End Rewrite.

(** ** Translation table store

    A file is modelled by its text, a path by its name.  A text that is
    written is encoded in UTF-8, which raises when a code point cannot be
    encoded; the texts that are read are taken as decoded. *)

Inductive node :=
  | RegularFile (text : list N)
  | Directory.

(** Iterating over a file opened for reading: the lines, each with its
    terminator, and every terminator translated to a newline. *)
Fixpoint read_lines (cur : list N) (s : list N) : list (list N) :=
  match s with
  | [] => match cur with [] => [] | _ => [reverse cur] end
  | c :: s' =>
      if N.eqb c c_nl then reverse (c_nl :: cur) :: read_lines [] s'
      else if N.eqb c c_cr then
        match s' with
        | d :: s'' =>
            if N.eqb d c_nl then reverse (c_nl :: cur) :: read_lines [] s''
            else reverse (c_nl :: cur) :: read_lines [] s'
        | [] => [reverse (c_nl :: cur)]
        end
      else read_lines (c :: cur) s'
  end.

Section Store.
Variable U : ucd.

(** The body of the [for line in f] loop on the two tables. *)
Definition parse_line
    (tables : gmap (list N) (list N) * gmap (list N) (list N))
    (line : list N) : gmap (list N) (list N) * gmap (list N) (list N) :=
  match Re.match_ (LOC_LINE_RE U) line with
  | Some m =>
      let k := Re.group_ 1 m in
      let v := Re.group_ 2 m in
      (<[k := v]> (fst tables), setdefault v k (snd tables))
  | None => tables
  end.

Definition parse_lines (lines : list (list N))
    : gmap (list N) (list N) * gmap (list N) (list N) :=
  fold_left parse_line lines (∅, ∅).

Definition parse_localizable (fs : gmap string node) (path : option string)
    : result (gmap (list N) (list N) * gmap (list N) (list N)) :=
  match path with
  | None => Ok (∅, ∅)
  | Some p =>
      match fs !! p with
      | None => Ok (∅, ∅)
      | Some Directory => Raise IsADirectoryError
      | Some (RegularFile text) => Ok (parse_lines (read_lines [] text))
      end
  end.
End Store.

(** The order of [sorted] on strings: by code point, a prefix first. *)
Fixpoint str_leb (a b : list N) : bool :=
  match a, b with
  | [], _ => true
  | _ :: _, [] => false
  | x :: a', y :: b' =>
      if N.ltb x y then true
      else if N.eqb x y then str_leb a' b'
      else false
  end.

Definition str_le (a b : list N) : Prop := str_leb a b = true.

#[global] Instance str_le_dec : RelDecision str_le.
Proof. intros a b. unfold str_le. apply _. Defined.

(** [sorted(d.keys())] *)
Definition sorted_keys (d : gmap (list N) (list N)) : list (list N) :=
  merge_sort str_le (map fst (map_to_list d)).

(** One line of the table, with its newline. *)
Definition strings_line (k v : list N) : list N :=
  c_dq :: escape_for_strings k ++ c_dq :: lit " = "
    ++ c_dq :: escape_for_strings v ++ c_dq :: lit ";" ++ [c_nl].

(** The [for k in sorted(...)] loop on the open file: the text of the file
    after the loop, and how the loop ends.  [f.write] encodes a line
    before it writes any of it, so the first line that UTF-8 cannot encode
    raises and is not written; the lines before it are. *)
Fixpoint write_lines (additions : gmap (list N) (list N))
    (keys : list (list N)) (written : list N) : list N * result unit :=
  match keys with
  | [] => (written, Ok tt)
  | k :: keys' =>
      let line := strings_line k (default [] (additions !! k)) in
      match utf8_encode line with
      | Ok _ => write_lines additions keys' (written ++ line)
      | Raise e => (written, Raise e)
      end
  end.

(** The file system after the call, and how the call ends. *)
Definition write_strings (fs : gmap string node) (path : string)
    (key_to_val additions : gmap (list N) (list N))
    : gmap string node * result unit :=
  if decide (additions = ∅) then (fs, Ok tt)
  else
    match fs !! path with
    | Some Directory => (fs, Raise IsADirectoryError)
    | opened =>
        let old := match opened with Some (RegularFile t) => t | _ => [] end in
        let sep := match old with [] => [] | _ => [c_nl] end in
        let '(text, r) :=
          write_lines additions (sorted_keys additions) (old ++ sep) in
        (<[path := RegularFile text]> fs, r)
    end.

(** ** The call pattern as a scanner

    What the backtracking matcher does on [TEXT_CALL_RE], written as one
    pass without backtracking ([text_call_scan] proves the two equal); the
    proofs about the rewrite engine go through it. *)

Fixpoint strip_prefix (p s : list N) : option (list N) :=
  match p, s with
  | [], _ => Some s
  | c :: p', d :: s' => if N.eqb d c then strip_prefix p' s' else None
  | _ :: _, [] => None
  end.

(** The longest body of a quoted literal at the head of [s], and what
    follows it. *)
Fixpoint scan_body (s : list N) : list N * list N :=
  match s with
  | [] => ([], [])
  | c :: s' =>
      if N.eqb c c_dq then ([], s)
      else if N.eqb c c_bs then
        match s' with
        | d :: s'' =>
            if N.eqb d c_nl then ([], s)
            else let '(b, r) := scan_body s'' in (c :: d :: b, r)
        | [] => ([], s)
        end
      else let '(b, r) := scan_body s' in (c :: b, r)
  end.

Section Scanner.
Variable U : ucd.

Definition skip_space (s : list N) : list N := lstrip (isspace U) s.

(** The text that the negative lookahead refuses. *)
Definition localized_follows (s : list N) : bool :=
  match strip_prefix (lit ".localized") (skip_space s) with
  | Some _ => true
  | None => false
  end.

(** After the closing quote: spaces, the parenthesis, the lookahead. *)
Definition scan_close (s : list N) : option (list N) :=
  match skip_space s with
  | c :: s' =>
      if N.eqb c c_rp then
        if localized_follows s' then None else Some s'
      else None
  | [] => None
  end.

(** After the opening quote: group 1 and the rest after the match. *)
Definition scan_quoted (s : list N) : option (list N * list N) :=
  match scan_body s with
  | ((_ :: _) as raw, c :: s') =>
      if N.eqb c c_dq then
        match scan_close s' with
        | Some rest => Some (raw, rest)
        | None => None
        end
      else None
  | _ => None
  end.

Definition scan_text_call (s : list N) : option (list N * list N) :=
  match strip_prefix (lit "Text(") s with
  | Some s1 =>
      match skip_space s1 with
      | c :: s2 => if N.eqb c c_dq then scan_quoted s2 else None
      | [] => None
      end
  | None => None
  end.
End Scanner.

(** ** The entry pattern as a scanner

    The same for [LOC_LINE_RE] ([loc_line_scan]). *)

Section LineScanner.
Variable U : ucd.

(** A quoted text at the head of [s]: its body and what follows the
    closing quote. *)
Definition scan_string (s : list N) : option (list N * list N) :=
  match s with
  | c :: s1 =>
      if N.eqb c c_dq then
        match scan_body s1 with
        | ((_ :: _) as raw, d :: s2) =>
            if N.eqb d c_dq then Some (raw, s2) else None
        | _ => None
        end
      else None
  | [] => None
  end.

(** Spaces, then the character [c]. *)
Definition scan_char (c : N) (s : list N) : option (list N) :=
  match skip_space U s with
  | d :: s' => if N.eqb d c then Some s' else None
  | [] => None
  end.

(** Key and value of a line that matches [LOC_LINE_RE]. *)
Definition scan_loc_line (s : list N) : option (list N * list N) :=
  '(k, s1) ← scan_string (skip_space U s);
  s2 ← scan_char 61 s1;
  '(v, s3) ← scan_string (skip_space U s2);
  s4 ← scan_char 59 s3;
  if forallb (isspace U) s4 then Some (k, v) else None.
End LineScanner.

(** The text of a match: the call with its spaces and its literal. *)
Definition call_text (w1 raw w2 : list N) : list N :=
  lit "Text(" ++ w1 ++ c_dq :: raw ++ c_dq :: w2 ++ [c_rp].

(** What [process_swift] returns when it has written [new] and goes on
    with a run that ends in [r]. *)
Definition then_emit (new : list N) (r : result (list N * store))
    : result (list N * store) :=
  match r with
  | Ok (out, st) => Ok (new ++ out, st)
  | Raise e => Raise e
  end.

(** ** Keys that can stand in a rewritten call

    A key is spliced between quotes as it is.  The keys the slugifier and
    the resolver make hold letters, digits and dots; a key read from a table
    can be any text.  [key_clean] asks for what the rewrite depends on. *)

Definition c_T : N := 84.

Definition clean_char (c : N) : bool :=
  negb (N.eqb c c_dq) && negb (N.eqb c c_bs)
  && negb (N.eqb c c_lp) && negb (N.eqb c c_rp).

Definition key_clean (key : list N) : bool := forallb clean_char key.

(** Every key of the reuse map is free of quotes, backslashes and
    parentheses. *)
Definition keys_clean (v2k : gmap (list N) (list N)) : Prop :=
  forall v k, v2k !! v = Some k -> key_clean k = true.

(** [rewritten a b]: [b] is [a] with some texts that start like a call
    replaced by localized calls with clean keys. *)
Inductive rewritten : list N -> list N -> Prop :=
  | rw_nil : rewritten [] []
  | rw_keep c a b : rewritten a b -> rewritten (c :: a) (c :: b)
  | rw_call m a key b :
      key_clean key = true -> rewritten a b ->
      rewritten (c_T :: m ++ a) (localized_call key ++ b).

(** ** Concrete tables for the examples

    An excerpt of CPython's tables that covers what the examples of this
    file use beyond ASCII: the Cyrillic letters U+0410..U+044F (letters, the
    capitals 32 below their small forms, short i decomposing into i and a
    combining breve) and the no-break space (a space that decomposes into
    the ASCII one).  For other code points the excerpt holds no data. *)
Definition cpython_excerpt : ucd := {|
  isalnum_tbl c := between 1040 1103 c;
  isspace_tbl c := N.eqb c 160;
  lower_tbl s :=
    map (fun c => if between 1040 1071 c then (c + 32)%N else ascii_lower c) s;
  nfkd_tbl s :=
    flat_map (fun c => if N.eqb c 1049 then [1048; 774]%N
                       else if N.eqb c 1081 then [1080; 774]%N
                       else if N.eqb c 160 then [32]%N
                       else [c]) s;
  ucn_getcode _ := None
|}.

(** ** The scenarios of the specification *)

Definition save_cancel_source : list N :=
  swift "VStack { Text('Save') Text('Save') Text('Cancel') }".

Definition empty_store : store := Store ∅ ∅ ∅.

(** The store a run starts from when the table has the given lines, as
    [main] builds it: the reuse map, the keys of the table, no additions. *)
Definition store_of_table (U : ucd) (lines : list (list N)) : store :=
  let '(key_to_val, val_to_key) := parse_lines U lines in
  Store val_to_key (dom key_to_val) ∅.

(** ** What a run does to the shared objects

    How a run changes the store, as a relation between the store before
    and the store after: the reuse map stays, keys and additions are only
    added, every new key comes with an addition and every new addition
    with a key that was free. *)
Definition store_grows (st st' : store) : Prop :=
  val_to_key st' = val_to_key st /\
  existing_keys st ⊆ existing_keys st' /\
  additions st ⊆ additions st' /\
  (forall k, k ∈ existing_keys st' ->
             k ∈ existing_keys st \/ is_Some (additions st' !! k)) /\
  (forall k, is_Some (additions st' !! k) ->
             is_Some (additions st !! k) \/
             ((k ∉ existing_keys st) /\ k ∈ existing_keys st')).

(** The code points that UTF-8 encodes: all but the surrogates, up to
    U+10FFFF. *)
Definition encodable (c : N) : bool :=
  negb (between 55296 57343 c) && N.leb c 1114111.

(** A text without line terminator. *)
Definition one_line (s : list N) : Prop := (c_nl ∉ s) /\ (c_cr ∉ s).

(** The text of a file before one of its lines: nothing, or a text that
    ends with a newline. *)
Definition line_start (pre : list N) : Prop :=
  pre = [] \/ exists pre', pre = pre' ++ [c_nl].

(** [l] has two dots in a row. *)
Definition dot_pair (l : list N) : Prop :=
  exists a b, l = a ++ c_dot :: c_dot :: b.

(** The words joined with dots between them, as [str.join] does. *)
Fixpoint join_dots (words : list (list N)) : list N :=
  match words with
  | [] => []
  | [a] => a
  | a :: words' => a ++ c_dot :: join_dots words'
  end.

(** The text [t] cut into runs: [w0], a run of code points that
    [str.isalnum] refuses, then for each pair a word, a run of code points
    that it accepts, and the run of other code points after the word; only
    the last word may have nothing after it. *)
Definition runs_of (U : ucd) (t w0 : list N) (runs : list (list N * list N))
    : Prop :=
  t = w0 ++ flat_map (fun r => fst r ++ snd r) runs /\
  Forall (fun c => isalnum U c = false) w0 /\
  Forall (fun r => fst r ≠ [] /\
                   Forall (fun c => isalnum U c = true) (fst r) /\
                   Forall (fun c => isalnum U c = false) (snd r)) runs /\
  (forall r1 r r2, runs = r1 ++ r :: r2 -> r2 ≠ [] -> snd r ≠ []).

(** The code points of a key made from ASCII text: the dot, the digits,
    the small letters. *)
Definition slug_char (c : N) : bool :=
  N.eqb c c_dot || between 48 57 c || between 97 122 c.

(** A key as the engine mints it: not empty, made of dots and of code
    points that [str.isalnum] accepts. *)
Definition slug_like (U : ucd) (k : list N) : Prop :=
  k ≠ [] /\ forall c, c ∈ k -> c = c_dot \/ isalnum U c = true.

(** ** The loop of [main] over the source files

    The walk is given as the list of the files it yields, each with the
    text read from it; what the loop writes is kept as the list of the
    writes.  Parsing the command line, copying the tree and printing the
    report are outside the model. *)

(** [r.finditer(s)]: the matches that [sub] replaces, from left to right. *)
Fixpoint finditer_loop (r : Re.re) (skip : nat) (s : list N)
    : list Re.match_obj :=
  match s with
  | [] => []
  | _ :: s' =>
      match skip with
      | S n => finditer_loop r n s'
      | O =>
          match Re.match_ r s with
          | Some m => m :: finditer_loop r (pred (length (Re.group0 m))) s'
          | None => finditer_loop r 0 s'
          end
      end
  end.

Definition finditer (r : Re.re) (s : list N) : list Re.match_obj :=
  finditer_loop r 0 s.

(** The literal of a candidate decodes. *)
Definition decodes (U : ucd) (m : Re.match_obj) : Prop :=
  exists literal, unescape U (Re.group_ 1 m) = Ok literal.

(** The literal of a candidate decodes to one that the engine skips: the
    test of the recount in [main], which is the test of [repl]. *)
Definition skipped (U : ucd) (m : Re.match_obj) : bool :=
  match unescape U (Re.group_ 1 m) with
  | Ok literal => should_skip_literal literal
  | Raise _ => false
  end.

(** The number of candidates that are not skipped. *)
Definition replaced (U : ucd) (candidates : list Re.match_obj) : nat :=
  length (List.filter (fun m => negb (skipped U m)) candidates).

(** [s.endswith(suffix)] *)
Definition ends_with (suffix s : list N) : bool :=
  starts_with (reverse suffix) (reverse s).

(** The three counters of the report. *)
Record tallies := Tallies {
  changed_files : nat;
  touched_literals : nat;
  skipped_literals : nat
}.

(** A file that the walk yields: its name, its path relative to the source
    folder, the text read from it. *)
Record source_file := SourceFile {
  sf_name : list N;
  sf_rel : string;
  sf_content : list N
}.

(** What the loop has changed so far: the shared objects, the counters, and
    the files written under the output folder, in the order of the writes. *)
Record main_state := MainState {
  m_store : store;
  m_tallies : tallies;
  m_written : list (string * list N)
}.

Section Main.
Variable U : ucd.

(** The [for m in candidates] loop that recomputes the counters. *)
Fixpoint recount (candidates : list Re.match_obj) (t : tallies)
    : result tallies :=
  match candidates with
  | [] => Ok t
  | m :: candidates' =>
      literal ← unescape U (Re.group_ 1 m);
      if should_skip_literal literal
      then recount candidates'
             (Tallies (changed_files t) (touched_literals t)
                (S (skipped_literals t)))
      else recount candidates'
             (Tallies (changed_files t) (S (touched_literals t))
                (skipped_literals t))
  end.

(** The body of the loop, for one file. *)
Definition main_file (dry_run : bool) (f : source_file) (s : main_state)
    : result main_state :=
  if negb (ends_with (lit ".swift") (sf_name f)) then Ok s
  else
    let content := sf_content f in
    let candidates := finditer (TEXT_CALL_RE U) content in
    match candidates with
    | [] => Ok s
    | _ :: _ =>
        '(new_content, st) ← process_swift U content (m_store s);
        if decide (new_content = content)
        then Ok (MainState st (m_tallies s) (m_written s))
        else
          let t := m_tallies s in
          t ← recount candidates
                 (Tallies (S (changed_files t)) (touched_literals t)
                    (skipped_literals t));
          Ok (MainState st t
                (if dry_run then m_written s
                 else m_written s ++ [(sf_rel f, new_content)]))
    end.

(** What the body of the loop runs on: the candidates of a file whose
    name ends in .swift. *)
Definition file_candidates (f : source_file) : list Re.match_obj :=
  if ends_with (lit ".swift") (sf_name f)
  then finditer (TEXT_CALL_RE U) (sf_content f) else [].

Fixpoint main_loop (dry_run : bool) (files : list source_file)
    (s : main_state) : result main_state :=
  match files with
  | [] => Ok s
  | f :: files' => s' ← main_file dry_run f s; main_loop dry_run files' s'
  end.
End Main.

(** * Properties *)

(** ** The uniqueness resolver *)

Lemma uint_digits_inj d1 d2 : uint_digits d1 = uint_digits d2 -> d1 = d2.
Proof.
  revert d2; induction d1; intros [] H; simpl in H; try discriminate;
    try reflexivity; f_equal; apply IHd1; congruence.
Qed.

Lemma str_of_int_inj i j : str_of_int i = str_of_int j -> i = j.
Proof.
  unfold str_of_int. intros H%uint_digits_inj.
  rewrite <- (DecimalNat.Unsigned.of_to i), <- (DecimalNat.Unsigned.of_to j).
  by rewrite H.
Qed.

Lemma suffixed_inj base i j : suffixed base i = suffixed base j -> i = j.
Proof.
  unfold suffixed. intros H%app_inv_head. apply str_of_int_inj. congruence.
Qed.

Lemma suffixed_ne_base base i : suffixed base i ≠ base.
Proof.
  unfold suffixed. intros H. apply (f_equal length) in H.
  rewrite length_app in H. simpl in H. lia.
Qed.

(** The candidates the loop goes through: the base, then the suffixed keys
    from [i] on. *)
Lemma unique_key_loop_Some fuel base key i keys k ks :
  unique_key_loop fuel base key i keys = Some (k, ks) ->
  ks = keys /\ (k ∉ keys) /\
  (((key ∉ keys) /\ k = key) \/
   (key ∈ keys /\ exists j, i <= j /\ k = suffixed base j /\
     forall j', i <= j' < j -> suffixed base j' ∈ keys)).
Proof.
  revert key i. induction fuel as [|fuel IH]; intros key i; simpl; [done|].
  destruct (decide (key ∈ keys)) as [Hin|Hout].
  - intros H. destruct (IH _ _ H) as (-> & Hk & Hcase). do 2 (split; [done|]).
    right. split; [done|]. destruct Hcase as [[Hfree ->]|[Hin' (j & Hj & -> & Hall)]].
    + exists i. split; [lia|]. split; [done|]. intros; lia.
    + exists j. split; [lia|]. split; [done|]. intros j' Hj'.
      destruct (decide (j' = i)) as [->|]; [done|]. apply Hall. lia.
  - intros [= <- <-]. auto.
Qed.

Lemma unique_key_loop_None fuel base key i keys :
  unique_key_loop fuel base key i keys = None ->
  fuel = 0 \/
  (key ∈ keys /\ forall j, i <= j < i + (fuel - 1) -> suffixed base j ∈ keys).
Proof.
  revert key i. induction fuel as [|fuel IH]; intros key i; simpl; [auto|].
  destruct (decide (key ∈ keys)) as [Hin|]; [|done].
  intros H. right. split; [done|]. destruct (IH _ _ H) as [->|[Hi Hall]].
  - intros; lia.
  - intros j Hj. destruct (decide (j = i)) as [->|]; [done|]. apply Hall. lia.
Qed.

Lemma candidates_NoDup base i n :
  NoDup (base :: map (suffixed base) (seq i n)).
Proof.
  constructor.
  - intros (j & Hj & _)%list_elem_of_fmap. symmetry in Hj.
    by apply suffixed_ne_base in Hj.
  - apply NoDup_fmap_2; [|apply NoDup_seq]. intros ? ?. apply suffixed_inj.
Qed.

Lemma unique_key_loop_enough base keys :
  is_Some (unique_key_loop (S (size keys)) base base 2 keys).
Proof.
  destruct (unique_key_loop _ _ _ _ _) as [r|] eqn:E; [eauto|exfalso].
  apply unique_key_loop_None in E as [?|[Hb Hall]]; [done|].
  simpl in Hall. rewrite Nat.sub_0_r in Hall.
  pose proof (candidates_NoDup base 2 (size keys)) as Hnd.
  assert (base :: map (suffixed base) (seq 2 (size keys)) ⊆+ elements keys) as Hsub.
  { apply NoDup_submseteq; [done|]. intros x Hx. apply elem_of_elements.
    apply elem_of_cons in Hx as [->|(j & -> & Hj)%list_elem_of_fmap]; [done|].
    apply elem_of_seq in Hj. apply Hall. lia. }
  apply submseteq_length in Hsub. simpl in Hsub.
  rewrite length_map, length_seq in Hsub. unfold size, set_size in Hsub.
  simpl in Hsub. lia.
Qed.

Lemma unique_key_loop_more n fuel base key i keys r :
  unique_key_loop fuel base key i keys = Some r ->
  unique_key_loop (fuel + n) base key i keys = Some r.
Proof.
  revert key i. induction fuel as [|fuel IH]; intros key i; simpl; [done|].
  destruct (decide (key ∈ keys)); [apply IH|done].
Qed.

(** C3: [generate_unique_key] returns the base when it is free, and
    otherwise the first of base.2, base.3, ... that is free; the set of
    keys it was given comes back as it was. *)
Theorem generate_unique_key_first_free (base : list N) (keys : gset (list N)) :
  (base ∉ keys -> generate_unique_key base keys = Some (base, keys)) /\
  (base ∈ keys ->
   exists i, 2 <= i /\
     generate_unique_key base keys = Some (suffixed base i, keys) /\
     (suffixed base i ∉ keys) /\
     forall j, 2 <= j < i -> suffixed base j ∈ keys).
Proof.
  destruct (unique_key_loop_enough base keys) as [[k ks] E].
  pose proof (unique_key_loop_Some _ _ _ _ _ _ _ E) as (-> & Hk & Hcase).
  unfold generate_unique_key. rewrite E. split; intros Hb.
  - destruct Hcase as [[_ ->]|[? _]]; done.
  - destruct Hcase as [[? _]|[_ (j & Hj & -> & Hall)]]; [done|]. eauto.
Qed.

(** C10: [generate_unique_key] terminates, within the bound of its
    unrolling and with the same result for every larger bound, and the key
    it returns is not in the set. *)
Theorem generate_unique_key_total (base : list N) (keys : gset (list N)) :
  exists key,
    generate_unique_key base keys = Some (key, keys) /\
    (key ∉ keys) /\
    forall n, unique_key_loop (S (size keys) + n) base base 2 keys
              = Some (key, keys).
Proof.
  destruct (unique_key_loop_enough base keys) as [[k ks] E].
  pose proof (unique_key_loop_Some _ _ _ _ _ _ _ E) as (-> & Hk & _).
  exists k. split; [done|]. split; [done|].
  intros n. by apply unique_key_loop_more.
Qed.

(** ** The slugifier *)

Lemma lstrip_length p s : length (lstrip p s) <= length s.
Proof. induction s as [|c s IH]; simpl; [done|]. destruct (p c); simpl; lia. Qed.

Lemma rstrip_length p s : length (rstrip p s) <= length s.
Proof.
  induction s as [|c s IH]; simpl; [done|].
  destruct (rstrip p s); [destruct (p c)|]; simpl in *; lia.
Qed.

Lemma strip_length p s : length (strip p s) <= length s.
Proof.
  unfold strip. etrans; [apply rstrip_length|apply lstrip_length].
Qed.

Lemma rstrip_last p s c : last (rstrip p s) = Some c -> p c = false.
Proof.
  induction s as [|d s IH]; simpl; [done|].
  destruct (rstrip p s) as [|e r] eqn:E.
  - destruct (p d) eqn:Hd; simpl; [done|]. by intros [= <-].
  - intros H. apply IH. by destruct r.
Qed.

Lemma lstrip_all p s : forallb p s = true -> lstrip p s = [].
Proof.
  induction s as [|c s IH]; simpl; [done|].
  destruct (p c); simpl; [done|discriminate].
Qed.

Lemma elem_of_lstrip p s c : c ∈ lstrip p s -> c ∈ s.
Proof.
  induction s as [|d s IH]; simpl; [done|].
  destruct (p d); [|done]. intros H. right. by apply IH.
Qed.

Lemma elem_of_rstrip p s c : c ∈ rstrip p s -> c ∈ s.
Proof.
  induction s as [|d s IH]; simpl; [done|].
  destruct (rstrip p s) as [|e r].
  - destruct (p d); [by intros ?%elem_of_nil|].
    intros ->%list_elem_of_singleton. left.
  - intros [->|H]%elem_of_cons; [left|right; by apply IH].
Qed.

Lemma elem_of_strip p s c : c ∈ strip p s -> c ∈ s.
Proof. intros H. by apply elem_of_lstrip with p, elem_of_rstrip with p. Qed.

Lemma lstrip_id p s : (forall c, head s = Some c -> p c = false) -> lstrip p s = s.
Proof. destruct s as [|c s]; simpl; [done|]. intros H. by rewrite H. Qed.

Lemma rstrip_id p s : (forall c, last s = Some c -> p c = false) -> rstrip p s = s.
Proof.
  induction s as [|c s IH]; simpl; [done|]. intros H.
  destruct s as [|d s].
  - simpl. by rewrite H.
  - rewrite IH by (intros; by apply H). done.
Qed.

Section SlugifyFacts.
Variable U : ucd.

Lemma slug_loop_dots b s :
  Forall (fun c => isalnum U c = false) s ->
  forallb is_dot (slug_loop U b s) = true.
Proof.
  intros H. revert b. induction H as [|c s Hc _ IH]; intros b; simpl; [done|].
  rewrite Hc. destruct b; simpl; auto.
Qed.

Lemma elem_of_slug_loop b s c :
  c ∈ slug_loop U b s -> c = c_dot \/ (isalnum U c = true /\ c ∈ s).
Proof.
  revert b. induction s as [|d s IH]; intros b; simpl; [by intros ?%elem_of_nil|].
  destruct (isalnum U d) eqn:Hd.
  - intros [->|H]%elem_of_cons.
    + right. split; [done|left].
    + destruct (IH _ H) as [?|[? ?]]; [by left|right; split; [done|by right]].
  - assert (c ∈ slug_loop U true s -> c = c_dot \/ isalnum U c = true /\ c ∈ d :: s).
    { intros H. destruct (IH _ H) as [?|[? ?]]; [by left|right; split; [done|by right]]. }
    destruct b; [done|]. intros [->|?]%elem_of_cons; auto.
Qed.

Lemma slugify_key_bound s :
  length (slugify_key U s) <= 60 /\ last (slugify_key U s) ≠ Some c_dot.
Proof.
  unfold slugify_key.
  set (key0 := strip is_dot (slug_loop U false (normalized U s))).
  set (key := if decide (key0 = []) then lit "text" else key0).
  assert (last key ≠ Some c_dot) as Hlast.
  { unfold key. destruct (decide (key0 = [])); [done|].
    intros H%rstrip_last. done. }
  destruct (decide (60 < length key)) as [Hlong|Hshort].
  - split.
    + etrans; [apply strip_length|]. rewrite length_take. lia.
    + intros H%rstrip_last. done.
  - split; [lia|done].
Qed.
End SlugifyFacts.

(** C8: the two examples of the specification, for whatever the tables say
    beyond ASCII; a slug of 62 characters whose 60th is the separator, cut
    to the 59 before it; and the cap: the key of any input, so of one whose
    slug is longer than 60 too, has at most 60 characters and no dot at its
    end. *)
Theorem slugify_key_examples_and_cap (U : ucd) :
  slugify_key U (lit "Example Text!") = lit "example.text" /\
  slugify_key U (lit "") = lit "text" /\
  slugify_key U (repeat 97%N 59 ++ lit " bc") = repeat 97%N 59 /\
  forall s, length (slugify_key U s) <= 60 /\
            last (slugify_key U s) ≠ Some c_dot.
Proof.
  split; [reflexivity|]. split; [reflexivity|]. split; [reflexivity|].
  apply slugify_key_bound.
Qed.

(** ** The call pattern: matcher and scanner agree *)

Lemma str_strip_prefix p k g s :
  Re.str_ p k g s =
  match strip_prefix p s with Some s' => k g s' | None => None end.
Proof.
  revert s. induction p as [|c p IH]; intros s; simpl; [done|].
  unfold Re.seq, Re.one, Re.chr. destruct s as [|d s]; [done|].
  destruct (N.eqb d c); [apply IH|done].
Qed.

Lemma scan_body_app s raw r : scan_body s = (raw, r) -> s = raw ++ r.
Proof.
  revert raw r. induction s as [s IH] using (induction_ltof1 _ (@length N)).
  unfold ltof in IH. intros raw r. destruct s as [|c s]; simpl.
  { by intros [= <- <-]. }
  destruct (N.eqb c c_dq); [by intros [= <- <-]|].
  destruct (N.eqb c c_bs).
  - destruct s as [|d s]; [by intros [= <- <-]|].
    destruct (N.eqb d c_nl); [by intros [= <- <-]|].
    destruct (scan_body s) as [b r'] eqn:E. intros [= <- <-].
    simpl. do 2 f_equal. apply IH; [simpl; lia|done].
  - destruct (scan_body s) as [b r'] eqn:E. intros [= <- <-].
    simpl. f_equal. apply IH; [simpl; lia|done].
Qed.

Lemma take_matched (x y : list N) :
  take (length (x ++ y) - length y) (x ++ y) = x.
Proof.
  rewrite length_app.
  replace (length x + length y - length y) with (length x) by lia.
  apply take_app_length.
Qed.

Section Agreement.
Variable U : ucd.

Lemma star_space_fuel k g s n :
  (forall g c s', isspace U c = true -> k g (c :: s') = None) ->
  length s <= n ->
  Re.star_fuel n (re_space U) k g s = k g (skip_space U s).
Proof.
  intros Hk. revert n. induction s as [|c s IH]; intros n Hn.
  - destruct n; simpl; done.
  - destruct n as [|n]; simpl in *; [lia|].
    unfold re_space at 1, Re.chr, skip_space. simpl.
    destruct (isspace U c) eqn:Hc; [|done].
    rewrite (proj2 (Nat.ltb_lt _ _)) by lia.
    rewrite IH by lia. unfold skip_space.
    destruct (k g (lstrip (isspace U) s)); [done|]. by apply Hk.
Qed.

Lemma star_space_skip k g s :
  (forall g c s', isspace U c = true -> k g (c :: s') = None) ->
  Re.star (re_space U) k g s = k g (skip_space U s).
Proof. intros Hk. by apply star_space_fuel. Qed.

Lemma star_token_fuel k g s n :
  (forall g c s', c ≠ c_dq -> k g (c :: s') = None) ->
  length s <= n ->
  Re.star_fuel n re_token k g s = k g (snd (scan_body s)).
Proof.
  intros Hk. revert s g. induction n as [n IH] using lt_wf_ind.
  intros s g Hn. destruct s as [|c s].
  { destruct n; simpl; done. }
  destruct n as [|n]; simpl in Hn; [lia|].
  cbn [Re.star_fuel scan_body].
  unfold re_token at 1, Re.alt, re_plain at 1, re_escaped at 1, Re.seq,
    Re.one, Re.chr.
  destruct (N.eqb c c_dq) eqn:Hdq; simpl.
  { apply N.eqb_eq in Hdq as ->. done. }
  assert (k g (c :: s) = None) as Hfail.
  { apply Hk. intros ->. done. }
  destruct (N.eqb c c_bs) eqn:Hbs; simpl.
  - destruct s as [|d s]; [done|].
    destruct (N.eqb d c_nl) eqn:Hnl; simpl; [done|].
    rewrite (proj2 (Nat.ltb_lt _ _)) by (simpl; lia).
    rewrite IH by (simpl in *; lia).
    destruct (scan_body s) as [b r]; simpl.
    by destruct (k g r).
  - rewrite (proj2 (Nat.ltb_lt _ _)) by (simpl; lia).
    rewrite IH by (simpl in *; lia).
    destruct (scan_body s) as [b r]; simpl.
    by destruct (k g r).
Qed.

Lemma isspace_ne c d :
  isspace U d = false -> isspace U c = true -> N.eqb c d = false.
Proof.
  intros Hd Hc. destruct (N.eqb c d) eqn:E; [|done].
  apply N.eqb_eq in E as ->. congruence.
Qed.

Lemma group_body i k g s :
  (forall g c s', c ≠ c_dq -> k g (c :: s') = None) ->
  Re.group i re_body k g s =
  match scan_body s with
  | ((_ :: _) as raw, r) => k ((i, raw) :: g) r
  | ([], _) => None
  end.
Proof.
  intros Hk.
  pose (kk := fun g' s' => k ((i, take (length s - length s') s) :: g') s').
  change (Re.group i re_body k g s) with (re_token (Re.star re_token kk) g s).
  assert (forall g c s', c ≠ c_dq -> kk g (c :: s') = None) as Hkk.
  { intros. unfold kk. by apply Hk. }
  assert (forall t, Re.star re_token kk g t = kk g (snd (scan_body t))) as Hstar.
  { intros t. by apply star_token_fuel. }
  destruct s as [|c s]; [done|].
  unfold re_token at 1, Re.alt, re_plain at 1, re_escaped at 1, Re.seq,
    Re.one, Re.chr. cbn [scan_body].
  destruct (N.eqb c c_dq) eqn:Hdq; simpl.
  { apply N.eqb_eq in Hdq as ->. done. }
  destruct (N.eqb c c_bs) eqn:Hbs; simpl.
  - destruct s as [|d s]; [done|].
    destruct (N.eqb d c_nl) eqn:Hnl; simpl; [done|].
    rewrite Hstar. destruct (scan_body s) as [b r] eqn:E; simpl.
    apply scan_body_app in E as ->. unfold kk.
    by rewrite (take_matched (c :: d :: b) r
                : take (length (c :: d :: b ++ r) - length r)
                    (c :: d :: b ++ r) = c :: d :: b).
  - rewrite Hstar. destruct (scan_body s) as [b r] eqn:E; simpl.
    apply scan_body_app in E as ->. unfold kk.
    rewrite (take_matched (c :: b) r
             : take (length (c :: b ++ r) - length r) (c :: b ++ r) = c :: b).
    by destruct (k ((i, c :: b) :: g) r).
Qed.

Lemma nla_localized k g s :
  Re.nla (Re.seq (Re.star (re_space U)) (Re.str_ (lit ".localized"))) k g s =
  if localized_follows U s then None else k g s.
Proof.
  unfold Re.nla, Re.seq, localized_follows.
  rewrite star_space_skip.
  - rewrite str_strip_prefix. by destruct (strip_prefix _ _).
  - intros g' c s' Hc.
    change (lit ".localized") with (46%N :: lit "localized").
    cbn [Re.str_]. unfold Re.seq, Re.one, Re.chr.
    by rewrite (isspace_ne c 46).
Qed.

(** The backtracking matcher on [TEXT_CALL_RE] is the scanner. *)
Lemma text_call_scan s :
  Re.match_ (TEXT_CALL_RE U) s =
  match scan_text_call U s with
  | Some (raw, rest) =>
      Some (Re.Match (take (length s - length rest) s) [(1, raw)] rest)
  | None => None
  end.
Proof.
  unfold Re.match_, TEXT_CALL_RE, scan_text_call.
  unfold Re.seq at 1. rewrite str_strip_prefix.
  destruct (strip_prefix (lit "Text(") s) as [s1|]; [|done].
  unfold Re.seq at 1. rewrite star_space_skip; cycle 1.
  { intros g c s' Hc. unfold Re.seq, Re.one, Re.chr.
    by rewrite (isspace_ne c c_dq). }
  destruct (skip_space U s1) as [|c s2]; [done|].
  unfold Re.seq at 1, Re.one at 1, Re.chr at 1.
  destruct (N.eqb c c_dq); [|done].
  unfold Re.seq at 1. rewrite group_body; cycle 1.
  { intros g d s' Hd. unfold Re.seq, Re.one, Re.chr.
    destruct (N.eqb d c_dq) eqn:E; [|done]. by apply N.eqb_eq in E. }
  unfold scan_quoted. destruct (scan_body s2) as [[|r0 raw] [|d s3]]; try done.
  unfold Re.seq at 1, Re.one at 1, Re.chr at 1.
  destruct (N.eqb d c_dq); [|done].
  unfold Re.seq at 1. rewrite star_space_skip; cycle 1.
  { intros g e s' He. unfold Re.seq, Re.one, Re.chr.
    by rewrite (isspace_ne e c_rp). }
  unfold scan_close. destruct (skip_space U s3) as [|e s4]; [done|].
  unfold Re.seq at 1, Re.one at 1, Re.chr at 1.
  destruct (N.eqb e c_rp); [|done].
  rewrite nla_localized. by destruct (localized_follows U s4).
Qed.
End Agreement.

Lemma strip_prefix_Some p s s' : strip_prefix p s = Some s' <-> s = p ++ s'.
Proof.
  revert s. induction p as [|c p IH]; intros s; simpl.
  - split; [by intros [= ->]|by intros ->].
  - destruct s as [|d s]; [done|].
    destruct (N.eqb d c) eqn:E.
    + apply N.eqb_eq in E as ->. rewrite IH. split; [by intros ->|by intros [= ->]].
    + apply N.eqb_neq in E. split; [done|]. intros [= -> _]. done.
Qed.

Lemma lstrip_split p s :
  exists w, s = w ++ lstrip p s /\ forallb p w = true.
Proof.
  induction s as [|c s (w & Hs & Hw)]; simpl; [by exists []|].
  destruct (p c) eqn:Hc.
  - exists (c :: w). simpl. rewrite Hc, Hw. split; [by f_equal|done].
  - by exists [].
Qed.

Lemma lstrip_app p w c s :
  forallb p w = true -> p c = false -> lstrip p (w ++ c :: s) = c :: s.
Proof.
  intros Hw Hc. induction w as [|d w IH]; simpl in *; [by rewrite Hc|].
  apply andb_prop in Hw as [-> Hw]. auto.
Qed.

Lemma scan_body_stable s raw r x :
  scan_body s = (raw, c_dq :: r) -> scan_body (raw ++ c_dq :: x) = (raw, c_dq :: x).
Proof.
  revert raw. induction s as [s IH] using (induction_ltof1 _ (@length N)).
  unfold ltof in IH. intros raw. destruct s as [|c s]; simpl; [done|].
  destruct (N.eqb c c_dq) eqn:Hdq; [intros [= <- _]; reflexivity|].
  destruct (N.eqb c c_bs) eqn:Hbs.
  - destruct s as [|d s]; [intros [= _ E]; by rewrite E in Hdq|].
    destruct (N.eqb d c_nl) eqn:Hnl.
    { intros [= _ E]. by rewrite E in Hdq. }
    destruct (scan_body s) as [b r'] eqn:E. intros [= <- ->].
    simpl. rewrite Hdq, Hbs, Hnl.
    by rewrite (IH s ltac:(simpl; lia) b E).
  - destruct (scan_body s) as [b r'] eqn:E. intros [= <- ->].
    simpl. rewrite Hdq, Hbs.
    by rewrite (IH s ltac:(simpl; lia) b E).
Qed.

Section Shape.
Variable U : ucd.

Lemma scan_close_Some s rest :
  scan_close U s = Some rest <->
  exists w, s = w ++ c_rp :: rest /\ forallb (isspace U) w = true /\
            localized_follows U rest = false.
Proof.
  unfold scan_close, skip_space. split.
  - destruct (lstrip_split (isspace U) s) as (w & Hs & Hw).
    destruct (lstrip (isspace U) s) as [|c s']; [done|].
    destruct (N.eqb c c_rp) eqn:E; [|done]. apply N.eqb_eq in E as ->.
    destruct (localized_follows U s') eqn:Hl; [done|]. intros [= <-]. eauto.
  - intros (w & -> & Hw & Hl). rewrite lstrip_app by done.
    by rewrite N.eqb_refl, Hl.
Qed.

Lemma scan_quoted_Some s raw rest :
  scan_quoted U s = Some (raw, rest) <->
  exists w, s = raw ++ c_dq :: w ++ c_rp :: rest /\ raw ≠ [] /\
    (forall x, scan_body (raw ++ c_dq :: x) = (raw, c_dq :: x)) /\
    forallb (isspace U) w = true /\ localized_follows U rest = false.
Proof.
  unfold scan_quoted. split.
  - destruct (scan_body s) as [[|r0 raw'] [|c s']] eqn:E; try done.
    destruct (N.eqb c c_dq) eqn:Hc; [|done]. apply N.eqb_eq in Hc as ->.
    destruct (scan_close U s') as [rest'|] eqn:Hcl; [|done]. intros [= <- <-].
    apply scan_close_Some in Hcl as (w & -> & Hw & Hl). exists w.
    split; [by apply scan_body_app in E|]. split; [done|].
    split; [|done]. intros x. by eapply scan_body_stable.
  - intros (w & -> & Hraw & Hbody & Hw & Hl). rewrite Hbody.
    destruct raw as [|r0 raw]; [done|]. rewrite N.eqb_refl.
    assert (scan_close U (w ++ c_rp :: rest) = Some rest) as ->; [|done].
    apply scan_close_Some. eauto.
Qed.

Lemma scan_text_call_Some s raw rest :
  scan_text_call U s = Some (raw, rest) <->
  exists w1 w2, s = call_text w1 raw w2 ++ rest /\
    forallb (isspace U) w1 = true /\ forallb (isspace U) w2 = true /\
    raw ≠ [] /\
    (forall x, scan_body (raw ++ c_dq :: x) = (raw, c_dq :: x)) /\
    localized_follows U rest = false.
Proof.
  unfold scan_text_call, skip_space, call_text. split.
  - destruct (strip_prefix _ s) as [s1|] eqn:E1; [|done].
    apply strip_prefix_Some in E1 as ->.
    destruct (lstrip_split (isspace U) s1) as (w1 & Hs & Hw).
    destruct (lstrip (isspace U) s1) as [|c s2]; [done|].
    destruct (N.eqb c c_dq) eqn:Hc; [|done]. apply N.eqb_eq in Hc as ->.
    intros (w2 & -> & ? & ? & ? & ?)%scan_quoted_Some.
    exists w1, w2. split; [|done]. rewrite Hs. by simplify_list_eq.
  - intros (w1 & w2 & -> & Hw1 & Hw2 & Hraw & Hbody & Hl).
    assert (strip_prefix (lit "Text(")
              ((lit "Text(" ++ w1 ++ c_dq :: raw ++ c_dq :: w2 ++ [c_rp]) ++ rest)
            = Some (w1 ++ c_dq :: raw ++ c_dq :: w2 ++ c_rp :: rest)) as ->.
    { apply strip_prefix_Some. by simplify_list_eq. }
    rewrite lstrip_app by done. rewrite N.eqb_refl.
    apply scan_quoted_Some. exists w2. by simplify_list_eq.
Qed.
End Shape.

Lemma sub_loop_skip {S} r (repl : Re.match_obj -> M S (list N)) m rest st :
  Re.sub_loop r repl (length m) (m ++ rest) st = Re.sub_loop r repl 0 rest st.
Proof. induction m as [|c m IH]; simpl; [by destruct rest|done]. Qed.

Section Engine.
Variable U : ucd.

Lemma match_text_call s m :
  Re.match_ (TEXT_CALL_RE U) s = Some m ->
  scan_text_call U s = Some (Re.group_ 1 m, Re.m_rest m) /\
  Re.group0 m ≠ [] /\ s = Re.group0 m ++ Re.m_rest m.
Proof.
  rewrite text_call_scan.
  destruct (scan_text_call U s) as [[raw rest]|] eqn:E; [|done].
  intros [= <-]. split; [done|]. simpl.
  apply scan_text_call_Some in E as (w1 & w2 & -> & _).
  rewrite take_matched. split; [done|done].
Qed.

Lemma process_swift_call s m st :
  Re.match_ (TEXT_CALL_RE U) s = Some m ->
  process_swift U s st =
  match repl U m st with
  | Ok (new, st') => then_emit new (process_swift U (Re.m_rest m) st')
  | Raise e => Raise e
  end.
Proof.
  intros Hm. destruct (match_text_call _ _ Hm) as (_ & Hne & Hs).
  unfold process_swift, Re.sub. destruct s as [|c s].
  { by destruct (Re.group0 m). }
  cbn [Re.sub_loop]. rewrite Hm. unfold mbind at 1, M_bind.
  destruct (repl U m st) as [[new st']|e]; [|done].
  destruct (Re.group0 m) as [|c' g0] eqn:Hg; [done|].
  injection Hs as -> ->. simpl pred.
  unfold mbind, M_bind. rewrite sub_loop_skip.
  by destruct (Re.sub_loop _ _ 0 _ st') as [[out st'']|].
Qed.

Lemma process_swift_plain c s st :
  Re.match_ (TEXT_CALL_RE U) (c :: s) = None ->
  process_swift U (c :: s) st = then_emit [c] (process_swift U s st).
Proof.
  intros Hm. unfold process_swift, Re.sub. cbn [Re.sub_loop]. rewrite Hm.
  unfold mbind, M_bind.
  by destruct (Re.sub_loop _ _ 0 _ st) as [[out st'']|].
Qed.

Lemma should_skip_literal_true l :
  should_skip_literal l = true <->
  contains (lit "\(") l = true \/ contains (lit "%@") l = true \/
  contains (lit "%d") l = true \/ contains (lit "%f") l = true.
Proof.
  unfold should_skip_literal.
  destruct (contains (lit "\(") l), (contains (lit "%@") l),
    (contains (lit "%d") l), (contains (lit "%f") l); simpl;
    intuition discriminate.
Qed.

(** C5: a matched occurrence whose decoded literal holds the interpolation
    marker or one of the placeholders %@, %d, %f is returned as it stands,
    the store (reuse map, key set, additions) is left as it was, and the
    output of the run carries the occurrence unchanged before what the run
    makes of the rest. *)
Theorem skipped_occurrence_untouched s m st literal :
  Re.match_ (TEXT_CALL_RE U) s = Some m ->
  unescape U (Re.group_ 1 m) = Ok literal ->
  contains (lit "\(") literal = true \/ contains (lit "%@") literal = true \/
    contains (lit "%d") literal = true \/ contains (lit "%f") literal = true ->
  repl U m st = Ok (Re.group0 m, st) /\
  s = Re.group0 m ++ Re.m_rest m /\
  process_swift U s st =
    then_emit (Re.group0 m) (process_swift U (Re.m_rest m) st).
Proof.
  intros Hm Hlit Hskip%should_skip_literal_true.
  assert (repl U m st = Ok (Re.group0 m, st)) as Hrepl.
  { unfold repl, mbind, M_bind, lift. by rewrite Hlit, Hskip. }
  split; [done|]. split; [by apply match_text_call|].
  by rewrite (process_swift_call _ _ _ Hm), Hrepl.
Qed.

(** A literal that is not skipped and has a non-empty key in the reuse map
    is rewritten with that key, and the store is left as it was. *)
Lemma repl_reuses_key m st literal key :
  unescape U (Re.group_ 1 m) = Ok literal ->
  should_skip_literal literal = false ->
  val_to_key st !! literal = Some key ->
  key ≠ [] ->
  repl U m st = Ok (localized_call key, st).
Proof.
  intros Hlit Hskip Hkey Hne.
  unfold repl, mbind, M_bind, lift, val_to_key_get. rewrite Hlit, Hskip, Hkey.
  by destruct key.
Qed.
End Engine.

(** ** Idempotence of the rewrite *)

Lemma localized_call_eq key b :
  localized_call key ++ b =
  c_T :: [101; 120; 116; 40; 34]%N ++ key ++ c_dq :: lit ".localized)" ++ b.
Proof. unfold localized_call. by simplify_list_eq. Qed.

Lemma rewritten_inv_cons a c b' :
  rewritten a (c :: b') ->
  (exists a', a = c :: a' /\ rewritten a' b') \/
  (exists a' key x, a = c_T :: a' /\ c = c_T /\ key_clean key = true /\
     b' = [101; 120; 116; 40; 34]%N ++ key ++ c_dq :: x).
Proof.
  intros H. remember (c :: b') as b eqn:Eb.
  destruct H as [|d a0 b0 H0|m a0 key b0 Hk H0].
  - done.
  - injection Eb as -> ->. left. eauto.
  - rewrite localized_call_eq in Eb. injection Eb as <- <-. right.
    by exists (m ++ a0), key, (lit ".localized)" ++ b0).
Qed.

Lemma rewritten_strip_prefix p a b :
  rewritten a b -> forallb (fun c => negb (N.eqb c_T c)) p = true ->
  match strip_prefix p a, strip_prefix p b with
  | Some a', Some b' => rewritten a' b'
  | None, None => True
  | _, _ => False
  end.
Proof.
  intros H Hp. revert a b H. induction p as [|c p IH]; intros a b H; simpl; [done|].
  cbn [forallb] in Hp. apply andb_prop in Hp as [Hc Hp].
  destruct H as [|d a b H|m a key b Hk H].
  - done.
  - destruct (N.eqb d c); [by apply IH|done].
  - rewrite localized_call_eq. cbn [strip_prefix].
    destruct (N.eqb c_T c); [discriminate Hc|done].
Qed.

Section Simulation.
Variable U : ucd.

Lemma rewritten_skip_space a b :
  rewritten a b -> rewritten (skip_space U a) (skip_space U b).
Proof.
  unfold skip_space. induction 1 as [|c a b H IH|m a key b Hk H IH].
  - constructor.
  - simpl. destruct (isspace U c); [done|by constructor].
  - assert (lstrip (isspace U) (localized_call key ++ b)
            = localized_call key ++ b) as ->.
    { by rewrite localized_call_eq. }
    simpl. by constructor.
Qed.

Lemma rewritten_localized_follows a b :
  rewritten a b -> localized_follows U a = localized_follows U b.
Proof.
  intros H%rewritten_skip_space. unfold localized_follows.
  apply (rewritten_strip_prefix (lit ".localized")) in H.
  - by destruct (strip_prefix _ (skip_space U a)), (strip_prefix _ (skip_space U b)).
  - reflexivity.
Qed.

Lemma clean_scan_close key x :
  key_clean key = true -> scan_close U (key ++ c_dq :: x) = None.
Proof.
  unfold scan_close, skip_space.
  induction key as [|c key IH]; [done|]. simpl.
  intros [Hc Hk]%andb_prop. destruct (isspace U c); [by apply IH|].
  unfold clean_char in Hc. by destruct (N.eqb c c_rp); [rewrite andb_false_r in Hc|].
Qed.

Lemma clean_scan_body key x :
  key_clean key = true -> scan_body (key ++ c_dq :: x) = (key, c_dq :: x).
Proof.
  induction key as [|c key IH]; [done|]. simpl.
  intros [Hc Hk]%andb_prop. unfold clean_char in Hc.
  destruct (N.eqb c c_dq); [done|]. destruct (N.eqb c c_bs); [done|].
  by rewrite IH.
Qed.

Lemma clean_no_call key x :
  key_clean key = true ->
  strip_prefix (lit "Text(") (key ++ c_dq :: x) = None.
Proof.
  intros Hk.
  destruct (strip_prefix _ _) as [r|] eqn:E; [exfalso|done].
  apply strip_prefix_Some in E.
  assert (forall k, key_clean k = true -> forall y, k ++ c_dq :: x ≠ c_lp :: y) as Hlp.
  { intros [|c k] Hc y E'; [discriminate E'|]. injection E' as -> _. done. }
  change (lit "Text(") with [84; 101; 120; 116; 40]%N in E.
  destruct key as [|c1 [|c2 [|c3 [|c4 k]]]]; simpl in E; try discriminate E.
  injection E as _ _ _ _ E. revert E. apply Hlp.
  simpl in Hk. by repeat (apply andb_prop in Hk as [_ Hk]).
Qed.

(** A body in the output that is followed by the rest of a call was
    scanned without entering a rewritten call. *)
Lemma rewritten_scan_body a b raw b' :
  rewritten a b -> scan_body b = (raw, c_dq :: b') ->
  is_Some (scan_close U b') ->
  exists a', scan_body a = (raw, c_dq :: a') /\ rewritten a' b'.
Proof.
  revert a raw. induction b as [b IH] using (induction_ltof1 _ (@length N)).
  unfold ltof in IH. intros a raw Hab Hb [rest Hclose].
  assert (forall key x, key_clean key = true ->
            b' = key ++ c_dq :: x -> False) as Hcross.
  { intros key x Hk ->. by rewrite clean_scan_close in Hclose. }
  destruct b as [|c b1]; [done|].
  apply rewritten_inv_cons in Hab
    as [(a1 & -> & H1)|(a1 & key & b0 & -> & -> & Hk & ->)]; cycle 1.
  { simpl in Hb. injection Hb as _ Hb. symmetry in Hb. by apply Hcross in Hb. }
  simpl in Hb |- *.
  destruct (N.eqb c c_dq) eqn:Hdq.
  { injection Hb as <- Ec <-. rewrite Ec. eauto. }
  destruct (N.eqb c c_bs) eqn:Hbs.
  - destruct b1 as [|d b2]; [injection Hb as _ E; by rewrite E in Hdq|].
    destruct (N.eqb d c_nl) eqn:Hnl; [injection Hb as _ E; by rewrite E in Hdq|].
    apply rewritten_inv_cons in H1
      as [(a2 & -> & H2)|(a2 & key & b0 & -> & -> & Hk & ->)]; cycle 1.
    { simpl in Hb. injection Hb as _ Hb. symmetry in Hb.
      by apply Hcross in Hb. }
    rewrite Hnl. destruct (scan_body b2) as [raw2 r] eqn:E2.
    injection Hb as <- ->.
    destruct (IH b2 ltac:(simpl; lia) a2 raw2 H2 E2) as (a' & -> & H'); eauto.
  - destruct (scan_body b1) as [raw1 r] eqn:E1. injection Hb as <- ->.
    destruct (IH b1 ltac:(simpl; lia) a1 raw1 H1 E1) as (a' & -> & H'); eauto.
Qed.

Lemma rewritten_scan_close a b rb :
  rewritten a b -> scan_close U b = Some rb ->
  exists ra, scan_close U a = Some ra /\ rewritten ra rb.
Proof.
  intros H%rewritten_skip_space. unfold scan_close.
  destruct (skip_space U b) as [|c s']; [done|].
  destruct (N.eqb c c_rp) eqn:Hc; [|done]. apply N.eqb_eq in Hc as ->.
  apply rewritten_inv_cons in H as [(a' & -> & H)|(? & ? & ? & _ & ? & _)];
    [|done].
  rewrite (rewritten_localized_follows _ _ H). rewrite N.eqb_refl.
  destruct (localized_follows U s'); [done|]. intros [= <-]. eauto.
Qed.

Lemma rewritten_scan_quoted a b raw rb :
  rewritten a b -> scan_quoted U b = Some (raw, rb) ->
  exists ra, scan_quoted U a = Some (raw, ra) /\ rewritten ra rb.
Proof.
  intros H. unfold scan_quoted.
  destruct (scan_body b) as [[|r0 raw'] [|c s']] eqn:E; try done.
  destruct (N.eqb c c_dq) eqn:Hc; [|done]. apply N.eqb_eq in Hc as ->.
  destruct (scan_close U s') as [rest|] eqn:Hcl; [|done]. intros [= <- <-].
  destruct (rewritten_scan_body _ _ _ _ H E) as (a' & -> & H'); [by rewrite Hcl|].
  destruct (rewritten_scan_close _ _ _ H' Hcl) as (ra & -> & Hr).
  rewrite N.eqb_refl. eauto.
Qed.

(** A rewritten call is not a call any more. *)
Lemma localized_call_not_call key b :
  key_clean key = true -> scan_text_call U (localized_call key ++ b) = None.
Proof.
  intros Hk. rewrite localized_call_eq.
  unfold scan_text_call, skip_space. simpl.
  unfold scan_quoted. rewrite (clean_scan_body key) by done.
  destruct key; [done|]. simpl. unfold scan_close, skip_space. by simpl.
Qed.

(** A call found in the output was a call of the source, with the same
    literal. *)
Lemma rewritten_scan_text_call a b raw rb :
  rewritten a b -> scan_text_call U b = Some (raw, rb) ->
  exists ra, scan_text_call U a = Some (raw, ra) /\ rewritten ra rb.
Proof.
  intros H. destruct H as [|c a b H|m a key b Hk H].
  - done.
  - unfold scan_text_call.
    change (lit "Text(") with (c_T :: lit "ext("). cbn [strip_prefix].
    destruct (N.eqb c c_T); [|done].
    pose proof (rewritten_strip_prefix (lit "ext(") _ _ H eq_refl) as Hp.
    destruct (strip_prefix (lit "ext(") b) as [b1|]; [|done].
    destruct (strip_prefix (lit "ext(") a) as [a1|]; [|done].
    apply rewritten_skip_space in Hp.
    destruct (skip_space U b1) as [|d b2]; [done|].
    destruct (N.eqb d c_dq) eqn:Hd; [|done]. apply N.eqb_eq in Hd as ->.
    apply rewritten_inv_cons in Hp as [(a2 & -> & H2)|(? & ? & ? & _ & ? & _)];
      [|done].
    rewrite N.eqb_refl. by apply rewritten_scan_quoted.
  - by rewrite localized_call_not_call.
Qed.
End Simulation.

Lemma then_emit_app l1 l2 r :
  then_emit l1 (then_emit l2 r) = then_emit (l1 ++ l2) r.
Proof. destruct r as [[out st]|e]; simpl; [|done]. by rewrite app_assoc. Qed.

Lemma clean_char_alnum U c : isalnum U c = true -> clean_char c = true.
Proof.
  intros H. unfold clean_char.
  assert (forall d, isalnum U d = false -> N.eqb c d = false) as Hne.
  { intros d Hd. destruct (N.eqb c d) eqn:E; [|done].
    apply N.eqb_eq in E as ->. congruence. }
  by rewrite (Hne c_dq), (Hne c_bs), (Hne c_lp), (Hne c_rp) by reflexivity.
Qed.

Lemma key_clean_Forall key :
  key_clean key = true <-> Forall (fun c => clean_char c = true) key.
Proof.
  unfold key_clean. induction key as [|c key IH]; simpl.
  - split; [constructor|done].
  - by rewrite andb_true_iff, Forall_cons, IH.
Qed.

Lemma key_clean_elem key :
  (forall c, c ∈ key -> clean_char c = true) -> key_clean key = true.
Proof. intros H. apply key_clean_Forall, Forall_forall. done. Qed.

Lemma str_of_int_clean i : key_clean (str_of_int i) = true.
Proof.
  unfold str_of_int. induction (Nat.to_uint i); simpl; by rewrite ?IHu.
Qed.

Lemma slugify_key_clean U s : key_clean (slugify_key U s) = true.
Proof.
  assert (forall l : list N,
            (forall c, c ∈ l -> clean_char c = true) ->
            forall c, c ∈ strip is_dot l -> clean_char c = true) as Hstrip.
  { intros l Hl c Hc%elem_of_strip. auto. }
  unfold slugify_key.
  set (key0 := strip is_dot (slug_loop U false (normalized U s))).
  assert (forall c, c ∈ key0 -> clean_char c = true) as H0.
  { apply Hstrip. intros c [->|[Hc _]]%elem_of_slug_loop; [done|].
    by apply clean_char_alnum in Hc. }
  set (key := if decide (key0 = []) then lit "text" else key0).
  assert (forall c, c ∈ key -> clean_char c = true) as H1.
  { unfold key. destruct (decide (key0 = [])); [|done].
    intros c Hc. assert (key_clean (lit "text") = true) as Ht by reflexivity.
    rewrite key_clean_Forall, Forall_forall in Ht. auto. }
  apply key_clean_elem. destruct (decide (60 < length key)); [|done].
  apply Hstrip. intros c Hc. apply H1. by apply (subseteq_take 60).
Qed.

Lemma generate_unique_key_clean base keys key ks :
  key_clean base = true ->
  generate_unique_key base keys = Some (key, ks) -> key_clean key = true.
Proof.
  intros Hb (_ & _ & [[_ ->]|[_ (j & _ & -> & _)]])%unique_key_loop_Some; [done|].
  unfold suffixed, key_clean. rewrite forallb_app. cbn [forallb].
  fold (key_clean base) (key_clean (str_of_int j)).
  by rewrite Hb, str_of_int_clean.
Qed.

Section Idempotence.
Variable U : ucd.

Lemma scan_None_match s :
  scan_text_call U s = None -> Re.match_ (TEXT_CALL_RE U) s = None.
Proof. intros H. by rewrite text_call_scan, H. Qed.

Lemma process_swift_other l b st :
  forallb (fun c => negb (N.eqb c c_T)) l = true ->
  process_swift U (l ++ b) st = then_emit l (process_swift U b st).
Proof.
  induction l as [|c l IH]; simpl.
  - intros _. by destruct (process_swift U b st) as [[]|].
  - intros [Hc Hl]%andb_prop. rewrite process_swift_plain.
    + rewrite IH by done. by rewrite then_emit_app.
    + apply scan_None_match. unfold scan_text_call.
      change (lit "Text(") with (c_T :: lit "ext("). cbn [strip_prefix].
      by destruct (N.eqb c c_T).
Qed.

Lemma process_swift_clean key x st :
  key_clean key = true ->
  process_swift U (key ++ c_dq :: x) st
  = then_emit key (process_swift U (c_dq :: x) st).
Proof.
  induction key as [|c key IH].
  - intros _. simpl. by destruct (process_swift U _ st) as [[]|].
  - intros Hk. pose proof Hk as [Hc Hk']%andb_prop.
    change ((c :: key) ++ c_dq :: x) with (c :: key ++ c_dq :: x).
    rewrite process_swift_plain.
    + rewrite IH by done. by rewrite then_emit_app.
    + apply scan_None_match. unfold scan_text_call.
      change (c :: key ++ c_dq :: x) with ((c :: key) ++ c_dq :: x).
      by rewrite (clean_no_call (c :: key) x Hk).
Qed.

(** The scan walks through a rewritten call without finding a call. *)
Lemma process_swift_localized key b st :
  key_clean key = true ->
  process_swift U (localized_call key ++ b) st
  = then_emit (localized_call key) (process_swift U b st).
Proof.
  intros Hk.
  transitivity (process_swift U
    (c_T :: [101; 120; 116; 40; 34]%N ++ key
       ++ (c_dq :: lit ".localized)") ++ b) st).
  { by rewrite localized_call_eq. }
  rewrite process_swift_plain; cycle 1.
  { apply scan_None_match.
    change (c_T :: [101; 120; 116; 40; 34]%N ++ key
              ++ (c_dq :: lit ".localized)") ++ b)
      with (c_T :: [101; 120; 116; 40; 34]%N ++ key
              ++ c_dq :: lit ".localized)" ++ b).
    rewrite <- localized_call_eq. by apply localized_call_not_call. }
  rewrite (process_swift_other [101; 120; 116; 40; 34]%N) by reflexivity.
  change (key ++ (c_dq :: lit ".localized)") ++ b)
    with (key ++ c_dq :: (lit ".localized)" ++ b)).
  rewrite process_swift_clean by done.
  change (c_dq :: lit ".localized)" ++ b)
    with ((c_dq :: lit ".localized)") ++ b).
  rewrite (process_swift_other (c_dq :: lit ".localized)") b) by reflexivity.
  rewrite !then_emit_app. f_equal.
Qed.

Lemma rewritten_app l a b : rewritten a b -> rewritten (l ++ a) (l ++ b).
Proof. intros H. induction l; simpl; [done|by constructor]. Qed.

Lemma repl_outcome m st new st' :
  keys_clean (val_to_key st) ->
  repl U m st = Ok (new, st') ->
  val_to_key st' = val_to_key st /\
  ((new = Re.group0 m /\
    exists literal, unescape U (Re.group_ 1 m) = Ok literal /\
                    should_skip_literal literal = true) \/
   (exists key, new = localized_call key /\ key_clean key = true)).
Proof.
  intros Hclean. unfold repl, mbind, M_bind, lift, val_to_key_get.
  destruct (unescape U (Re.group_ 1 m)) as [literal|] eqn:Hlit; [|done].
  destruct (should_skip_literal literal) eqn:Hskip.
  { intros [= <- <-]. split; [done|]. left. eauto. }
  unfold call_generate_unique_key, existing_keys_add, additions_setdefault.
  destruct (val_to_key st !! literal) as [[|c k]|] eqn:Hv.
  2:{ intros [= <- <-]. split; [done|]. right. eauto. }
  all: destruct (generate_unique_key _ _) as [[key ks]|] eqn:Hg; [|done];
    intros [= <- <-]; (split; [done|]); right; exists key; (split; [done|]);
    eapply generate_unique_key_clean; [apply slugify_key_clean|done].
Qed.

Lemma second_pass n src st out st1 :
  length src <= n ->
  keys_clean (val_to_key st) ->
  process_swift U src st = Ok (out, st1) ->
  rewritten src out /\ forall st2, process_swift U out st2 = Ok (out, st2).
Proof.
  revert src st out st1. induction n as [|n IH]; intros src st out st1 Hn Hclean.
  { destruct src; [|simpl in Hn; lia]. intros [= <- <-]. split; [constructor|done]. }
  destruct src as [|c s].
  { intros [= <- <-]. split; [constructor|done]. }
  destruct (Re.match_ (TEXT_CALL_RE U) (c :: s)) as [m|] eqn:Hm.
  - rewrite (process_swift_call _ _ _ _ Hm).
    destruct (repl U m st) as [[new st']|] eqn:Hrepl; [|done].
    destruct (process_swift U (Re.m_rest m) st') as [[out' st1']|] eqn:Hrest;
      [|done].
    intros [= <- <-].
    destruct (match_text_call _ _ _ Hm) as (Hscan & Hne & Hs).
    destruct (repl_outcome _ _ _ _ Hclean Hrepl) as [Hv Hcase].
    assert (length (Re.m_rest m) <= n) as Hlen.
    { apply (f_equal length) in Hs. rewrite length_app in Hs.
      destruct (Re.group0 m); [done|]. simpl in Hs, Hn. lia. }
    assert (keys_clean (val_to_key st')) as Hclean' by (by rewrite Hv).
    destruct (IH _ _ _ _ Hlen Hclean' Hrest) as [Hrw Hidem].
    pose proof Hscan as (w1 & w2 & Hshape & Hw1 & Hw2 & Hraw & Hbody & Hl)%scan_text_call_Some.
    assert (Re.group0 m = call_text w1 (Re.group_ 1 m) w2) as Hg0.
    { rewrite Hs in Hshape. by apply app_inv_tail in Hshape. }
    destruct Hcase as [[-> (literal & Hlit & Hskip)]|(key & -> & Hk)].
    + rewrite Hs at 1. split; [by apply rewritten_app|]. intros st2.
      assert (scan_text_call U (Re.group0 m ++ out')
              = Some (Re.group_ 1 m, out')) as Hscan'.
      { apply scan_text_call_Some. exists w1, w2. rewrite Hg0.
        repeat (split; [done|]).
        by rewrite <- (rewritten_localized_follows _ _ _ Hrw). }
      assert (Re.match_ (TEXT_CALL_RE U) (Re.group0 m ++ out')
              = Some (Re.Match (Re.group0 m) [(1, Re.group_ 1 m)] out')) as Hm'.
      { by rewrite text_call_scan, Hscan', take_matched. }
      rewrite (process_swift_call _ _ _ _ Hm').
      unfold repl at 1, mbind, M_bind, lift. simpl Re.group_. simpl Re.m_rest.
      change (Re.group_ 1 (Re.Match (Re.group0 m) [(1, Re.group_ 1 m)] out'))
        with (Re.group_ 1 m).
      rewrite Hlit, Hskip. simpl. by rewrite Hidem.
    + split.
      * assert (c :: s
                = c_T :: (lit "ext(" ++ w1 ++ c_dq :: Re.group_ 1 m
                            ++ c_dq :: w2 ++ [c_rp]) ++ Re.m_rest m) as ->.
        { rewrite Hs, Hg0. reflexivity. }
        by constructor.
      * intros st2. rewrite process_swift_localized by done.
        by rewrite Hidem.
  - rewrite (process_swift_plain _ _ _ _ Hm).
    destruct (process_swift U s st) as [[out' st1']|] eqn:Hrest; [|done].
    intros [= <- <-].
    assert (length s <= n) as Hlen by (simpl in Hn; lia).
    destruct (IH _ _ _ _ Hlen Hclean Hrest) as [Hrw Hidem].
    split; [by constructor|]. intros st2.
    rewrite process_swift_plain; [by rewrite Hidem|].
    rewrite text_call_scan.
    destruct (scan_text_call U (c :: out')) as [[raw rb]|] eqn:E; [|done].
    destruct (rewritten_scan_text_call U (c :: s) (c :: out') raw rb)
      as (ra & Hra & _); [by constructor|done|].
    by rewrite text_call_scan, Hra in Hm.
Qed.

(** C2, as the code has it: when no key of the reuse map holds a quote, a
    backslash or a parenthesis, running the engine on the output of a first
    run gives that output back and changes nothing in the store, whatever
    store the second run starts from (so also the first run's store with
    its additions folded into the table and the reuse map). *)
Theorem process_swift_idempotent src st out st1 :
  keys_clean (val_to_key st) ->
  process_swift U src st = Ok (out, st1) ->
  forall st2, process_swift U out st2 = Ok (out, st2).
Proof. intros Hclean Hrun. by eapply second_pass. Qed.
End Idempotence.

(** ** What the slugifier keeps *)

Lemma filter_lstrip (f p : N -> bool) s :
  (forall c, p c = true -> f c = false) ->
  List.filter f (lstrip p s) = List.filter f s.
Proof.
  intros Hp. induction s as [|c s IH]; simpl; [done|].
  destruct (p c) eqn:Hc; [|done]. by rewrite (Hp c Hc).
Qed.

Lemma filter_rstrip (f p : N -> bool) s :
  (forall c, p c = true -> f c = false) ->
  List.filter f (rstrip p s) = List.filter f s.
Proof.
  intros Hp. induction s as [|c s IH]; simpl; [done|].
  destruct (rstrip p s) as [|d r] eqn:E.
  - rewrite <- IH. destruct (p c) eqn:Hc; simpl; [by rewrite (Hp c Hc)|].
    by destruct (f c).
  - simpl in *. by rewrite IH.
Qed.

Section Kept.
Variable U : ucd.

Lemma filter_slug_loop b s :
  List.filter (isalnum U) (slug_loop U b s) = List.filter (isalnum U) s.
Proof.
  revert b. induction s as [|c s IH]; intros b; simpl; [done|].
  destruct (isalnum U c) eqn:Hc; simpl.
  - by rewrite Hc, IH.
  - destruct b; simpl; by rewrite IH.
Qed.

Lemma is_dot_not_alnum c : is_dot c = true -> isalnum U c = false.
Proof. unfold is_dot. by intros ->%N.eqb_eq. Qed.

(** The loop on runs of code points. *)
Lemma slug_loop_word b a rest :
  a ≠ [] -> Forall (fun c => isalnum U c = true) a ->
  slug_loop U b (a ++ rest) = a ++ slug_loop U false rest.
Proof.
  intros Hne Ha. revert b Hne. induction Ha as [|c a Hc Ha IH]; intros b Hne; [done|].
  simpl. rewrite Hc. f_equal. destruct a as [|d a]; [done|]. by apply IH.
Qed.

Lemma slug_loop_sep_true w rest :
  Forall (fun c => isalnum U c = false) w ->
  slug_loop U true (w ++ rest) = slug_loop U true rest.
Proof. induction 1 as [|c w Hc _ IH]; [done|]. simpl. by rewrite Hc. Qed.

Lemma slug_loop_sep_false w rest :
  w ≠ [] -> Forall (fun c => isalnum U c = false) w ->
  slug_loop U false (w ++ rest) = c_dot :: slug_loop U true rest.
Proof.
  intros Hne Hw. destruct Hw as [|c w Hc Hw]; [done|].
  simpl. rewrite Hc. f_equal. by apply slug_loop_sep_true.
Qed.

Lemma runs_of_tail t w0 r runs :
  runs_of U t w0 (r :: runs) ->
  runs_of U (flat_map (fun r => fst r ++ snd r) runs) [] runs.
Proof.
  intros (_ & _ & Hok & Hsep). split; [done|]. split; [constructor|].
  split; [by inversion Hok|]. intros r1 x r2 ->. by apply (Hsep (r :: r1)).
Qed.

Lemma join_dots_cons a words :
  words ≠ [] -> join_dots (a :: words) = a ++ c_dot :: join_dots words.
Proof. by destruct words. Qed.

(** The loop on a text that begins with a word: the words with one dot
    between them, and one dot at the end when the text does not end with
    a word. *)
Lemma slug_loop_runs b runs :
  runs ≠ [] ->
  runs_of U (flat_map (fun r => fst r ++ snd r) runs) [] runs ->
  exists tail, (tail = [] \/ tail = [c_dot]) /\
    slug_loop U b (flat_map (fun r => fst r ++ snd r) runs)
    = join_dots (map fst runs) ++ tail.
Proof.
  revert b. induction runs as [|[a w] runs IH]; intros b Hne Hruns; [done|].
  pose proof Hruns as (_ & _ & Hok & Hsep).
  apply Forall_cons in Hok as [(Ha & Haa & Hw) Hok]. simpl in Ha, Haa, Hw.
  cbn [flat_map fst snd map]. rewrite <- app_assoc, slug_loop_word by done.
  destruct runs as [|r runs].
  - cbn [flat_map join_dots map]. rewrite app_nil_r. destruct w as [|c w].
    + exists []. split; [by left|]. reflexivity.
    + exists [c_dot]. split; [by right|].
      rewrite <- (app_nil_r (c :: w)), slug_loop_sep_false by done. done.
  - assert (w ≠ []) as Hwne by (by apply (Hsep [] (a, w) (r :: runs))).
    rewrite slug_loop_sep_false by done.
    destruct (IH true) as (tail & Htail & ->); [done|by eapply runs_of_tail|].
    exists tail. split; [done|].
    rewrite (join_dots_cons a) by done. by rewrite <- app_assoc.
Qed.

(** The words joined: not empty, and with a letter or digit at both ends. *)
Lemma join_dots_ends runs :
  runs ≠ [] ->
  Forall (fun r => fst r ≠ [] /\ Forall (fun c => isalnum U c = true) (fst r) /\
                   Forall (fun c => isalnum U c = false) (snd r)) runs ->
  (exists c, head (join_dots (map fst runs)) = Some c /\ isalnum U c = true) /\
  (exists c, last (join_dots (map fst runs)) = Some c /\ isalnum U c = true).
Proof.
  intros Hne Hok. induction Hok as [|[a w] runs (Ha & Haa & _) Hok IH]; [done|].
  simpl in Ha, Haa. cbn [map fst]. destruct runs as [|r runs].
  - simpl. split.
    + destruct a as [|c a]; [done|]. exists c. split; [done|]. by inversion Haa.
    + destruct (last a) as [c|] eqn:E; [|by apply last_None in E].
      exists c. split; [done|]. rewrite Forall_forall in Haa.
      by apply Haa, last_Some_elem_of.
  - destruct IH as [_ (c & Hc & Hcc)]; [done|].
    rewrite (join_dots_cons a) by done. split.
    + destruct a as [|d a]; [done|]. exists d. split; [done|]. by inversion Haa.
    + exists c. split; [|done]. rewrite last_app. cbn [last].
      change (last (c_dot :: ?l)) with (match l with [] => Some c_dot | _ => last l end).
      destruct (join_dots _); [done|]. by rewrite Hc.
Qed.

Lemma rstrip_snoc p l d : p d = true -> rstrip p (l ++ [d]) = rstrip p l.
Proof.
  intros Hd. induction l as [|c l IH]; simpl; [by rewrite Hd|]. by rewrite IH.
Qed.

(** The key before the fallback and the cut: the words of the text, joined
    with dots. *)
Lemma slug_words t w0 runs :
  runs_of U t w0 runs ->
  strip is_dot (slug_loop U false t) = join_dots (map fst runs).
Proof.
  intros Hruns. pose proof Hruns as (-> & Hw0 & Hok & Hsep).
  destruct runs as [|r runs].
  { simpl. rewrite app_nil_r. unfold strip.
    by rewrite (lstrip_all is_dot) by (by apply slug_loop_dots). }
  set (J := join_dots (map fst (r :: runs))).
  destruct (join_dots_ends (r :: runs)) as [(c & Hhead & Hc) (d & Hlast & Hd)];
    [done|done|]. fold J in Hhead, Hlast.
  assert (forall x, isalnum U x = true -> is_dot x = false) as Hnd.
  { intros x Hx. destruct (is_dot x) eqn:E; [|done].
    apply is_dot_not_alnum in E. congruence. }
  unfold strip.
  assert (exists tail, (tail = [] \/ tail = [c_dot]) /\
            lstrip is_dot
              (slug_loop U false (w0 ++ flat_map (fun r => fst r ++ snd r) (r :: runs)))
            = J ++ tail) as (tail & Htail & ->).
  { assert (runs_of U (flat_map (fun r => fst r ++ snd r) (r :: runs)) [] (r :: runs))
      as Hruns'.
    { split; [done|]. split; [constructor|]. done. }
    assert (forall tail, lstrip is_dot (J ++ tail) = J ++ tail) as Hl.
    { intros tail. apply lstrip_id. intros y Hy.
      destruct J as [|j J']; [done|]. simpl in Hy, Hhead. apply Hnd. congruence. }
    destruct w0 as [|x w0].
    - destruct (slug_loop_runs false (r :: runs)) as (tail & Htail & E);
        [done|done|].
      exists tail. split; [done|]. rewrite app_nil_l, E. apply Hl.
    - rewrite slug_loop_sep_false by done.
      destruct (slug_loop_runs true (r :: runs)) as (tail & Htail & E);
        [done|done|].
      exists tail. split; [done|]. rewrite E. cbn [lstrip].
      change (is_dot c_dot) with true. cbv iota. apply Hl. }
  assert (rstrip is_dot J = J) as HJ.
  { apply rstrip_id. intros y Hy. apply Hnd. congruence. }
  destruct Htail as [->| ->]; [by rewrite app_nil_r|].
  by rewrite rstrip_snoc.
Qed.

(** Every text is cut into runs. *)
Lemma runs_of_exists t : exists w0 runs, runs_of U t w0 runs.
Proof.
  induction t as [|c t (w0 & runs & -> & Hw0 & Hok & Hsep)].
  { exists [], []. split; [done|]. split; [constructor|]. split; [constructor|].
    by intros [|? ?] ? ? ?. }
  destruct (isalnum U c) eqn:Hc; cycle 1.
  { exists (c :: w0), runs. split; [done|]. split; [by constructor|]. done. }
  destruct w0 as [|x w0].
  - destruct runs as [|[a w] runs].
    + exists [], [([c], [])]. split; [done|]. split; [constructor|].
      split; [repeat constructor; done|].
      intros [|? [|? ?]] r r2 [= ]; done.
    + exists [], ((c :: a, w) :: runs). split; [done|]. split; [constructor|].
      apply Forall_cons in Hok as [(Ha & Haa & Hw) Hok]. split.
      * constructor; [|done]. split; [done|]. split; [by constructor|done].
      * intros [|r0 r1] r r2; simpl.
        -- intros [= <- <-] Hr2. by apply (Hsep [] (a, w) runs).
        -- intros [= <- ->] Hr2. by apply (Hsep ((a, w) :: r1) r r2).
  - exists [], (([c], x :: w0) :: runs). split; [done|]. split; [constructor|].
    split.
    + constructor; [|done]. split; [done|]. split; [by repeat constructor|done].
    + intros [|r0 r1] r r2; simpl.
      * by intros [= <- <-] _.
      * intros [= <- ->] Hr2. by apply (Hsep r1 r r2).
Qed.

(** C9, as the code has it: the test is [str.isalnum], not membership in
    ASCII.  A text whose normalized form has no alphanumeric code point
    gives the fallback key; every code point of a key is a dot or an
    alphanumeric code point of the normalized text (or the key is the
    fallback); before the cut at 60 the key holds all the alphanumeric
    code points of the normalized text, in order.  And the separators:
    the normalized text is cut, in one way at least, into runs of
    alphanumeric code points (words) and runs of other code points; the
    key before the cut is the words with one dot between two of them, the
    runs before the first word and after the last one leaving nothing. *)
Theorem slugify_key_keeps_alnum s :
  (Forall (fun c => isalnum U c = false) (normalized U s) ->
   slugify_key U s = lit "text") /\
  (forall c, c ∈ slugify_key U s ->
     slugify_key U s = lit "text" \/ c = c_dot \/
     (isalnum U c = true /\ c ∈ normalized U s)) /\
  List.filter (isalnum U) (strip is_dot (slug_loop U false (normalized U s)))
  = List.filter (isalnum U) (normalized U s) /\
  (exists w0 runs, runs_of U (normalized U s) w0 runs) /\
  (forall w0 runs, runs_of U (normalized U s) w0 runs ->
     strip is_dot (slug_loop U false (normalized U s)) = join_dots (map fst runs) /\
     slugify_key U s
     = let key := if decide (runs = []) then lit "text"
                  else join_dots (map fst runs) in
       if decide (60 < length key) then strip is_dot (take 60 key) else key).
Proof.
  split; [|split; [|split; [|split]]].
  - intros H. unfold slugify_key, strip.
    rewrite (lstrip_all is_dot) by (by apply slug_loop_dots). reflexivity.
  - intros c. unfold slugify_key.
    set (key0 := strip is_dot (slug_loop U false (normalized U s))).
    destruct (decide (key0 = [])) as [E|E].
    { intros _. left. reflexivity. }
    assert (forall c, c ∈ key0 -> c = c_dot \/ isalnum U c = true /\ c ∈ normalized U s) as H0.
    { intros d Hd%elem_of_strip. by apply elem_of_slug_loop in Hd. }
    destruct (decide (60 < length key0)); intros Hc; right.
    + apply H0. apply elem_of_strip in Hc. by apply (subseteq_take 60).
    + by apply H0.
  - unfold strip.
    rewrite filter_rstrip, filter_lstrip by apply is_dot_not_alnum.
    apply filter_slug_loop.
  - apply runs_of_exists.
  - intros w0 runs Hruns. pose proof (slug_words _ _ _ Hruns) as E.
    split; [done|]. unfold slugify_key. rewrite E.
    destruct runs as [|r runs]; [done|].
    destruct (join_dots_ends (r :: runs)) as [(c & Hhead & _) _];
      [done|by destruct Hruns as (_ & _ & ? & _)|].
    destruct (decide (join_dots (map fst (r :: runs)) = [])) as [E0|_];
      [by rewrite E0 in Hhead|].
    destruct (decide (r :: runs = [])); [done|reflexivity].
Qed.
End Kept.


(** Against C9 as stated: a Cyrillic word has no ASCII letter or digit,
    before or after decomposition, and is its own key. *)
Lemma cyrillic_word_is_kept :
  let s := [1084; 1080; 1088]%N in
  forallb (fun c => negb (ascii_isalnum c)) (nfkd cpython_excerpt s) = true /\
  slugify_key cpython_excerpt s = s /\
  slugify_key cpython_excerpt s ≠ lit "text".
Proof. split; [reflexivity|]. split; [reflexivity|]. by vm_compute. Qed.

(** ** The table store *)

Lemma str_leb_total a b : str_leb a b = true \/ str_leb b a = true.
Proof.
  revert b. induction a as [|x a IH]; intros [|y b]; simpl; auto.
  destruct (N.ltb_spec x y), (N.ltb_spec y x); auto; try lia.
  assert (x = y) as -> by lia. rewrite N.eqb_refl. apply IH.
Qed.

(** [str_le] is the lexicographic order on code points. *)
Lemma str_le_lexicographic a b :
  str_le a b <->
  (exists t, b = a ++ t) \/
  (exists p x y ta tb, a = p ++ x :: ta /\ b = p ++ y :: tb /\ (x < y)%N).
Proof.
  unfold str_le. revert b. induction a as [|x a IH]; intros b; simpl.
  { split; [|done]. intros _. left. by exists b. }
  destruct b as [|y b].
  { split; [done|]. intros [[t Ht]|(p & x' & y' & ta & tb & _ & Hb & _)].
    - discriminate Ht.
    - by destruct p. }
  destruct (N.ltb_spec x y) as [Hlt|Hge].
  { split; [|done]. intros _. right. by exists [], x, y, a, b. }
  destruct (N.eqb_spec x y) as [->|Hne].
  - rewrite IH. split.
    + intros [[t ->]|(p & x' & y' & ta & tb & -> & -> & Hxy)].
      * left. by exists t.
      * right. by exists (y :: p), x', y', ta, tb.
    + intros [[t [= ->]]|(p & x' & y' & ta & tb & Ha & Hb & Hxy)].
      * left. by exists t.
      * destruct p as [|c p]; simpl in Ha, Hb.
        { injection Ha as -> _. injection Hb as -> _. lia. }
        injection Ha as _ ->. injection Hb as _ ->.
        right. by exists p, x', y', ta, tb.
  - split; [done|]. intros [[t [= -> _]]|(p & x' & y' & ta & tb & Ha & Hb & Hxy)].
    + done.
    + destruct p as [|c p]; simpl in Ha, Hb.
      * injection Ha as -> _. injection Hb as -> _. lia.
      * injection Ha as -> _. injection Hb as -> _. done.
Qed.

Lemma str_le_total : Total str_le.
Proof. intros a b. apply str_leb_total. Qed.

Lemma sorted_keys_spec (d : gmap (list N) (list N)) :
  Sorted str_le (sorted_keys d) /\ NoDup (sorted_keys d) /\
  forall k, k ∈ sorted_keys d <-> is_Some (d !! k).
Proof.
  unfold sorted_keys. split; [apply (@Sorted_merge_sort _ _ _ str_le_total)|].
  split.
  - rewrite merge_sort_Permutation. apply NoDup_fst_map_to_list.
  - intros k. rewrite merge_sort_Permutation.
    rewrite list_elem_of_fmap. split.
    + intros ([k' v] & -> & H%elem_of_map_to_list). eauto.
    + intros [v H]. exists (k, v). split; [done|]. by apply elem_of_map_to_list.
Qed.

Lemma escape_for_strings_spec s :
  escape_for_strings s =
  flat_map (fun c => if N.eqb c c_bs then [c_bs; c_bs]
                     else if N.eqb c c_dq then [c_bs; c_dq] else [c]) s.
Proof.
  unfold escape_for_strings, replace_char.
  induction s as [|c s IH]; simpl; [done|].
  rewrite flat_map_app, IH. f_equal.
  destruct (N.eqb c c_bs) eqn:Hbs; simpl; [done|].
  destruct (N.eqb c c_dq) eqn:Hdq; simpl; done.
Qed.

(** ** UTF-8 encoding *)

Lemma utf8_char_spec c :
  if encodable c
  then exists bs, utf8_char c = Ok bs /\ bs ≠ [] /\
         (is_ascii c = true -> bs = [c]) /\
         (is_ascii c = false -> 2 <= length bs /\ Forall (fun b => (128 <= b)%N) bs)
  else utf8_char c = Raise UnicodeEncodeError.
Proof.
  unfold encodable, utf8_char, is_ascii, between.
  destruct (N.ltb_spec c 128).
  { replace (N.leb 55296 c) with false by (symmetry; apply N.leb_gt; lia).
    replace (N.leb c 1114111) with true by (symmetry; apply N.leb_le; lia).
    simpl. eexists. split; [done|]. split; [done|]. split; [done|done]. }
  destruct (N.ltb_spec c 2048).
  { replace (N.leb 55296 c) with false by (symmetry; apply N.leb_gt; lia).
    replace (N.leb c 1114111) with true by (symmetry; apply N.leb_le; lia).
    simpl. eexists. split; [done|]. split; [done|]. split; [done|].
    intros _. split; [simpl; lia|]. repeat (constructor; [by (etrans; [|apply N.le_add_r])|]). constructor. }
  destruct (N.leb 55296 c && N.leb c 57343) eqn:Hs; simpl; [done|].
  destruct (N.ltb_spec c 65536).
  { replace (N.leb c 1114111) with true by (symmetry; apply N.leb_le; lia).
    eexists. split; [done|]. split; [done|]. split; [done|].
    intros _. split; [simpl; lia|]. repeat (constructor; [by (etrans; [|apply N.le_add_r])|]). constructor. }
  destruct (N.leb c 1114111); [|done].
  eexists. split; [done|]. split; [done|]. split; [done|].
  intros _. split; [simpl; lia|]. repeat (constructor; [by (etrans; [|apply N.le_add_r])|]). constructor.
Qed.

Lemma utf8_encode_app a b :
  utf8_encode (a ++ b) = x ← utf8_encode a; y ← utf8_encode b; Ok (x ++ y).
Proof.
  induction a as [|c a IH]; simpl.
  - by destruct (utf8_encode b).
  - destruct (utf8_char c) as [bs|]; [|done]. simpl. rewrite IH.
    destruct (utf8_encode a); [|done]. simpl.
    destruct (utf8_encode b); [|done]. simpl. by rewrite app_assoc.
Qed.

Lemma utf8_encode_ascii s : forallb is_ascii s = true -> utf8_encode s = Ok s.
Proof.
  induction s as [|c s IH]; simpl; [done|].
  intros [Hc Hs]%andb_prop. rewrite IH by done.
  unfold utf8_char. unfold is_ascii in Hc. by rewrite Hc.
Qed.

Lemma utf8_encode_Ok s :
  forallb encodable s = true ->
  exists bs, utf8_encode s = Ok bs /\ length s <= length bs /\
    (forallb is_ascii s = false -> length s < length bs) /\
    (forall b, b ∈ bs -> b ∈ s \/ (128 <= b)%N).
Proof.
  induction s as [|c s IH]; simpl.
  { intros _. exists []. split; [done|]. split; [done|]. split; [done|].
    by intros b ?%elem_of_nil. }
  intros [Hc Hs]%andb_prop. destruct (IH Hs) as (bs & -> & Hlen & Hstrict & Hin).
  pose proof (utf8_char_spec c) as H. rewrite Hc in H.
  destruct H as (b & -> & Hne & Hascii & Hnon). simpl.
  eexists. split; [done|]. rewrite length_app.
  destruct (is_ascii c) eqn:Ha; simpl.
  - rewrite (Hascii eq_refl). simpl. split; [lia|]. split; [intros; apply Hstrict in H; lia|].
    intros x [->|Hx]%elem_of_cons; [left; left|].
    destruct (Hin x Hx); [left; by right|by right].
  - destruct (Hnon eq_refl) as [Hl Hb]. split; [lia|]. split; [lia|].
    intros x [Hx|Hx]%elem_of_app.
    + right. by eapply Forall_forall in Hb.
    + destruct (Hin x Hx); [left; by right|by right].
Qed.

Lemma utf8_encode_Raise s e :
  utf8_encode s = Raise e -> e = UnicodeEncodeError /\ forallb encodable s = false.
Proof.
  induction s as [|c s IH]; simpl; [done|].
  pose proof (utf8_char_spec c) as H.
  destruct (encodable c) eqn:Hc; simpl.
  - destruct H as (b & -> & _). simpl.
    destruct (utf8_encode s) as [bs|e'] eqn:E; simpl; [done|].
    intros [= <-]. by apply IH.
  - rewrite H. simpl. by intros [= <-].
Qed.

Lemma utf8_encode_Ok_inv s bs :
  utf8_encode s = Ok bs -> forallb encodable s = true.
Proof.
  revert bs. induction s as [|c s IH]; intros bs; simpl; [done|].
  pose proof (utf8_char_spec c) as H. destruct (encodable c); simpl.
  - destruct H as (b & -> & _). simpl.
    destruct (utf8_encode s) eqn:E; simpl; [|done]. intros _. by eapply IH.
  - by rewrite H.
Qed.

(** ** Writing the table *)

Lemma utf8_encode_Ok_iff s :
  (exists bs, utf8_encode s = Ok bs) <-> forallb encodable s = true.
Proof.
  split.
  - intros [bs H]. by eapply utf8_encode_Ok_inv.
  - intros H. destruct (utf8_encode_Ok s H) as (bs & ? & _). eauto.
Qed.

Lemma utf8_encode_Raise_iff s e :
  utf8_encode s = Raise e <-> e = UnicodeEncodeError /\ forallb encodable s = false.
Proof.
  split; [apply utf8_encode_Raise|]. intros [-> H].
  destruct (utf8_encode s) as [bs|e] eqn:E.
  - apply utf8_encode_Ok_inv in E. congruence.
  - by apply utf8_encode_Raise in E as [-> _].
Qed.

Lemma forallb_encodable_escape s :
  forallb encodable (escape_for_strings s) = forallb encodable s.
Proof.
  rewrite escape_for_strings_spec.
  induction s as [|c s IH]; [done|]. cbn [flat_map forallb].
  rewrite forallb_app, IH. f_equal.
  destruct (N.eqb_spec c c_bs) as [->|_]; [done|].
  destruct (N.eqb_spec c c_dq) as [->|_]; [done|].
  simpl. by rewrite andb_true_r.
Qed.

(** A line can be encoded when its key and its value can. *)
Lemma strings_line_encodable k v :
  forallb encodable (strings_line k v)
  = forallb encodable k && forallb encodable v.
Proof.
  unfold strings_line. change (lit " = ") with [32; 61; 32]%N.
  change (lit ";") with [59]%N. cbn [forallb app].
  rewrite forallb_app. cbn [forallb app]. rewrite forallb_app.
  rewrite !forallb_encodable_escape.
  change (encodable c_dq) with true. change (encodable 32) with true.
  change (encodable 61) with true. change (encodable 59) with true.
  change (encodable c_nl) with true. cbn [andb forallb].
  by rewrite andb_true_r.
Qed.

Lemma write_lines_Ok additions ks w :
  Forall (fun k => forallb encodable
                     (strings_line k (default [] (additions !! k))) = true) ks ->
  write_lines additions ks w
  = (w ++ flat_map (fun k => strings_line k (default [] (additions !! k))) ks,
     Ok tt).
Proof.
  intros H. revert w. induction H as [|k ks Hk _ IH]; intros w;
    cbn [write_lines flat_map].
  { by rewrite app_nil_r. }
  apply utf8_encode_Ok_iff in Hk as [bs ->]. by rewrite IH, <- app_assoc.
Qed.

Lemma write_lines_Raise additions ks1 k ks2 w :
  Forall (fun k => forallb encodable
                     (strings_line k (default [] (additions !! k))) = true) ks1 ->
  forallb encodable (strings_line k (default [] (additions !! k))) = false ->
  write_lines additions (ks1 ++ k :: ks2) w
  = (w ++ flat_map (fun k => strings_line k (default [] (additions !! k))) ks1,
     Raise UnicodeEncodeError).
Proof.
  intros H Hk. revert w. induction H as [|k' ks1 Hk' _ IH]; intros w;
    cbn [write_lines flat_map app].
  { rewrite app_nil_r.
    by rewrite (proj2 (utf8_encode_Raise_iff _ UnicodeEncodeError)). }
  apply utf8_encode_Ok_iff in Hk' as [bs ->]. by rewrite IH, <- app_assoc.
Qed.

(** What a finished loop has written. *)
Lemma write_lines_returned additions ks w text :
  write_lines additions ks w = (text, Ok tt) ->
  text = w ++ flat_map (fun k => strings_line k (default [] (additions !! k))) ks.
Proof.
  revert w. induction ks as [|k ks IH]; intros w; cbn [write_lines flat_map].
  { intros [= <-]. by rewrite app_nil_r. }
  destruct (utf8_encode _); [|done]. intros ->%IH. by rewrite <- app_assoc.
Qed.

(** C6, as the code has it: [write_strings] does nothing for empty
    additions and raises on a directory; otherwise the file at the path
    keeps its text and gets, after one newline when that text is not
    empty, one line per addition, the keys in the order of [sorted], as
    long as the lines can be encoded: at the first line that cannot, the
    call raises, and the file has the lines before that one.  A line is
    the escaped key and value between quotes around an equals sign, with a
    semicolon, and can be encoded when the key and the value can;
    escaping puts a backslash before each backslash and each quote; the
    order of the keys is the lexicographic one on code points. *)
Theorem write_strings_appends (fs : gmap string node) (path : string)
    (key_to_val additions : gmap (list N) (list N)) :
  let ks := sorted_keys additions in
  let line := fun k => strings_line k (default [] (additions !! k)) in
  let written := fun old ks' =>
    <[path := RegularFile
        (old ++ (if decide (old = []) then [] else [c_nl]) ++ flat_map line ks')]>
      fs in
  (additions = ∅ -> write_strings fs path key_to_val additions = (fs, Ok tt)) /\
  (additions ≠ ∅ -> fs !! path = Some Directory ->
   write_strings fs path key_to_val additions = (fs, Raise IsADirectoryError)) /\
  (Sorted str_le ks /\ NoDup ks /\
   (forall k, k ∈ ks <-> is_Some (additions !! k))) /\
  (additions ≠ ∅ ->
   forall old,
     fs !! path = Some (RegularFile old) \/ (fs !! path = None /\ old = []) ->
     (Forall (fun k => forallb encodable (line k) = true) ks ->
      write_strings fs path key_to_val additions = (written old ks, Ok tt)) /\
     (forall ks1 k ks2, ks = ks1 ++ k :: ks2 ->
        Forall (fun k => forallb encodable (line k) = true) ks1 ->
        forallb encodable (line k) = false ->
        write_strings fs path key_to_val additions
        = (written old ks1, Raise UnicodeEncodeError))) /\
  (forall k v,
     strings_line k v
     = swift "'" ++ escape_for_strings k ++ swift "' = '"
         ++ escape_for_strings v ++ swift "';" ++ [c_nl]) /\
  (forall k v,
     forallb encodable (strings_line k v)
     = forallb encodable k && forallb encodable v) /\
  (forall s,
     escape_for_strings s
     = flat_map (fun c => if N.eqb c c_bs then [c_bs; c_bs]
                          else if N.eqb c c_dq then [c_bs; c_dq] else [c]) s) /\
  (forall a b,
     str_le a b <->
     (exists t, b = a ++ t) \/
     (exists p x y ta tb, a = p ++ x :: ta /\ b = p ++ y :: tb /\ (x < y)%N)).
Proof.
  intros ks line written.
  split; [|split; [|split; [apply sorted_keys_spec|split;
    [|split; [|split; [apply strings_line_encodable|split;
       [apply escape_for_strings_spec|apply str_le_lexicographic]]]]]]].
  - intros ->. reflexivity.
  - intros Hne Hd. unfold write_strings. rewrite Hd.
    by destruct (decide (additions = ∅)).
  - intros Hne old Hold.
    assert (forall text r,
              write_lines additions ks
                (old ++ (if decide (old = []) then [] else [c_nl])) = (text, r) ->
              write_strings fs path key_to_val additions
              = (<[path := RegularFile text]> fs, r)) as Hw.
    { intros text r E. unfold write_strings.
      destruct (decide (additions = ∅)); [done|].
      destruct Hold as [->|[-> ->]].
      - destruct old; simpl in *; fold ks; by rewrite E.
      - simpl in *. fold ks. by rewrite E. }
    split.
    + intros Hall. rewrite (Hw _ _ (write_lines_Ok _ _ _ Hall)).
      unfold written. by rewrite app_assoc.
    + intros ks1 k ks2 Hks Hall Hk. rewrite Hks in Hw.
      rewrite (Hw _ _ (write_lines_Raise _ _ _ _ _ Hall Hk)).
      unfold written. by rewrite app_assoc.
  - intros k v. unfold strings_line. by simplify_list_eq.
Qed.

(** ** Reading the table *)

(** Lines of a text read from a file: a line without terminator inside,
    then the rest. *)
Lemma read_lines_line cur l rest :
  c_nl ∉ l -> c_cr ∉ l ->
  read_lines cur (l ++ c_nl :: rest) = (reverse cur ++ l ++ [c_nl]) :: read_lines [] rest.
Proof.
  revert cur. induction l as [|c l IH]; intros cur; simpl.
  - intros _ _. by rewrite reverse_cons.
  - intros [Hn Hl]%not_elem_of_cons [Hr Hl']%not_elem_of_cons.
    destruct (N.eqb_spec c c_nl); [done|]. destruct (N.eqb_spec c c_cr); [done|].
    rewrite IH by done. rewrite reverse_cons, <- app_assoc. done.
Qed.

Lemma read_lines_cons cur c s :
  read_lines cur (c :: s) =
  if N.eqb c c_nl then reverse (c_nl :: cur) :: read_lines [] s
  else if N.eqb c c_cr then
    match s with
    | d :: s'' =>
        if N.eqb d c_nl then reverse (c_nl :: cur) :: read_lines [] s''
        else reverse (c_nl :: cur) :: read_lines [] s
    | [] => [reverse (c_nl :: cur)]
    end
  else read_lines (c :: cur) s.
Proof. reflexivity. Qed.

Lemma read_lines_app_nl cur a b :
  read_lines cur (a ++ c_nl :: b) = read_lines cur (a ++ [c_nl]) ++ read_lines [] b.
Proof.
  revert cur. induction a as [a IH] using (induction_ltof1 _ (@length N)).
  unfold ltof in IH. intros cur. destruct a as [|c a]; [done|].
  rewrite <- !app_comm_cons, !read_lines_cons.
  destruct (N.eqb c c_nl); [by rewrite IH by (simpl; lia)|].
  destruct (N.eqb c c_cr); [|by apply IH; simpl; lia].
  destruct a as [|d a]; [done|].
  rewrite <- !app_comm_cons. destruct (N.eqb d c_nl).
  - by rewrite IH by (simpl; lia).
  - rewrite !app_comm_cons. by rewrite (IH (d :: a)) by (simpl; lia).
Qed.

Lemma read_lines_crlf cur l rest :
  one_line l ->
  read_lines cur (l ++ c_cr :: c_nl :: rest)
  = (reverse cur ++ l ++ [c_nl]) :: read_lines [] rest.
Proof.
  intros [Hn Hr]. revert cur. induction l as [|c l IH]; intros cur.
  - simpl. by rewrite reverse_cons.
  - apply not_elem_of_cons in Hn as [Hc Hn]. apply not_elem_of_cons in Hr as [Hc' Hr].
    rewrite <- app_comm_cons, read_lines_cons.
    destruct (N.eqb_spec c c_nl); [done|]. destruct (N.eqb_spec c c_cr); [done|].
    rewrite IH by done. by rewrite reverse_cons, <- app_assoc.
Qed.

Lemma read_lines_cr cur l rest :
  one_line l -> head rest ≠ Some c_nl ->
  read_lines cur (l ++ c_cr :: rest)
  = (reverse cur ++ l ++ [c_nl]) :: read_lines [] rest.
Proof.
  intros [Hn Hr] Hrest. revert cur. induction l as [|c l IH]; intros cur.
  - simpl. rewrite reverse_cons. destruct rest as [|d rest]; [done|].
    destruct (N.eqb_spec d c_nl) as [->|_]; [by destruct Hrest|done].
  - apply not_elem_of_cons in Hn as [Hc Hn]. apply not_elem_of_cons in Hr as [Hc' Hr].
    rewrite <- app_comm_cons, read_lines_cons.
    destruct (N.eqb_spec c c_nl); [done|]. destruct (N.eqb_spec c c_cr); [done|].
    rewrite IH by done. by rewrite reverse_cons, <- app_assoc.
Qed.

(** The last line of a file, when no terminator ends it. *)
Lemma read_lines_last cur l :
  one_line l -> cur ≠ [] \/ l ≠ [] ->
  read_lines cur l = [reverse cur ++ l].
Proof.
  intros [Hn Hr]. revert cur. induction l as [|c l IH]; intros cur Hne.
  - simpl. destruct cur; [by destruct Hne|]. by rewrite app_nil_r.
  - apply not_elem_of_cons in Hn as [Hc Hn]. apply not_elem_of_cons in Hr as [Hc' Hr].
    rewrite read_lines_cons.
    destruct (N.eqb_spec c c_nl); [done|]. destruct (N.eqb_spec c c_cr); [done|].
    rewrite IH by auto. by rewrite reverse_cons, <- app_assoc.
Qed.

Lemma read_lines_line_start pre x :
  line_start pre ->
  read_lines [] (pre ++ x) = read_lines [] pre ++ read_lines [] x.
Proof.
  intros [->|[pre' ->]]; [done|].
  rewrite <- app_assoc. apply read_lines_app_nl.
Qed.

Section StoreFacts.
Variable U : ucd.

Lemma parse_lines_app l1 l2 :
  parse_lines U (l1 ++ l2) = fold_left (parse_line U) l2 (parse_lines U l1).
Proof. unfold parse_lines. apply fold_left_app. Qed.

Lemma parse_line_None t line :
  Re.match_ (LOC_LINE_RE U) line = None -> parse_line U t line = t.
Proof. unfold parse_line. by intros ->. Qed.

Lemma parse_line_Some t line m :
  Re.match_ (LOC_LINE_RE U) line = Some m ->
  parse_line U t line
  = (<[Re.group_ 1 m := Re.group_ 2 m]> (fst t),
     setdefault (Re.group_ 2 m) (Re.group_ 1 m) (snd t)).
Proof. unfold parse_line. by intros ->. Qed.

Lemma fold_parse_key l t k :
  (forall line m, line ∈ l -> Re.match_ (LOC_LINE_RE U) line = Some m ->
                  Re.group_ 1 m ≠ k) ->
  fst (fold_left (parse_line U) l t) !! k = fst t !! k.
Proof.
  revert t. induction l as [|line l IH]; intros t Hl; simpl; [done|].
  rewrite IH by (intros; eapply Hl; [by right|done]).
  destruct (Re.match_ (LOC_LINE_RE U) line) as [m|] eqn:Hm.
  - rewrite (parse_line_Some _ _ _ Hm). simpl.
    apply lookup_insert_ne. eapply Hl; [left|done].
  - by rewrite parse_line_None.
Qed.

Lemma fold_parse_value_None l t v :
  (forall line m, line ∈ l -> Re.match_ (LOC_LINE_RE U) line = Some m ->
                  Re.group_ 2 m ≠ v) ->
  snd (fold_left (parse_line U) l t) !! v = snd t !! v.
Proof.
  revert t. induction l as [|line l IH]; intros t Hl; simpl; [done|].
  rewrite IH by (intros; eapply Hl; [by right|done]).
  destruct (Re.match_ (LOC_LINE_RE U) line) as [m|] eqn:Hm.
  - rewrite (parse_line_Some _ _ _ Hm). simpl. unfold setdefault.
    destruct (snd t !! Re.group_ 2 m); [done|].
    apply lookup_insert_ne. eapply Hl; [left|done].
  - by rewrite parse_line_None.
Qed.

Lemma fold_parse_value_kept l t v k :
  snd t !! v = Some k -> snd (fold_left (parse_line U) l t) !! v = Some k.
Proof.
  revert t. induction l as [|line l IH]; intros t Ht; simpl; [done|].
  apply IH. destruct (Re.match_ (LOC_LINE_RE U) line) as [m|] eqn:Hm.
  - rewrite (parse_line_Some _ _ _ Hm). simpl. unfold setdefault.
    destruct (snd t !! Re.group_ 2 m) eqn:E; [done|].
    rewrite lookup_insert_ne; [done|]. intros <-. congruence.
  - by rewrite parse_line_None.
Qed.

Lemma parse_file fs p text :
  fs !! p = Some (RegularFile text) ->
  parse_localizable U fs (Some p) = Ok (parse_lines U (read_lines [] text)).
Proof. intros H. unfold parse_localizable. by rewrite H. Qed.

(** The lines of a file around one of its lines. *)
Lemma read_lines_around pre l post :
  line_start pre -> one_line l ->
  read_lines [] (pre ++ l ++ c_nl :: post)
  = read_lines [] pre ++ (l ++ [c_nl]) :: read_lines [] post.
Proof.
  intros Hpre [Hn Hr]. rewrite read_lines_line_start by done.
  by rewrite read_lines_line.
Qed.

(** C7: no path or no file gives two empty maps; a file that can be read
    gives maps, never an exception.  For a file with a line [l] after the
    text [pre] and before the text [post]: when the line does not match
    the entry pattern (a comment, a blank line, an entry without its
    semicolon), the maps are those of the file without the line; when it
    matches and no later line has its key, the key-to-value map gives the
    key the value of the line; when it matches and no earlier line has its
    value, the value-to-key map gives the value the key of the line.  A
    line may end with a carriage return before or instead of the newline,
    and the last line of the file with nothing. *)
Theorem parse_localizable_tolerant :
  (forall fs, parse_localizable U fs None = Ok (∅, ∅)) /\
  (forall fs p, fs !! p = None -> parse_localizable U fs (Some p) = Ok (∅, ∅)) /\
  (forall fs p text, fs !! p = Some (RegularFile text) ->
     exists maps, parse_localizable U fs (Some p) = Ok maps) /\
  (forall fs p pre l post, line_start pre -> one_line l ->
     Re.match_ (LOC_LINE_RE U) (l ++ [c_nl]) = None ->
     parse_localizable U (<[p := RegularFile (pre ++ l ++ c_nl :: post)]> fs) (Some p)
     = parse_localizable U (<[p := RegularFile (pre ++ post)]> fs) (Some p)) /\
  (forall fs p pre l post m, line_start pre -> one_line l ->
     fs !! p = Some (RegularFile (pre ++ l ++ c_nl :: post)) ->
     Re.match_ (LOC_LINE_RE U) (l ++ [c_nl]) = Some m ->
     (forall line' m', line' ∈ read_lines [] post ->
        Re.match_ (LOC_LINE_RE U) line' = Some m' ->
        Re.group_ 1 m' ≠ Re.group_ 1 m) ->
     exists key_to_val val_to_key,
       parse_localizable U fs (Some p) = Ok (key_to_val, val_to_key) /\
       key_to_val !! Re.group_ 1 m = Some (Re.group_ 2 m)) /\
  (forall fs p pre l post m, line_start pre -> one_line l ->
     fs !! p = Some (RegularFile (pre ++ l ++ c_nl :: post)) ->
     Re.match_ (LOC_LINE_RE U) (l ++ [c_nl]) = Some m ->
     (forall line' m', line' ∈ read_lines [] pre ->
        Re.match_ (LOC_LINE_RE U) line' = Some m' ->
        Re.group_ 2 m' ≠ Re.group_ 2 m) ->
     exists key_to_val val_to_key,
       parse_localizable U fs (Some p) = Ok (key_to_val, val_to_key) /\
       val_to_key !! Re.group_ 2 m = Some (Re.group_ 1 m)) /\
  (forall fs p pre l post, line_start pre -> one_line l ->
     parse_localizable U
       (<[p := RegularFile (pre ++ l ++ c_cr :: c_nl :: post)]> fs) (Some p)
     = parse_localizable U
         (<[p := RegularFile (pre ++ l ++ c_nl :: post)]> fs) (Some p) /\
     (head post ≠ Some c_nl ->
      parse_localizable U
        (<[p := RegularFile (pre ++ l ++ c_cr :: post)]> fs) (Some p)
      = parse_localizable U
          (<[p := RegularFile (pre ++ l ++ c_nl :: post)]> fs) (Some p))) /\
  (forall fs p pre l m, line_start pre -> one_line l -> l ≠ [] ->
     fs !! p = Some (RegularFile (pre ++ l)) ->
     Re.match_ (LOC_LINE_RE U) l = Some m ->
     exists key_to_val val_to_key,
       parse_localizable U fs (Some p) = Ok (key_to_val, val_to_key) /\
       key_to_val !! Re.group_ 1 m = Some (Re.group_ 2 m)) /\
  Re.match_ (LOC_LINE_RE U) (lit "// a comment" ++ [c_nl]) = None /\
  Re.match_ (LOC_LINE_RE U) [c_nl] = None /\
  Re.match_ (LOC_LINE_RE U) (swift "'key' = 'no semicolon'" ++ [c_nl]) = None.
Proof.
  split; [done|]. split.
  { intros fs p Hp. unfold parse_localizable. by rewrite Hp. }
  split.
  { intros fs p text Hp. rewrite (parse_file _ _ _ Hp). eauto. }
  split.
  { intros fs p pre l post Hpre Hl Hm.
    rewrite !(parse_file _ p _ (lookup_insert_eq _ _ _)). f_equal.
    rewrite read_lines_around, read_lines_line_start by done.
    rewrite !parse_lines_app. simpl. by rewrite parse_line_None. }
  split.
  { intros fs p pre l post m Hpre Hl Hp Hm Hlater.
    rewrite (parse_file _ _ _ Hp), read_lines_around by done.
    destruct (parse_lines _ _) as [ktv vtk] eqn:E. exists ktv, vtk.
    split; [done|]. change ktv with (fst (ktv, vtk)). rewrite <- E.
    rewrite parse_lines_app. simpl. rewrite fold_parse_key by done.
    rewrite (parse_line_Some _ _ _ Hm). simpl. apply lookup_insert_eq. }
  split.
  { intros fs p pre l post m Hpre Hl Hp Hm Hearlier.
    rewrite (parse_file _ _ _ Hp), read_lines_around by done.
    destruct (parse_lines _ _) as [ktv vtk] eqn:E. exists ktv, vtk.
    split; [done|]. change vtk with (snd (ktv, vtk)). rewrite <- E.
    rewrite parse_lines_app. simpl. apply fold_parse_value_kept.
    rewrite (parse_line_Some _ _ _ Hm). simpl. unfold setdefault.
    pose proof (fold_parse_value_None (read_lines [] pre) (∅, ∅) _ Hearlier) as E'.
    fold (parse_lines U (read_lines [] pre)) in E'. simpl in E'.
    rewrite lookup_empty in E'. rewrite E'. apply lookup_insert_eq. }
  split.
  { intros fs p pre l post Hpre Hl.
    rewrite !(parse_file _ p _ (lookup_insert_eq _ _ _)).
    rewrite read_lines_around by done.
    rewrite !(read_lines_line_start pre) by done.
    split.
    - by rewrite read_lines_crlf.
    - intros Hpost. by rewrite read_lines_cr. }
  split.
  { intros fs p pre l m Hpre Hl Hne Hp Hm.
    rewrite (parse_file _ _ _ Hp), read_lines_line_start by done.
    rewrite (read_lines_last [] l) by auto.
    destruct (parse_lines _ _) as [ktv vtk] eqn:E. exists ktv, vtk.
    split; [done|]. change ktv with (fst (ktv, vtk)). rewrite <- E.
    rewrite parse_lines_app. simpl.
    rewrite (parse_line_Some _ _ _ Hm). simpl. apply lookup_insert_eq. }
  repeat split; reflexivity.
Qed.
End StoreFacts.

(** ** The entry pattern: matcher and scanner agree *)

Section LineAgreement.
Variable U : ucd.

Lemma star_space_eos_fuel g s n :
  length s <= n ->
  Re.star_fuel n (re_space U) (Re.eos (fun g s' => Some (g, s'))) g s
  = if forallb (isspace U) s then Some (g, []) else None.
Proof.
  revert n. induction s as [|c s IH]; intros n Hn.
  - destruct n; reflexivity.
  - destruct n as [|n]; simpl in Hn; [lia|].
    cbn [Re.star_fuel forallb]. unfold re_space at 1, Re.chr.
    destruct (isspace U c) eqn:Hc; simpl.
    + rewrite (proj2 (Nat.ltb_lt _ _)) by lia. rewrite IH by lia.
      destruct (forallb (isspace U) s) eqn:Hs; [done|].
      destruct s; [done|]. reflexivity.
    + destruct s; [|done]. destruct (N.eqb c c_nl) eqn:E; [|done].
      apply N.eqb_eq in E as ->. done.
Qed.

Lemma star_space_eos g s :
  Re.star (re_space U) (Re.eos (fun g s' => Some (g, s'))) g s
  = if forallb (isspace U) s then Some (g, []) else None.
Proof. by apply star_space_eos_fuel. Qed.

Lemma one_then c k g s :
  Re.one c k g s =
  match s with d :: s' => if N.eqb d c then k g s' else None | [] => None end.
Proof. reflexivity. Qed.

Lemma star_space_one c k g s :
  isspace U c = false ->
  Re.star (re_space U) (Re.one c k) g s =
  match scan_char U c s with Some s' => k g s' | None => None end.
Proof.
  intros Hc. rewrite star_space_skip.
  - unfold scan_char. rewrite one_then.
    destruct (skip_space U s) as [|d s']; [done|]. by destruct (N.eqb d c).
  - intros g' d s' Hd. rewrite one_then. by rewrite (isspace_ne U d c).
Qed.

Lemma star_space_string i k g s :
  Re.star (re_space U)
    (Re.one c_dq (Re.group i re_body (Re.one c_dq k))) g s =
  match scan_string (skip_space U s) with
  | Some (raw, s') => k ((i, raw) :: g) s'
  | None => None
  end.
Proof.
  rewrite star_space_skip; cycle 1.
  { intros g' d s' Hd. rewrite one_then. by rewrite (isspace_ne U d c_dq). }
  rewrite one_then. unfold scan_string.
  destruct (skip_space U s) as [|c s1]; [done|].
  destruct (N.eqb c c_dq); [|done].
  rewrite group_body; cycle 1.
  { intros g' d s' Hd. rewrite one_then.
    destruct (N.eqb d c_dq) eqn:E; [|done]. by apply N.eqb_eq in E. }
  destruct (scan_body s1) as [[|r0 raw] [|d s2]]; try done.
  rewrite one_then. by destruct (N.eqb d c_dq).
Qed.

(** The backtracking matcher on [LOC_LINE_RE] is the scanner. *)
Lemma loc_line_scan s :
  Re.match_ (LOC_LINE_RE U) s =
  match scan_loc_line U s with
  | Some (k, v) => Some (Re.Match s [(2, v); (1, k)] [])
  | None => None
  end.
Proof.
  unfold Re.match_, LOC_LINE_RE, scan_loc_line, Re.bos, Re.eps.
  unfold Re.seq. rewrite star_space_string.
  destruct (scan_string (skip_space U s)) as [[k s1]|]; [|done]. simpl.
  rewrite (star_space_one 61) by reflexivity.
  destruct (scan_char U 61 s1) as [s2|]; [|done]. simpl.
  rewrite star_space_string.
  destruct (scan_string (skip_space U s2)) as [[v s3]|]; [|done]. simpl.
  rewrite (star_space_one 59) by reflexivity.
  destruct (scan_char U 59 s3) as [s4|]; [|done]. simpl.
  rewrite star_space_eos.
  destruct (forallb (isspace U) s4); [|done].
  by rewrite Nat.sub_0_r, firstn_all.
Qed.

Lemma scan_string_nonempty s raw s' :
  scan_string s = Some (raw, s') -> raw ≠ [].
Proof.
  unfold scan_string. destruct s as [|c s1]; [done|].
  destruct (N.eqb c c_dq); [|done].
  destruct (scan_body s1) as [[|r0 raw'] [|d s2]]; try done.
  destruct (N.eqb d c_dq); [|done]. by intros [= <- _].
Qed.

(** Key and value of a matching line are not empty. *)
Lemma loc_line_groups_nonempty line m :
  Re.match_ (LOC_LINE_RE U) line = Some m ->
  Re.group_ 1 m ≠ [] /\ Re.group_ 2 m ≠ [].
Proof.
  rewrite loc_line_scan. unfold scan_loc_line.
  destruct (scan_string (skip_space U line)) as [[k s1]|] eqn:E1; [|done]. simpl.
  destruct (scan_char U 61 s1) as [s2|]; [|done]. simpl.
  destruct (scan_string (skip_space U s2)) as [[v s3]|] eqn:E2; [|done]. simpl.
  destruct (scan_char U 59 s3) as [s4|]; [|done]. simpl.
  destruct (forallb (isspace U) s4); [|done]. intros [= <-].
  apply scan_string_nonempty in E1, E2. done.
Qed.

Lemma fold_parse_keys_nonempty l t :
  (forall v k, snd t !! v = Some k -> k ≠ []) ->
  forall v k, snd (fold_left (parse_line U) l t) !! v = Some k -> k ≠ [].
Proof.
  revert t. induction l as [|line l IH]; intros t Ht; simpl; [done|].
  apply IH. destruct (Re.match_ (LOC_LINE_RE U) line) as [m|] eqn:Hm.
  - rewrite (parse_line_Some _ _ _ _ Hm). simpl. unfold setdefault.
    destruct (snd t !! Re.group_ 2 m) eqn:E; [done|].
    intros v k [[_ <-]|[_ H]]%lookup_insert_Some; [|by eapply Ht].
    by apply loc_line_groups_nonempty in Hm as [? _].
  - by rewrite parse_line_None.
Qed.

(** The keys of a parsed table are not empty. *)
Lemma parse_lines_keys_nonempty lines v k :
  snd (parse_lines U lines) !! v = Some k -> k ≠ [].
Proof.
  apply fold_parse_keys_nonempty. intros v' k'. simpl. by rewrite lookup_empty.
Qed.
End LineAgreement.

Section Reuse.
Variable U : ucd.

(** C4, as the code has it: when the reuse map is that of a parsed table
    and gives the decoded literal a key, and the literal is not one the
    engine skips, the occurrence is rewritten with that key and the store is
    left as it was: no key is minted and nothing is added. *)
Theorem reuse_existing_key lines s m st literal key :
  val_to_key st = snd (parse_lines U lines) ->
  Re.match_ (TEXT_CALL_RE U) s = Some m ->
  unescape U (Re.group_ 1 m) = Ok literal ->
  should_skip_literal literal = false ->
  val_to_key st !! literal = Some key ->
  repl U m st = Ok (localized_call key, st) /\
  process_swift U s st =
    then_emit (localized_call key) (process_swift U (Re.m_rest m) st).
Proof.
  intros Htable Hm Hlit Hskip Hkey.
  assert (key ≠ []) as Hne.
  { rewrite Htable in Hkey. by eapply parse_lines_keys_nonempty. }
  assert (repl U m st = Ok (localized_call key, st)) as Hrepl
    by (by eapply repl_reuses_key).
  split; [done|]. by rewrite (process_swift_call _ _ _ _ Hm), Hrepl.
Qed.
End Reuse.

(** ** The scenarios *)

(** Against C1 as stated: the second Save is not given the key of the
    first, and the additions end with three entries. *)
Lemma save_is_minted_twice :
  exists st,
    process_swift cpython_excerpt save_cancel_source empty_store
    = Ok (swift "VStack { Text('save'.localized) Text('save.2'.localized) Text('cancel'.localized) }", st) /\
    size (additions st) = 3 /\
    additions st !! lit "save.2" = Some (lit "Save").
Proof. eexists. split; [vm_compute; reflexivity|]. split; reflexivity. Qed.

(** C1, as the code has it: from an empty table the run mints save for the
    first Save, save.2 for the second and cancel for Cancel; the additions
    end with these three entries. *)
Theorem save_cancel_scenario (U : ucd) :
  process_swift U save_cancel_source empty_store
  = Ok (swift "VStack { Text('save'.localized) Text('save.2'.localized) Text('cancel'.localized) }",
        Store ∅ {[lit "save"; lit "save.2"; lit "cancel"]}
          (<[lit "cancel" := lit "Cancel"]>
             (<[lit "save.2" := lit "Save"]> {[lit "save" := lit "Save"]}))) /\
  size (<[lit "cancel" := lit "Cancel"]>
          (<[lit "save.2" := lit "Save"]>
             ({[lit "save" := lit "Save"]} : gmap (list N) (list N)))) = 3.
Proof. split; [vm_compute; reflexivity|reflexivity]. Qed.

(** Against C2 as stated: with a table whose key is a closing parenthesis,
    the first run's output is rewritten again by a second run from the same
    store (the first run added nothing to fold in). *)
Lemma idempotence_fails_on_table_key :
  let st := store_of_table cpython_excerpt [swift "')' = 'Hi';"] in
  let src := swift "Text('a Text('Hi')" in
  let out1 := swift "Text('a Text(')'.localized)" in
  val_to_key st !! lit "Hi" = Some (lit ")") /\
  process_swift cpython_excerpt src st = Ok (out1, st) /\
  exists st2,
    process_swift cpython_excerpt out1 st
    = Ok (swift "Text('a.text'.localized)'.localized)", st2) /\
    swift "Text('a.text'.localized)'.localized)" ≠ out1.
Proof.
  split; [reflexivity|]. split; [vm_compute; reflexivity|].
  eexists. split; [vm_compute; reflexivity|]. by vm_compute.
Qed.

(** Against C4 as stated: the reuse map holds the decoded literal, and the
    occurrence is skipped, not rewritten with the mapped key. *)
Lemma placeholder_value_is_not_reused :
  let st := store_of_table cpython_excerpt [swift "'score' = 'Score: %d';"] in
  let src := swift "Text('Score: %d')" in
  val_to_key st !! lit "Score: %d" = Some (lit "score") /\
  unescape cpython_excerpt (lit "Score: %d") = Ok (lit "Score: %d") /\
  process_swift cpython_excerpt src st = Ok (src, st).
Proof. split; [reflexivity|]. split; [reflexivity|]. vm_compute. reflexivity. Qed.

Lemma generate_unique_key_first_free_witness :
  ((lit "hello" ∉ ({[lit "greeting"]} : gset (list N))) /\
   generate_unique_key (lit "hello") {[lit "greeting"]}
   = Some (lit "hello", {[lit "greeting"]})) /\
  ((lit "greeting" ∈ ({[lit "greeting"]} : gset (list N))) /\
   exists i, 2 <= i /\
     generate_unique_key (lit "greeting") {[lit "greeting"]}
     = Some (suffixed (lit "greeting") i, {[lit "greeting"]}) /\
     (suffixed (lit "greeting") i ∉ ({[lit "greeting"]} : gset (list N))) /\
     forall j, 2 <= j < i ->
               suffixed (lit "greeting") j ∈ ({[lit "greeting"]} : gset (list N))).
Proof.
  assert (lit "hello" ∉ ({[lit "greeting"]} : gset (list N))) as H1.
  { intros H%elem_of_singleton. vm_compute in H. discriminate H. }
  assert (lit "greeting" ∈ ({[lit "greeting"]} : gset (list N))) as H2.
  { apply elem_of_singleton. reflexivity. }
  split; (split; [assumption|]).
  - exact (proj1 (generate_unique_key_first_free _ _) H1).
  - exact (proj2 (generate_unique_key_first_free _ _) H2).
Defined.

Example greeting_gets_suffix_2 :
  generate_unique_key (lit "greeting") {[lit "greeting"]}
  = Some (lit "greeting.2", {[lit "greeting"]}).
Proof. vm_compute. reflexivity. Qed.

Lemma process_swift_idempotent_witness :
  let st := store_of_table cpython_excerpt [swift "'hello' = 'Hi there';"] in
  let src := swift "Text('Hello') Text('Hi there') Text('Score: %d')" in
  let out := swift "Text('hello.2'.localized) Text('hello'.localized) Text('Score: %d')" in
  let st1 := Store (val_to_key st) {[lit "hello"; lit "hello.2"]}
               {[lit "hello.2" := lit "Hello"]} in
  keys_clean (val_to_key st) /\
  process_swift cpython_excerpt src st = Ok (out, st1) /\
  forall st2, process_swift cpython_excerpt out st2 = Ok (out, st2).
Proof.
  intros st src out st1.
  assert (keys_clean (val_to_key st)) as Hclean.
  { assert (val_to_key st = {[lit "Hi there" := lit "hello"]}) as E
      by (vm_compute; reflexivity).
    intros v k H. rewrite E in H.
    apply lookup_singleton_Some in H as [_ <-]. reflexivity. }
  assert (process_swift cpython_excerpt src st = Ok (out, st1)) as Hrun.
  { vm_compute. reflexivity. }
  split; [assumption|]. split; [assumption|].
  exact (process_swift_idempotent cpython_excerpt src st out st1 Hclean Hrun).
Defined.

Lemma reuse_existing_key_witness :
  let lines := [swift "'hello' = 'Hi there';"] in
  let st := store_of_table cpython_excerpt lines in
  let src := swift "Text('Hi there')" in
  let m := Re.Match src [(1, lit "Hi there")] [] in
  val_to_key st = snd (parse_lines cpython_excerpt lines) /\
  Re.match_ (TEXT_CALL_RE cpython_excerpt) src = Some m /\
  unescape cpython_excerpt (Re.group_ 1 m) = Ok (lit "Hi there") /\
  should_skip_literal (lit "Hi there") = false /\
  val_to_key st !! lit "Hi there" = Some (lit "hello") /\
  repl cpython_excerpt m st = Ok (swift "Text('hello'.localized)", st) /\
  process_swift cpython_excerpt src st
  = Ok (swift "Text('hello'.localized)", st).
Proof.
  intros lines st src m.
  assert (val_to_key st = snd (parse_lines cpython_excerpt lines)) as H0
    by (vm_compute; reflexivity).
  assert (Re.match_ (TEXT_CALL_RE cpython_excerpt) src = Some m) as H1
    by (vm_compute; reflexivity).
  assert (unescape cpython_excerpt (Re.group_ 1 m) = Ok (lit "Hi there")) as H2
    by (vm_compute; reflexivity).
  assert (should_skip_literal (lit "Hi there") = false) as H3
    by (vm_compute; reflexivity).
  assert (val_to_key st !! lit "Hi there" = Some (lit "hello")) as H4
    by (vm_compute; reflexivity).
  pose proof (reuse_existing_key cpython_excerpt lines src m st _ _
                H0 H1 H2 H3 H4) as [Hrepl Hrun].
  split; [exact H0|]. split; [exact H1|]. split; [exact H2|].
  split; [exact H3|]. split; [exact H4|]. split; [exact Hrepl|exact Hrun].
Defined.

Lemma skipped_occurrence_untouched_witness :
  let st := empty_store in
  let src := swift "Text('Welcome, \(name)') Text('Score: %d')" in
  let m := Re.Match (swift "Text('Welcome, \(name)')")
             [(1, lit "Welcome, \(name)")] (swift " Text('Score: %d')") in
  Re.match_ (TEXT_CALL_RE cpython_excerpt) src = Some m /\
  unescape cpython_excerpt (Re.group_ 1 m) = Ok (lit "Welcome, \(name)") /\
  contains (lit "\(") (lit "Welcome, \(name)") = true /\
  repl cpython_excerpt m st = Ok (Re.group0 m, st) /\
  src = Re.group0 m ++ Re.m_rest m /\
  process_swift cpython_excerpt src st
  = then_emit (Re.group0 m) (process_swift cpython_excerpt (Re.m_rest m) st) /\
  process_swift cpython_excerpt src st = Ok (src, st).
Proof.
  intros st src m.
  assert (Re.match_ (TEXT_CALL_RE cpython_excerpt) src = Some m) as H1
    by (vm_compute; reflexivity).
  assert (unescape cpython_excerpt (Re.group_ 1 m)
          = Ok (lit "Welcome, \(name)")) as H2 by (vm_compute; reflexivity).
  assert (contains (lit "\(") (lit "Welcome, \(name)") = true) as H3
    by (vm_compute; reflexivity).
  pose proof (skipped_occurrence_untouched cpython_excerpt src m st _ H1 H2
                (or_introl H3)) as (Hrepl & Hsplit & Hrun).
  split; [exact H1|]. split; [exact H2|]. split; [exact H3|].
  split; [exact Hrepl|]. split; [exact Hsplit|]. split; [exact Hrun|].
  vm_compute. reflexivity.
Defined.

Lemma slugify_key_keeps_alnum_witness :
  let U := cpython_excerpt in
  let s := lit "  Hello,  World! " in
  let runs := [(lit "hello", lit ",  "); (lit "world", lit "!")] in
  (Forall (fun c => isalnum U c = false) (normalized U (lit "?! ...")) /\
   slugify_key U (lit "?! ...") = lit "text") /\
  runs_of U (normalized U s) [] runs /\
  strip is_dot (slug_loop U false (normalized U s)) = lit "hello.world" /\
  slugify_key U s = lit "hello.world".
Proof.
  intros U s runs.
  assert (Forall (fun c => isalnum U c = false) (normalized U (lit "?! ..."))) as H
    by (vm_compute; repeat constructor).
  assert (runs_of U (normalized U s) [] runs) as Hruns.
  { split; [vm_compute; reflexivity|]. split; [constructor|]. split.
    - repeat constructor; try discriminate.
    - intros r1 r r2 E Hr2. destruct r1 as [|r0 r1].
      { injection E as <- <-. intros Hs. by vm_compute in Hs. }
      destruct r1 as [|r1 r1'].
      { injection E as _ <- <-. done. }
      injection E as _ _ E. by destruct r1'. }
  destruct (proj2 (proj2 (proj2 (proj2 (slugify_key_keeps_alnum U s)))) [] runs Hruns)
    as [E1 E2].
  split; [|split; [exact Hruns|split]].
  - split; [assumption|]. exact (proj1 (slugify_key_keeps_alnum U _) H).
  - rewrite E1. reflexivity.
  - rewrite E2. reflexivity.
Defined.

(** Against C6 as stated: the engine records a lone surrogate as the value
    of a literal that names one, and no line is written for it: the call
    raises and leaves the new file empty. *)
Lemma lone_surrogate_is_not_written :
  let path := "Localizable.strings"%string in
  let adds : gmap (list N) (list N) := {[lit "text" := [55296]%N]} in
  process_swift cpython_excerpt (swift "Text('\ud800')") empty_store
  = Ok (swift "Text('text'.localized)", Store ∅ {[lit "text"]} adds) /\
  adds ≠ ∅ /\
  write_strings ∅ path ∅ adds
  = ({[path := RegularFile []]}, Raise UnicodeEncodeError).
Proof.
  split; [vm_compute; reflexivity|]. split; [|vm_compute; reflexivity].
  intros H. apply (f_equal (fun m => m !! lit "text")) in H.
  vm_compute in H. discriminate H.
Qed.

Lemma write_strings_appends_witness :
  let path := "Localizable.strings"%string in
  let old := swift "'hello' = 'Hi there';" ++ [c_nl] in
  let fs : gmap string node := {[path := RegularFile old]} in
  let additions : gmap (list N) (list N) :=
    {[lit "save" := swift "Save 'as'"; lit "cancel" := lit "Cancel"]} in
  let broken : gmap (list N) (list N) :=
    {[lit "a" := lit "A"; lit "b" := [55296]%N; lit "c" := lit "C"]} in
  (additions ≠ ∅ /\ fs !! path = Some (RegularFile old) /\
   Forall (fun k => forallb encodable
                      (strings_line k (default [] (additions !! k))) = true)
     (sorted_keys additions) /\
   write_strings fs path ∅ additions
   = ({[path := RegularFile (old ++ [c_nl]
                               ++ swift "'cancel' = 'Cancel';" ++ [c_nl]
                               ++ swift "'save' = 'Save \'as\'';" ++ [c_nl])]},
      Ok tt)) /\
  (broken ≠ ∅ /\ sorted_keys broken = [lit "a"] ++ lit "b" :: [lit "c"] /\
   forallb encodable (strings_line (lit "b") (default [] (broken !! lit "b")))
   = false /\
   write_strings fs path ∅ broken
   = ({[path := RegularFile (old ++ [c_nl] ++ swift "'a' = 'A';" ++ [c_nl])]},
      Raise UnicodeEncodeError)) /\
  write_strings fs path ∅ ∅ = (fs, Ok tt).
Proof.
  intros path old fs additions broken.
  assert (additions ≠ ∅) as H1.
  { intros H. apply (f_equal (fun m => m !! lit "save")) in H.
    vm_compute in H. discriminate H. }
  assert (broken ≠ ∅) as H1'.
  { intros H. apply (f_equal (fun m => m !! lit "a")) in H.
    vm_compute in H. discriminate H. }
  assert (fs !! path = Some (RegularFile old)) as H2 by reflexivity.
  assert (Forall (fun k => forallb encodable
                     (strings_line k (default [] (additions !! k))) = true)
            (sorted_keys additions)) as H3.
  { assert (sorted_keys additions = [lit "cancel"; lit "save"]) as ->
      by (vm_compute; reflexivity).
    repeat constructor. }
  assert (sorted_keys broken = [lit "a"] ++ lit "b" :: [lit "c"]) as H4
    by (vm_compute; reflexivity).
  assert (forallb encodable
            (strings_line (lit "b") (default [] (broken !! lit "b"))) = false) as H5
    by (vm_compute; reflexivity).
  pose proof (write_strings_appends fs path ∅ additions) as Ha.
  pose proof (write_strings_appends fs path ∅ broken) as Hb.
  pose proof (write_strings_appends fs path ∅ ∅) as He.
  cbv zeta in Ha, Hb, He.
  destruct Ha as (_ & _ & _ & Ha & _). destruct Hb as (_ & _ & _ & Hb & _).
  destruct He as (He & _).
  split; [|split].
  - split; [assumption|]. split; [assumption|]. split; [assumption|].
    rewrite (proj1 (Ha H1 old (or_introl H2)) H3). vm_compute. reflexivity.
  - split; [assumption|]. split; [assumption|]. split; [assumption|].
    rewrite (proj2 (Hb H1' old (or_introl H2)) [lit "a"] (lit "b") [lit "c"] H4).
    + vm_compute. reflexivity.
    + repeat constructor.
    + exact H5.
  - exact (He eq_refl).
Defined.

Example write_strings_example :
  write_strings {["Localizable.strings" := RegularFile (swift "'hello' = 'Hi there';" ++ [c_nl])]}
    "Localizable.strings" ∅
    {[lit "save" := swift "Save 'as'"; lit "cancel" := lit "Cancel"]}
  = ({["Localizable.strings" :=
         RegularFile (swift "'hello' = 'Hi there';" ++ [c_nl] ++ [c_nl]
                      ++ swift "'cancel' = 'Cancel';" ++ [c_nl]
                      ++ swift "'save' = 'Save \'as\'';" ++ [c_nl])]}, Ok tt).
Proof. vm_compute. reflexivity. Qed.

Lemma parse_localizable_tolerant_witness :
  let U := cpython_excerpt in
  let p := "Localizable.strings"%string in
  let comment := lit "/* greetings */" in
  let one := swift "'hello' = 'Hi';" in
  let bad := swift "'key' = 'no semicolon'" in
  let two := swift "'hello' = 'Hello';" in
  let dup := swift "'again' = 'Hi';" in
  let rest := [c_nl] ++ one ++ [c_cr; c_nl] ++ bad ++ [c_nl] ++ two ++ [c_nl] ++ dup in
  let text := comment ++ [c_nl] ++ rest in
  let fs : gmap string node := {[p := RegularFile text]} in
  let m1 := Re.Match (one ++ [c_nl]) [(2, lit "Hi"); (1, lit "hello")] [] in
  let m2 := Re.Match (two ++ [c_nl]) [(2, lit "Hello"); (1, lit "hello")] [] in
  parse_localizable U fs (Some p)
  = Ok ({[lit "hello" := lit "Hello"; lit "again" := lit "Hi"]},
        {[lit "Hi" := lit "hello"; lit "Hello" := lit "hello"]}) /\
  (Re.match_ (LOC_LINE_RE U) (comment ++ [c_nl]) = None /\
   parse_localizable U (<[p := RegularFile (comment ++ c_nl :: rest)]> ∅) (Some p)
   = parse_localizable U (<[p := RegularFile rest]> ∅) (Some p)) /\
  (Re.match_ (LOC_LINE_RE U) (two ++ [c_nl]) = Some m2 /\
   exists key_to_val val_to_key,
     parse_localizable U fs (Some p) = Ok (key_to_val, val_to_key) /\
     key_to_val !! lit "hello" = Some (lit "Hello")) /\
  (Re.match_ (LOC_LINE_RE U) (one ++ [c_nl]) = Some m1 /\
   exists key_to_val val_to_key,
     parse_localizable U
       {[p := RegularFile (comment ++ [c_nl; c_nl] ++ one ++ c_nl :: dup)]} (Some p)
     = Ok (key_to_val, val_to_key) /\
     val_to_key !! lit "Hi" = Some (lit "hello")).
Proof.
  intros U p comment one bad two dup rest text fs m1 m2.
  destruct (parse_localizable_tolerant U)
    as (_ & _ & _ & Hc & Hd & He & _).
  assert (forall l : list N, bool_decide (one_line l) = true -> one_line l) as Hol.
  { intros l H. by apply bool_decide_eq_true in H. }
  assert (Re.match_ (LOC_LINE_RE U) (comment ++ [c_nl]) = None) as H0
    by (vm_compute; reflexivity).
  assert (Re.match_ (LOC_LINE_RE U) (two ++ [c_nl]) = Some m2) as H2
    by (vm_compute; reflexivity).
  assert (Re.match_ (LOC_LINE_RE U) (one ++ [c_nl]) = Some m1) as H1
    by (vm_compute; reflexivity).
  split; [vm_compute; reflexivity|]. split; [|split].
  - split; [assumption|].
    apply (Hc ∅ p [] comment rest); [by left|apply Hol; vm_compute; reflexivity|].
    exact H0.
  - split; [assumption|].
    apply (Hd fs p (comment ++ [c_nl] ++ [c_nl] ++ one ++ [c_cr; c_nl] ++ bad ++ [c_nl])
             two dup m2).
    + right. exists (comment ++ [c_nl] ++ [c_nl] ++ one ++ [c_cr; c_nl] ++ bad).
      vm_compute. reflexivity.
    + apply Hol. vm_compute. reflexivity.
    + vm_compute. reflexivity.
    + exact H2.
    + intros line' m' Hin Hm'.
      assert (read_lines [] dup = [dup]) as E by (vm_compute; reflexivity).
      rewrite E in Hin. apply list_elem_of_singleton in Hin as ->.
      assert (Re.match_ (LOC_LINE_RE U) dup
              = Some (Re.Match dup [(2, lit "Hi"); (1, lit "again")] [])) as E'
        by (vm_compute; reflexivity).
      rewrite E' in Hm'. injection Hm' as <-. vm_compute. discriminate.
  - split; [assumption|].
    apply (He _ p (comment ++ [c_nl; c_nl]) one dup m1).
    + right. exists (comment ++ [c_nl]). vm_compute. reflexivity.
    + apply Hol. vm_compute. reflexivity.
    + vm_compute. reflexivity.
    + exact H1.
    + intros line' m' Hin Hm'.
      assert (read_lines [] (comment ++ [c_nl; c_nl])
              = [comment ++ [c_nl]; [c_nl]]) as E by (vm_compute; reflexivity).
      rewrite E in Hin.
      apply elem_of_cons in Hin as [->|Hin].
      { rewrite H0 in Hm'. discriminate Hm'. }
      apply list_elem_of_singleton in Hin as ->.
      vm_compute in Hm'. discriminate Hm'.
Defined.



(** * Further properties of the code *)

(** ** What a run does to the store *)

Lemma store_grows_refl st : store_grows st st.
Proof. unfold store_grows. repeat split; auto. Qed.

Lemma store_grows_trans a b c :
  store_grows a b -> store_grows b c -> store_grows a c.
Proof.
  intros (Hv1 & Hk1 & Ha1 & Hb1 & Hf1) (Hv2 & Hk2 & Ha2 & Hb2 & Hf2).
  split; [congruence|]. split; [set_solver|]. split; [by etrans|].
  split.
  - intros k Hk. destruct (Hb2 k Hk) as [Hkb|?]; [|by right].
    destruct (Hb1 k Hkb) as [?|[v Hv]]; [by left|right].
    exists v. by eapply lookup_weaken.
  - intros k Hk. destruct (Hf2 k Hk) as [Hkb|[Hn Hin]].
    + destruct (Hf1 k Hkb) as [?|[Hn Hin]]; [by left|right].
      split; [done|]. by apply Hk2.
    + right. split; [|done]. intros Hka. apply Hn. by apply Hk1.
Qed.

Lemma sub_loop_preserves {S} (R : S -> S -> Prop) r
    (repl : Re.match_obj -> M S (list N)) :
  (forall st, R st st) ->
  (forall a b c, R a b -> R b c -> R a c) ->
  (forall m st new st', repl m st = Ok (new, st') -> R st st') ->
  forall s skip st out st',
    Re.sub_loop r repl skip s st = Ok (out, st') -> R st st'.
Proof.
  intros Hrefl Htrans Hrepl s.
  induction s as [|c s IH]; intros skip st out st'; simpl.
  { intros [= _ <-]. apply Hrefl. }
  destruct skip as [|n]; [|apply IH].
  destruct (Re.match_ r (c :: s)) as [m|].
  - unfold mbind at 1, M_bind.
    destruct (repl m st) as [[new st1]|] eqn:E; [|done].
    unfold mbind, M_bind.
    destruct (Re.sub_loop r repl _ s st1) as [[out2 st2]|] eqn:E2; [|done].
    intros [= _ <-]. eapply Htrans; [by eapply Hrepl|by eapply IH].
  - unfold mbind, M_bind.
    destruct (Re.sub_loop r repl 0 s st) as [[out2 st2]|] eqn:E2; [|done].
    intros [= _ <-]. by eapply IH.
Qed.

Section StoreGrowth.
Variable U : ucd.

Lemma repl_store_grows m st new st' :
  repl U m st = Ok (new, st') -> store_grows st st'.
Proof.
  unfold repl, mbind, M_bind, lift, val_to_key_get.
  destruct (unescape U (Re.group_ 1 m)) as [literal|]; [|done].
  destruct (should_skip_literal literal).
  { intros [= _ <-]. apply store_grows_refl. }
  unfold call_generate_unique_key, existing_keys_add, additions_setdefault.
  assert (forall key,
    generate_unique_key (slugify_key U literal) (existing_keys st)
    = Some (key, existing_keys st) -> key ∉ existing_keys st ->
    store_grows st
      (Store (val_to_key st) ({[key]} ∪ existing_keys st)
         (setdefault key literal (additions st)))) as Hmint.
  { intros key _ Hfresh. unfold store_grows, setdefault. simpl.
    split; [done|]. split; [set_solver|].
    destruct (additions st !! key) eqn:Ha.
    - split; [done|]. split.
      + intros k [->%elem_of_singleton|?]%elem_of_union; [right|by left].
        by rewrite Ha.
      + intros k Hk. by left.
    - split; [by apply insert_subseteq|]. split.
      + intros k [->%elem_of_singleton|?]%elem_of_union; [right|by left].
        by rewrite lookup_insert_eq.
      + intros k Hk. destruct (decide (k = key)) as [->|Hne].
        * right. split; [done|set_solver].
        * left. by rewrite lookup_insert_ne in Hk. }
  destruct (val_to_key st !! literal) as [[|c k]|].
  2:{ intros [= _ <-]. apply store_grows_refl. }
  all: destruct (generate_unique_key _ _) as [[key ks]|] eqn:Hg; [|done];
    pose proof (unique_key_loop_Some _ _ _ _ _ _ _ Hg) as (-> & Hfresh & _);
    intros [= _ <-]; by apply Hmint.
Qed.

Lemma process_swift_store_rel s st out st' :
  process_swift U s st = Ok (out, st') -> store_grows st st'.
Proof.
  unfold process_swift, Re.sub.
  apply (sub_loop_preserves store_grows).
  - apply store_grows_refl.
  - apply store_grows_trans.
  - apply repl_store_grows.
Qed.

(** X1: a run leaves the reuse map as it was and only adds: keys to the key
    set, entries to the additions (an entry that is there keeps its
    value). *)
Theorem process_swift_only_adds s st out st' :
  process_swift U s st = Ok (out, st') ->
  val_to_key st' = val_to_key st /\
  existing_keys st ⊆ existing_keys st' /\
  (forall k v, additions st !! k = Some v -> additions st' !! k = Some v).
Proof.
  intros (Hv & Hk & Ha & _)%process_swift_store_rel.
  split; [done|]. split; [done|]. intros k v Hkv. by eapply lookup_weaken.
Qed.

(** X2: the keys a run adds are new: an added entry has a key that was not
    in the key set before the run, and is in it after; when the additions
    started within the key set, the key set after the run is the one
    before with the keys of the additions. *)
Theorem process_swift_mints_fresh_keys s st out st' :
  process_swift U s st = Ok (out, st') ->
  (forall k, is_Some (additions st' !! k) ->
     is_Some (additions st !! k) \/
     ((k ∉ existing_keys st) /\ k ∈ existing_keys st')) /\
  (dom (additions st) ⊆ existing_keys st ->
   existing_keys st' = existing_keys st ∪ dom (additions st')).
Proof.
  intros (Hv & Hk & Ha & Hb & Hf)%process_swift_store_rel.
  split; [done|]. intros Hdom. apply set_eq. intros k.
  rewrite elem_of_union, elem_of_dom. split.
  - apply Hb.
  - intros [?|Hin]; [by apply Hk|].
    destruct (Hf k Hin) as [Hold|[_ ?]]; [|done].
    apply Hk, Hdom. by apply elem_of_dom.
Qed.
End StoreGrowth.

(** ** The literal codec: decoding and escaping *)

Section CodecFacts.
Variable U : ucd.

Lemma decode_no_backslash bs :
  c_bs ∉ bs -> unicode_escape_decode U 0 bs = Ok bs.
Proof.
  induction bs as [|b bs IH]; simpl; [done|].
  intros [Hb Hbs]%not_elem_of_cons.
  destruct (N.eqb_spec b 92) as [->|_]; [done|].
  by rewrite IH.
Qed.

Lemma decode_raises bs skip e :
  unicode_escape_decode U skip bs = Raise e -> e = UnicodeDecodeError.
Proof.
  revert skip. induction bs as [|b bs IH]; intros skip; simpl; [done|].
  destruct skip as [|n]; [|apply IH].
  unfold mbind, result_bind. destruct (N.eqb b 92).
  - destruct bs as [|c bs']; [by intros [= <-]|].
    destruct (escape_step U c bs') as [[out n]|e'] eqn:E.
    + destruct (unicode_escape_decode U (pred n) (c :: bs')) eqn:E2; [done|].
      intros [= <-]. by eapply IH.
    + intros [= <-]. revert E. unfold escape_step.
      repeat (match goal with
              | |- context [if ?b then _ else _] => destruct b
              | |- context [match ?x with _ => _ end] => destruct x
              end; try done); by intros [= <-].
  - destruct (unicode_escape_decode U 0 bs) eqn:E2; [done|].
    intros [= <-]. by eapply IH.
Qed.

(** The decoder undoes [escape_for_strings] on bytes. *)
Lemma decode_escaped bs :
  unicode_escape_decode U 0 (escape_for_strings bs) = Ok bs.
Proof.
  rewrite escape_for_strings_spec.
  induction bs as [|b bs IH]; simpl; [done|].
  destruct (N.eqb_spec b c_bs) as [->|Hbs]; simpl.
  { change (flat_map _ bs) with (flat_map (fun c => if N.eqb c c_bs then [c_bs; c_bs]
       else if N.eqb c c_dq then [c_bs; c_dq] else [c]) bs).
    by rewrite IH. }
  destruct (N.eqb_spec b c_dq) as [->|Hdq]; simpl.
  { by rewrite IH. }
  destruct (N.eqb_spec b 92) as [->|_]; [done|].
  by rewrite IH.
Qed.

Lemma escape_for_strings_app a b :
  escape_for_strings (a ++ b) = escape_for_strings a ++ escape_for_strings b.
Proof. rewrite !escape_for_strings_spec. apply flat_map_app. Qed.

Lemma escape_for_strings_high bs :
  Forall (fun b => (128 <= b)%N) bs -> escape_for_strings bs = bs.
Proof.
  rewrite escape_for_strings_spec.
  induction 1 as [|x l Hx _ IHl]; simpl; [done|].
  destruct (N.eqb_spec x c_bs) as [->|_]; [unfold c_bs in Hx; lia|].
  destruct (N.eqb_spec x c_dq) as [->|_]; [unfold c_dq in Hx; lia|].
  simpl. by f_equal.
Qed.

Lemma utf8_encode_escaped s :
  utf8_encode (escape_for_strings s)
  = bs ← utf8_encode s; Ok (escape_for_strings bs).
Proof.
  induction s as [|c s IH]; [done|].
  change (c :: s) with ([c] ++ s).
  rewrite escape_for_strings_app, !utf8_encode_app, IH.
  assert (utf8_encode (escape_for_strings [c])
          = bs ← utf8_encode [c]; Ok (escape_for_strings bs)) as ->.
  { rewrite (escape_for_strings_spec [c]). simpl.
    destruct (N.eqb_spec c c_bs) as [->|Hbs]; [done|].
    destruct (N.eqb_spec c c_dq) as [->|Hdq]; [done|].
    simpl. pose proof (utf8_char_spec c) as H.
    destruct (encodable c); [|by rewrite H].
    destruct H as (b & -> & _ & Hascii & Hnon). simpl. f_equal.
    rewrite !app_nil_r. destruct (is_ascii c) eqn:Ha.
    - rewrite (Hascii eq_refl), (escape_for_strings_spec [c]). simpl.
      destruct (N.eqb_spec c c_bs); [done|]. by destruct (N.eqb_spec c c_dq).
    - destruct (Hnon eq_refl) as [_ Hb]. by rewrite escape_for_strings_high. }
  destruct (utf8_encode [c]) as [x|]; simpl; [|done].
  destruct (utf8_encode s) as [y|]; simpl; [|done].
  by rewrite escape_for_strings_app.
Qed.

(** X3: unescaping what [escape_for_strings] wrote gives the UTF-8 bytes of
    the text (each byte read as a code point), and the text itself when it
    is ASCII. *)
Theorem unescape_escape_for_strings s :
  unescape U (escape_for_strings s) = utf8_encode s /\
  (forallb is_ascii s = true ->
   unescape U (escape_for_strings s) = Ok s).
Proof.
  assert (unescape U (escape_for_strings s) = utf8_encode s) as H.
  { unfold unescape. rewrite utf8_encode_escaped.
    destruct (utf8_encode s) as [bs|]; simpl; [|done]. apply decode_escaped. }
  split; [done|]. intros Ha. by rewrite H, utf8_encode_ascii.
Qed.

(** X4: a text without a backslash decodes to its UTF-8 bytes: to itself
    when it is ASCII, and never to itself when it is not. *)
Theorem unescape_without_backslash s :
  c_bs ∉ s ->
  unescape U s = utf8_encode s /\
  (forallb is_ascii s = true -> unescape U s = Ok s) /\
  (forallb is_ascii s = false -> unescape U s ≠ Ok s).
Proof.
  intros Hs.
  assert (unescape U s = utf8_encode s) as H.
  { unfold unescape. destruct (utf8_encode s) as [bs|e] eqn:E; simpl; [|done].
    apply decode_no_backslash.
    destruct (utf8_encode_Ok s (utf8_encode_Ok_inv _ _ E))
      as (bs' & E' & _ & _ & Hin).
    rewrite E in E'. injection E' as <-. intros Hb.
    destruct (Hin _ Hb) as [?|Hge]; [done|]. unfold c_bs in Hge. lia. }
  split; [done|]. split.
  - intros Ha. by rewrite H, utf8_encode_ascii.
  - intros Ha. rewrite H. intros E.
    destruct (utf8_encode_Ok s (utf8_encode_Ok_inv _ _ E))
      as (bs' & E' & _ & Hstrict & _).
    rewrite E in E'. injection E' as <-. specialize (Hstrict Ha). lia.
Qed.
End CodecFacts.

(** ** Candidates and the run *)

Lemma finditer_loop_skip r m rest :
  finditer_loop r (length m) (m ++ rest) = finditer_loop r 0 rest.
Proof. induction m as [|c m IH]; simpl; [by destruct rest|done]. Qed.

Section Candidates.
Variable U : ucd.

Lemma finditer_call s m :
  Re.match_ (TEXT_CALL_RE U) s = Some m ->
  finditer (TEXT_CALL_RE U) s = m :: finditer (TEXT_CALL_RE U) (Re.m_rest m).
Proof.
  intros Hm. destruct (match_text_call _ _ _ Hm) as (_ & Hne & Hs).
  unfold finditer. destruct s as [|c s]; [by destruct (Re.group0 m)|].
  cbn [finditer_loop]. rewrite Hm. f_equal.
  destruct (Re.group0 m) as [|c' g0]; [done|]. injection Hs as -> ->.
  apply finditer_loop_skip.
Qed.

Lemma finditer_plain c s :
  Re.match_ (TEXT_CALL_RE U) (c :: s) = None ->
  finditer (TEXT_CALL_RE U) (c :: s) = finditer (TEXT_CALL_RE U) s.
Proof. intros Hm. unfold finditer. cbn [finditer_loop]. by rewrite Hm. Qed.

(** Induction along the scan of [sub]. *)
Lemma text_scan_ind (P : list N -> Prop) :
  P [] ->
  (forall c s, Re.match_ (TEXT_CALL_RE U) (c :: s) = None -> P s -> P (c :: s)) ->
  (forall s m, Re.match_ (TEXT_CALL_RE U) s = Some m -> P (Re.m_rest m) -> P s) ->
  forall s, P s.
Proof.
  intros Hnil Hplain Hcall s.
  induction s as [s IH] using (induction_ltof1 _ (@length N)). unfold ltof in IH.
  destruct s as [|c s]; [done|].
  destruct (Re.match_ (TEXT_CALL_RE U) (c :: s)) as [m|] eqn:Hm.
  - apply (Hcall _ m Hm). apply IH.
    destruct (match_text_call _ _ _ Hm) as (_ & Hne & Hs).
    rewrite Hs, length_app. destruct (Re.group0 m); [done|]. simpl. lia.
  - apply Hplain; [done|]. apply IH. simpl. lia.
Qed.

Lemma repl_Ok_iff m st :
  (exists new st', repl U m st = Ok (new, st')) <->
  (exists literal, unescape U (Re.group_ 1 m) = Ok literal).
Proof.
  unfold repl, mbind, M_bind, lift, val_to_key_get.
  destruct (unescape U (Re.group_ 1 m)) as [literal|]; cycle 1.
  { split; [by intros (? & ? & ?)|by intros [? ?]]. }
  split; [eauto|]. intros _.
  destruct (should_skip_literal literal); [eexists _, _; reflexivity|].
  unfold call_generate_unique_key, existing_keys_add, additions_setdefault.
  destruct (val_to_key st !! literal) as [[|c k]|]; [|eexists _, _; reflexivity|].
  all: destruct (unique_key_loop_enough (slugify_key U literal) (existing_keys st))
         as [[key ks] Hg];
    unfold generate_unique_key; rewrite Hg; eexists _, _; reflexivity.
Qed.

Lemma repl_Raise m st e :
  repl U m st = Raise e ->
  unescape U (Re.group_ 1 m) = Raise e.
Proof.
  destruct (unescape U (Re.group_ 1 m)) as [literal|e'] eqn:E.
  - destruct (proj2 (repl_Ok_iff m st) (ex_intro _ literal E)) as (new & st' & ->).
    done.
  - unfold repl, mbind, M_bind, lift. rewrite E. simpl. by intros [= ->].
Qed.

Lemma unescape_Raise s e :
  unescape U s = Raise e -> e = UnicodeEncodeError \/ e = UnicodeDecodeError.
Proof.
  unfold unescape. destruct (utf8_encode s) as [bs|e'] eqn:E; simpl.
  - intros ->%decode_raises. by right.
  - intros [= <-]. apply utf8_encode_Raise in E as [-> _]. by left.
Qed.

Lemma process_swift_run_cases s st :
  ((exists out st', process_swift U s st = Ok (out, st')) <->
   Forall (decodes U) (finditer (TEXT_CALL_RE U) s)) /\
  (forall e, process_swift U s st = Raise e ->
     (e = UnicodeEncodeError \/ e = UnicodeDecodeError) /\
     Exists (fun m => unescape U (Re.group_ 1 m) = Raise e)
       (finditer (TEXT_CALL_RE U) s)).
Proof.
  revert st. induction s as [|c s Hm IH|s m Hm IH] using text_scan_ind; intros st.
  - split; [|done]. split; [constructor|eauto].
  - rewrite (process_swift_plain _ _ _ _ Hm), (finditer_plain _ _ Hm).
    destruct (IH st) as [Hok Hraise].
    destruct (process_swift U s st) as [[out st']|e] eqn:E; simpl.
    + split; [|done]. split; [intros _; apply Hok; eauto|eauto].
    + split; [|by intros e' [= <-]; apply Hraise].
      split; [by intros (? & ? & ?)|]. intros H. by apply Hok in H as (? & ? & ?).
  - rewrite (process_swift_call _ _ _ _ Hm), (finditer_call _ _ Hm).
    destruct (repl U m st) as [[new st1]|e] eqn:Hr.
    + assert (exists literal, unescape U (Re.group_ 1 m) = Ok literal) as Hdec.
      { apply (repl_Ok_iff m st). eauto. }
      destruct (IH st1) as [Hok Hraise].
      destruct (process_swift U (Re.m_rest m) st1) as [[out st']|e] eqn:E; simpl.
      * split; [|done]. split; [|eauto]. intros _. constructor; [done|].
        apply Hok. eauto.
      * split.
        -- split; [by intros (? & ? & ?)|]. intros H. inversion H; subst.
           by apply Hok in H3 as (? & ? & ?).
        -- intros e' [= <-]. destruct (Hraise e eq_refl). split; [done|].
           by apply Exists_cons_tl.
    + pose proof (repl_Raise _ _ _ Hr) as Hu. split.
      * split; [by intros (? & ? & ?)|]. intros H. inversion H as [|? ? [l Hl] ?]; subst.
        congruence.
      * intros e' [= <-]. split; [by eapply unescape_Raise|].
        by apply Exists_cons_hd.
Qed.

Lemma process_swift_Ok_iff s st :
  (exists out st', process_swift U s st = Ok (out, st')) <->
  Forall (decodes U) (finditer (TEXT_CALL_RE U) s).
Proof. apply process_swift_run_cases. Qed.

(** X5: a run returns exactly when the literal of every candidate decodes;
    and when it raises, the exception is the one that decoding a candidate
    raises, a Unicode error: the bounded unrolling in the resolver never
    runs out. *)
Theorem process_swift_returns_iff s st :
  ((exists out st', process_swift U s st = Ok (out, st')) <->
   Forall (decodes U) (finditer (TEXT_CALL_RE U) s)) /\
  (forall e, process_swift U s st = Raise e ->
     (e = UnicodeEncodeError \/ e = UnicodeDecodeError) /\
     Exists (fun m => unescape U (Re.group_ 1 m) = Raise e)
       (finditer (TEXT_CALL_RE U) s)).
Proof. apply process_swift_run_cases. Qed.
End Candidates.

(** ** Runs that change nothing *)

Lemma starts_with_strip_prefix p s :
  starts_with p s = false -> strip_prefix p s = None.
Proof.
  revert s. induction p as [|c p IH]; intros [|d s]; simpl; try done.
  destruct (N.eqb d c); simpl; [apply IH|done].
Qed.

Section Unchanged.
Variable U : ucd.

Lemma repl_cases m st new st1 :
  repl U m st = Ok (new, st1) ->
  (skipped U m = true /\ new = Re.group0 m /\ st1 = st) \/
  (skipped U m = false /\
   exists literal key, unescape U (Re.group_ 1 m) = Ok literal /\
     new = localized_call key /\
     (keys_clean (val_to_key st) -> key_clean key = true) /\
     ((val_to_key st !! literal = Some key /\ key ≠ [] /\ st1 = st) \/
      ((val_to_key st !! literal = None \/ val_to_key st !! literal = Some []) /\
       generate_unique_key (slugify_key U literal) (existing_keys st)
       = Some (key, existing_keys st) /\
       (key ∉ existing_keys st) /\
       st1 = Store (val_to_key st) ({[key]} ∪ existing_keys st)
               (setdefault key literal (additions st))))).
Proof.
  unfold repl, mbind, M_bind, lift, val_to_key_get, skipped.
  destruct (unescape U (Re.group_ 1 m)) as [literal|]; [|done].
  destruct (should_skip_literal literal) eqn:Hskip.
  { intros [= <- <-]. left. eauto. }
  intros Hr. right. split; [done|]. exists literal. revert Hr.
  unfold call_generate_unique_key, existing_keys_add, additions_setdefault.
  destruct (val_to_key st !! literal) as [[|c k]|] eqn:Hv.
  2:{ intros [= <- <-]. exists (c :: k). split; [done|]. split; [done|].
      split; [intros Hc; by eapply Hc|]. left. by destruct st. }
  all: destruct (generate_unique_key _ _) as [[key ks]|] eqn:Hg; [|done];
    intros [= <- <-]; exists key; (split; [done|]); (split; [done|]);
    (split; [intros _; eapply generate_unique_key_clean;
               [apply slugify_key_clean|done]|]);
    right; pose proof Hg as (-> & Hk & _)%unique_key_loop_Some; auto.
Qed.

Lemma process_swift_unchanged s st out st' :
  keys_clean (val_to_key st) ->
  process_swift U s st = Ok (out, st') ->
  (out = s <-> forallb (skipped U) (finditer (TEXT_CALL_RE U) s) = true) /\
  (out = s -> st' = st).
Proof.
  revert st out st'.
  induction s as [|c s Hm IH|s m Hm IH] using (text_scan_ind U);
    intros st out st' Hclean.
  - intros [= <- <-]. done.
  - rewrite (process_swift_plain _ _ _ _ Hm), (finditer_plain _ _ _ Hm).
    destruct (process_swift U s st) as [[out1 st1]|] eqn:E; [|done].
    intros [= <- <-]. destruct (IH _ _ _ Hclean E) as [Hiff Hst].
    split; [|intros [= ?]; auto]. rewrite <- Hiff. split; [by intros [= ?]|by intros ->].
  - rewrite (process_swift_call _ _ _ _ Hm), (finditer_call _ _ _ Hm).
    destruct (repl U m st) as [[new st1]|] eqn:Hr; [|done].
    destruct (process_swift U (Re.m_rest m) st1) as [[out1 st2]|] eqn:E; [|done].
    intros [= <- <-].
    destruct (match_text_call _ _ _ Hm) as (Hscan & Hne & Hs).
    cbn [forallb].
    destruct (repl_cases _ _ _ _ Hr)
      as [(-> & -> & ->)|(-> & literal & key & _ & -> & Hk & _)].
    + destruct (IH _ _ _ Hclean E) as [Hiff Hst].
      assert (Re.group0 m ++ out1 = s <-> out1 = Re.m_rest m) as ->.
      { split; [|by intros ->]. rewrite Hs at 1. apply app_inv_head. }
      split; [|auto]. by rewrite <- Hiff.
    + assert (localized_call key ++ out1 ≠ s) as Hdiff.
      { intros <-. rewrite localized_call_not_call in Hscan by auto. done. }
      done.
Qed.

(** X6: with clean keys in the reuse map, a run gives its input back
    exactly when every candidate is skipped; and then the store is as it
    was. *)
Theorem process_swift_unchanged_iff s st out st' :
  keys_clean (val_to_key st) ->
  process_swift U s st = Ok (out, st') ->
  (out = s <-> forallb (skipped U) (finditer (TEXT_CALL_RE U) s) = true) /\
  (out = s -> st' = st).
Proof. apply process_swift_unchanged. Qed.

Lemma process_swift_without_match s st :
  (forall p q, s = p ++ q -> Re.match_ (TEXT_CALL_RE U) q = None) ->
  process_swift U s st = Ok (s, st).
Proof.
  induction s as [|c s IH]; intros H; [done|].
  rewrite process_swift_plain by (by apply (H [])).
  rewrite IH; [done|]. intros p q ->. by apply (H (c :: p)).
Qed.

(** X7: a text in which the call text does not occur is given back as it
    is, and the store is left as it was. *)
Theorem process_swift_without_call s st :
  contains (lit "Text(") s = false ->
  process_swift U s st = Ok (s, st).
Proof.
  intros H. apply process_swift_without_match. intros p q ->.
  apply scan_None_match. unfold scan_text_call.
  rewrite starts_with_strip_prefix; [done|].
  clear -H. induction p as [|c p IH].
  - destruct q; apply orb_false_elim in H as [H _]; exact H.
  - apply IH. simpl app in H. by apply orb_false_elim in H as [_ ?].
Qed.

Lemma finditer_Forall (P : N -> Prop) s :
  Forall P s ->
  Forall (fun m => Forall P (Re.group_ 1 m)) (finditer (TEXT_CALL_RE U) s).
Proof.
  induction s as [|c s Hm IH|s m Hm IH] using (text_scan_ind U); intros Hs.
  - constructor.
  - rewrite (finditer_plain _ _ _ Hm). apply IH. by inversion Hs.
  - rewrite (finditer_call _ _ _ Hm).
    destruct (match_text_call _ _ _ Hm) as (Hscan & _ & _).
    apply scan_text_call_Some in Hscan as (w1 & w2 & -> & _).
    rewrite Forall_app in Hs. destruct Hs as [Hs Hrest].
    constructor; [|by apply IH].
    rewrite Forall_forall in Hs. apply Forall_forall. intros x Hx. apply Hs.
    unfold call_text. rewrite elem_of_app, elem_of_app, elem_of_cons, elem_of_app.
    tauto.
Qed.

End Unchanged.

(** ** Errors of the codec and of a run *)

Section Errors.
Variable U : ucd.

Lemma unescape_no_backslash s :
  c_bs ∉ s -> unescape U s = utf8_encode s.
Proof.
  intros Hs. unfold unescape. destruct (utf8_encode s) as [bs|e] eqn:E; simpl; [|done].
  apply decode_no_backslash.
  destruct (utf8_encode_Ok s (utf8_encode_Ok_inv _ _ E))
    as (bs' & E' & _ & _ & Hin).
  rewrite E in E'. injection E' as <-. intros Hb.
  destruct (Hin _ Hb) as [?|Hge]; [done|]. unfold c_bs in Hge. lia.
Qed.

(** X8: [unescape] raises the encoding error exactly on a text with a code
    point that UTF-8 cannot encode (a surrogate, or one past U+10FFFF); it
    raises the decoding error only on an encodable text with a backslash;
    it raises nothing else. *)
Theorem unescape_errors s :
  (unescape U s = Raise UnicodeEncodeError <-> forallb encodable s = false) /\
  (unescape U s = Raise UnicodeDecodeError ->
   forallb encodable s = true /\ c_bs ∈ s) /\
  (forall e, unescape U s = Raise e ->
   e = UnicodeEncodeError \/ e = UnicodeDecodeError).
Proof.
  split; [|split; [|apply unescape_Raise]].
  - unfold unescape. destruct (utf8_encode s) as [bs|e] eqn:E; simpl.
    + rewrite (utf8_encode_Ok_inv _ _ E). split; [|done].
      by intros ?%decode_raises.
    + apply utf8_encode_Raise in E as [-> ->]. done.
  - intros H. destruct (forallb encodable s) eqn:Henc.
    + split; [done|]. destruct (decide (c_bs ∈ s)) as [|Hn]; [done|].
      rewrite (unescape_no_backslash _ Hn) in H.
      destruct (utf8_encode_Ok s Henc) as (bs & E & _). congruence.
    + exfalso. revert H. unfold unescape.
      destruct (utf8_encode s) as [bs|e] eqn:E; simpl.
      * apply utf8_encode_Ok_inv in E. congruence.
      * apply utf8_encode_Raise in E as [-> _]. done.
Qed.

(** X9: a run over a text without a backslash and with encodable code
    points only returns. *)
Theorem process_swift_plain_text_returns s st :
  c_bs ∉ s -> forallb encodable s = true ->
  exists out st', process_swift U s st = Ok (out, st').
Proof.
  intros Hbs Henc.
  assert (Forall (fun c => c ≠ c_bs /\ encodable c = true) s) as H.
  { apply Forall_forall. intros c Hc. split; [by intros ->|].
    rewrite forallb_forall in Henc. apply Henc. by apply list_elem_of_In. }
  clear Hbs Henc. revert st.
  induction s as [|c s Hm IH|s m Hm IH] using (text_scan_ind U); intros st.
  - by eexists _, _.
  - rewrite (process_swift_plain _ _ _ _ Hm).
    destruct (IH (Forall_inv_tail H) st) as (out & st' & ->). by eexists _, _.
  - rewrite (process_swift_call _ _ _ _ Hm).
    destruct (match_text_call _ _ _ Hm) as (Hscan & _ & Hs).
    apply scan_text_call_Some in Hscan as (w1 & w2 & Hs' & _).
    rewrite Hs' in H. apply Forall_app in H as [Hcall Hrest].
    assert (Forall (fun c => c ≠ c_bs /\ encodable c = true) (Re.group_ 1 m)) as Hraw.
    { rewrite Forall_forall in Hcall. apply Forall_forall. intros x Hx. apply Hcall.
      unfold call_text. rewrite elem_of_app, elem_of_app, elem_of_cons, elem_of_app.
      tauto. }
    destruct (proj2 (repl_Ok_iff U m st)) as (new & st1 & ->).
    { rewrite unescape_no_backslash.
      - destruct (utf8_encode_Ok (Re.group_ 1 m)) as (bs & -> & _); [|eauto].
        apply forallb_forall. intros x Hx%list_elem_of_In.
        rewrite Forall_forall in Hraw. by apply Hraw.
      - intros Hx. rewrite Forall_forall in Hraw. by destruct (Hraw _ Hx). }
    destruct (IH Hrest st1) as (out & st' & ->). by eexists _, _.
Qed.
End Errors.

(** ** The table store: what is parsed, what is written and read back *)

Lemma elem_of_escape_for_strings c s :
  c ∈ escape_for_strings s -> c ∈ s \/ c = c_bs \/ c = c_dq.
Proof.
  rewrite escape_for_strings_spec.
  induction s as [|d s IH]; simpl; [by intros ?%elem_of_nil|].
  intros [H|H]%elem_of_app.
  - destruct (N.eqb_spec d c_bs) as [->|_].
    { apply elem_of_cons in H as [->|H]; [auto|].
      apply list_elem_of_singleton in H as ->. auto. }
    destruct (N.eqb_spec d c_dq) as [->|_].
    { apply elem_of_cons in H as [->|H]; [auto|].
      apply list_elem_of_singleton in H as ->. auto. }
    apply list_elem_of_singleton in H as ->. left. left.
  - destruct (IH H) as [?|?]; [left; by right|by right].
Qed.

Lemma escape_for_strings_nonempty s : s ≠ [] -> escape_for_strings s ≠ [].
Proof.
  rewrite escape_for_strings_spec. destruct s as [|c s]; [done|]. intros _. simpl.
  destruct (N.eqb c c_bs); [done|]. by destruct (N.eqb c c_dq).
Qed.

Lemma escape_for_strings_id s :
  c_bs ∉ s -> c_dq ∉ s -> escape_for_strings s = s.
Proof.
  rewrite escape_for_strings_spec.
  induction s as [|c s IH]; simpl; [done|].
  intros [Hb Hbs]%not_elem_of_cons [Hd Hds]%not_elem_of_cons.
  destruct (N.eqb_spec c c_bs); [done|]. destruct (N.eqb_spec c c_dq); [done|].
  simpl. f_equal. by apply IH.
Qed.

Lemma scan_body_escaped s x :
  scan_body (escape_for_strings s ++ c_dq :: x) = (escape_for_strings s, c_dq :: x).
Proof.
  rewrite escape_for_strings_spec.
  induction s as [|c s IH]; [done|]. simpl.
  destruct (N.eqb_spec c c_bs) as [->|Hbs].
  { simpl. by rewrite IH. }
  destruct (N.eqb_spec c c_dq) as [->|Hdq].
  { simpl. by rewrite IH. }
  simpl. destruct (N.eqb_spec c c_dq); [done|]. destruct (N.eqb_spec c c_bs); [done|].
  by rewrite IH.
Qed.

Lemma scan_string_escaped s x :
  s ≠ [] ->
  scan_string (c_dq :: escape_for_strings s ++ c_dq :: x)
  = Some (escape_for_strings s, x).
Proof.
  intros Hs%escape_for_strings_nonempty. unfold scan_string.
  rewrite N.eqb_refl, scan_body_escaped.
  destruct (escape_for_strings s); [done|]. by rewrite N.eqb_refl.
Qed.

(** Escaping loses nothing: the decoder gives the text back. *)
Lemma escape_for_strings_inj a b :
  escape_for_strings a = escape_for_strings b -> a = b.
Proof.
  intros H. pose proof (decode_escaped cpython_excerpt a) as Ha.
  rewrite H, decode_escaped in Ha. congruence.
Qed.

Section RoundTrip.
Variable U : ucd.

Lemma scan_loc_line_strings_line k v :
  k ≠ [] -> v ≠ [] ->
  scan_loc_line U (strings_line k v)
  = Some (escape_for_strings k, escape_for_strings v).
Proof.
  intros Hk Hv. unfold scan_loc_line, strings_line.
  change (skip_space U (c_dq :: ?x)) with (c_dq :: x).
  pose proof (scan_string_escaped k (lit " = " ++
           c_dq :: escape_for_strings v ++ c_dq :: lit ";" ++ [c_nl]) Hk) as ->.
  change (Some ?x ≫= ?f) with (f x). cbv beta iota.
  change (scan_char U 61 (lit " = " ++ ?x)) with (Some (32%N :: x)).
  change (Some ?x ≫= ?f) with (f x). cbv beta iota.
  change (skip_space U (32%N :: c_dq :: ?x)) with (c_dq :: x).
  pose proof (scan_string_escaped v (lit ";" ++ [c_nl]) Hv) as ->.
  reflexivity.
Qed.

Lemma match_strings_line k v :
  k ≠ [] -> v ≠ [] ->
  exists m, Re.match_ (LOC_LINE_RE U) (strings_line k v) = Some m /\
    Re.group_ 1 m = escape_for_strings k /\ Re.group_ 2 m = escape_for_strings v.
Proof.
  intros Hk Hv. rewrite loc_line_scan, scan_loc_line_strings_line by done.
  eexists. split; [done|]. split; reflexivity.
Qed.

Lemma fold_parse_fst_inv l t k v :
  fst (fold_left (parse_line U) l t) !! k = Some v ->
  fst t !! k = Some v \/
  exists line m, line ∈ l /\ Re.match_ (LOC_LINE_RE U) line = Some m /\
    Re.group_ 1 m = k /\ Re.group_ 2 m = v.
Proof.
  revert t. induction l as [|line l IH]; intros t; simpl; [auto|].
  intros [H|(line' & m & Hin & Hm & Hg)]%IH.
  - destruct (Re.match_ (LOC_LINE_RE U) line) as [m|] eqn:Hm.
    + rewrite (parse_line_Some _ _ _ _ Hm) in H. simpl in H.
      apply lookup_insert_Some in H as [[<- <-]|[_ H]]; [|auto].
      right. exists line, m. split; [left|done].
    + rewrite parse_line_None in H by done. auto.
  - right. exists line', m. split; [by right|done].
Qed.

Lemma fold_parse_snd_inv l t v k :
  snd (fold_left (parse_line U) l t) !! v = Some k ->
  snd t !! v = Some k \/
  exists line m, line ∈ l /\ Re.match_ (LOC_LINE_RE U) line = Some m /\
    Re.group_ 1 m = k /\ Re.group_ 2 m = v.
Proof.
  revert t. induction l as [|line l IH]; intros t; simpl; [auto|].
  intros [H|(line' & m & Hin & Hm & Hg)]%IH.
  - destruct (Re.match_ (LOC_LINE_RE U) line) as [m|] eqn:Hm.
    + rewrite (parse_line_Some _ _ _ _ Hm) in H. simpl in H. unfold setdefault in H.
      destruct (snd t !! Re.group_ 2 m) eqn:E; [auto|].
      apply lookup_insert_Some in H as [[<- <-]|[_ H]]; [|auto].
      right. exists line, m. split; [left|done].
    + rewrite parse_line_None in H by done. auto.
  - right. exists line', m. split; [by right|done].
Qed.

(** Every key of a line is in the first table, every value in the second,
    whatever follows. *)
Lemma fold_parse_dom l t line m :
  line ∈ l -> Re.match_ (LOC_LINE_RE U) line = Some m ->
  is_Some (fst (fold_left (parse_line U) l t) !! Re.group_ 1 m) /\
  is_Some (snd (fold_left (parse_line U) l t) !! Re.group_ 2 m).
Proof.
  assert (forall l t k, is_Some (fst t !! k) ->
            is_Some (fst (fold_left (parse_line U) l t) !! k)) as Hfst.
  { clear. intros l. induction l as [|line l IH]; intros t k Hk; simpl; [done|].
    apply IH. unfold parse_line. destruct (Re.match_ _ line); [|done]. simpl.
    destruct (decide (Re.group_ 1 m = k)) as [->|Hne].
    - rewrite lookup_insert_eq. eauto.
    - by rewrite lookup_insert_ne. }
  assert (forall l t v, is_Some (snd t !! v) ->
            is_Some (snd (fold_left (parse_line U) l t) !! v)) as Hsnd.
  { clear. intros l t v [k Hk]. exists k. by apply fold_parse_value_kept. }
  revert t. induction l as [|line' l IH]; intros t Hin Hm; [by apply elem_of_nil in Hin|].
  simpl. apply elem_of_cons in Hin as [->|Hin]; [|by apply IH].
  rewrite (parse_line_Some _ _ _ _ Hm). split.
  - apply Hfst. simpl. rewrite lookup_insert_eq. eauto.
  - apply Hsnd. simpl. unfold setdefault.
    destruct (snd t !! Re.group_ 2 m) eqn:E; [rewrite E; eauto|].
    rewrite lookup_insert_eq. eauto.
Qed.

(** X10: what a parsed table holds comes from its lines: every entry of
    either map is the key and value of one matching line, keys and values
    are not empty, every value of the key map is a key of the value map,
    and every key that the value map gives is a key of the key map. *)
Theorem parse_lines_sound lines :
  (forall k v, fst (parse_lines U lines) !! k = Some v ->
     k ≠ [] /\ v ≠ [] /\ is_Some (snd (parse_lines U lines) !! v) /\
     exists line m, line ∈ lines /\ Re.match_ (LOC_LINE_RE U) line = Some m /\
       Re.group_ 1 m = k /\ Re.group_ 2 m = v) /\
  (forall v k, snd (parse_lines U lines) !! v = Some k ->
     k ≠ [] /\ v ≠ [] /\ k ∈ dom (fst (parse_lines U lines)) /\
     exists line m, line ∈ lines /\ Re.match_ (LOC_LINE_RE U) line = Some m /\
       Re.group_ 1 m = k /\ Re.group_ 2 m = v).
Proof.
  unfold parse_lines. split.
  - intros k v H.
    destruct (fold_parse_fst_inv lines (∅, ∅) k v H)
      as [H'|(line & m & Hin & Hm & <- & <-)].
    { simpl in H'. by rewrite lookup_empty in H'. }
    destruct (loc_line_groups_nonempty _ _ _ Hm) as [? ?].
    destruct (fold_parse_dom lines (∅, ∅) _ _ Hin Hm) as [_ Hs].
    split; [done|]. split; [done|]. split; [done|]. by exists line, m.
  - intros v k H.
    destruct (fold_parse_snd_inv lines (∅, ∅) v k H)
      as [H'|(line & m & Hin & Hm & <- & <-)].
    { simpl in H'. by rewrite lookup_empty in H'. }
    destruct (loc_line_groups_nonempty _ _ _ Hm) as [? ?].
    destruct (fold_parse_dom lines (∅, ∅) _ _ Hin Hm) as [Hf _].
    split; [done|]. split; [done|]. split; [by apply elem_of_dom|].
    by exists line, m.
Qed.
End RoundTrip.

Lemma one_line_escape s : one_line s -> one_line (escape_for_strings s).
Proof.
  intros [Hn Hr]. split; intros [?|[?|?]]%elem_of_escape_for_strings; done.
Qed.

Lemma read_lines_strings_line k v rest :
  one_line k -> one_line v ->
  read_lines [] (strings_line k v ++ rest) = strings_line k v :: read_lines [] rest.
Proof.
  intros [Hk1 Hk2]%one_line_escape [Hv1 Hv2]%one_line_escape.
  unfold strings_line.
  set (body := c_dq :: escape_for_strings k ++ c_dq :: lit " = "
                 ++ c_dq :: escape_for_strings v ++ c_dq :: lit ";").
  assert (forall x, c_dq :: escape_for_strings k ++ c_dq :: lit " = "
            ++ c_dq :: escape_for_strings v ++ c_dq :: lit ";" ++ x = body ++ x) as E.
  { intros x. unfold body. by simplify_list_eq. }
  rewrite !E, <- app_assoc. change ([c_nl] ++ rest) with (c_nl :: rest).
  rewrite read_lines_line; [done| |].
  all: unfold body; change (lit " = ") with [32; 61; 32]%N; change (lit ";") with [59]%N.
  all: intros H; apply elem_of_cons in H as [H|H]; [done|].
  all: apply elem_of_app in H as [H|H]; [done|].
  all: do 5 (apply elem_of_cons in H as [H|H]; [done|]).
  all: apply elem_of_app in H as [H|H]; [done|].
  all: do 2 (apply elem_of_cons in H as [H|H]; [done|]).
  all: by apply elem_of_nil in H.
Qed.

Lemma read_lines_strings (f : list N -> list N) ks :
  (forall k, k ∈ ks -> one_line k /\ one_line (f k)) ->
  read_lines [] (flat_map (fun k => strings_line k (f k)) ks)
  = map (fun k => strings_line k (f k)) ks.
Proof.
  induction ks as [|k ks IH]; intros H; [done|]. cbn [flat_map map].
  destruct (H k) as [? ?]; [left|].
  rewrite read_lines_strings_line by done. f_equal. apply IH.
  intros k' Hk'. apply H. by right.
Qed.

Section WriteThenParse.
Variable U : ucd.

Lemma fold_strings_lines (f : list N -> list N) ks t k :
  NoDup ks -> (forall k, k ∈ ks -> k ≠ [] /\ f k ≠ []) -> k ∈ ks ->
  fst (fold_left (parse_line U) (map (fun k => strings_line k (f k)) ks) t)
    !! escape_for_strings k = Some (escape_for_strings (f k)) /\
  is_Some (snd (fold_left (parse_line U) (map (fun k => strings_line k (f k)) ks) t)
    !! escape_for_strings (f k)).
Proof.
  intros Hnd Hne Hk.
  destruct (match_strings_line U k (f k)) as (m & Hm & Hg1 & Hg2);
    [by apply Hne..|].
  split.
  - apply list_elem_of_split in Hk as (ks1 & ks2 & ->).
    rewrite map_app, fold_left_app. simpl.
    rewrite fold_parse_key.
    + rewrite (parse_line_Some _ _ _ _ Hm). simpl. rewrite Hg1, Hg2.
      apply lookup_insert_eq.
    + intros line m' (k' & -> & Hk')%list_elem_of_fmap Hm'.
      destruct (match_strings_line U k' (f k')) as (m2 & Hm2 & Hg & _).
      { apply Hne. rewrite elem_of_app, elem_of_cons. auto. }
      { apply Hne. rewrite elem_of_app, elem_of_cons. auto. }
      rewrite Hm' in Hm2. injection Hm2 as <-. rewrite Hg.
      intros ->%escape_for_strings_inj.
      apply NoDup_app in Hnd as (_ & _ & Hnd). apply NoDup_cons in Hnd as [Hnd _].
      done.
  - rewrite <- Hg2. eapply fold_parse_dom; [|done].
    apply list_elem_of_fmap. by exists k.
Qed.

Lemma write_then_parse (fs fs' : gmap string node) (path : string)
    (key_to_val additions : gmap (list N) (list N)) :
  additions ≠ ∅ ->
  (forall k v, additions !! k = Some v ->
     k ≠ [] /\ v ≠ [] /\ one_line k /\ one_line v) ->
  write_strings fs path key_to_val additions = (fs', Ok tt) ->
  exists key_to_val' val_to_key',
    parse_localizable U fs' (Some path) = Ok (key_to_val', val_to_key') /\
    (forall k v, additions !! k = Some v ->
       key_to_val' !! escape_for_strings k = Some (escape_for_strings v) /\
       is_Some (val_to_key' !! escape_for_strings v)) /\
    (forall k v, additions !! k = Some v ->
       c_bs ∉ k -> c_dq ∉ k -> c_bs ∉ v -> c_dq ∉ v ->
       key_to_val' !! k = Some v) /\
    (fs !! path = None ->
     forall k' v', key_to_val' !! k' = Some v' ->
       exists k v, additions !! k = Some v /\
         k' = escape_for_strings k /\ v' = escape_for_strings v).
Proof.
  intros Hne Hadd. unfold write_strings. destruct (decide (additions = ∅)); [done|].
  set (f := fun k => default [] (additions !! k)).
  destruct (sorted_keys_spec additions) as (_ & Hnd & Hks).
  assert (forall k, k ∈ sorted_keys additions -> additions !! k = Some (f k)) as Hf.
  { intros k [v Hv]%Hks. unfold f. by rewrite Hv. }
  set (old := match fs !! path with Some (RegularFile t) => t | _ => [] end).
  set (sep := match old with [] => [] | _ => [c_nl] end).
  assert (exists L0, (fs !! path = None -> L0 = []) /\
            read_lines [] (old ++ sep ++
              flat_map (fun k => strings_line k (f k)) (sorted_keys additions))
            = L0 ++ map (fun k => strings_line k (f k)) (sorted_keys additions))
    as (L0 & HL0 & Hlines).
  { assert (read_lines [] (flat_map (fun k => strings_line k (f k))
                             (sorted_keys additions))
            = map (fun k => strings_line k (f k)) (sorted_keys additions)) as E.
    { apply read_lines_strings. intros k Hk%Hf.
      destruct (Hadd _ _ Hk) as (_ & _ & ? & ?). by split. }
    subst sep. destruct old as [|c old'] eqn:Eold.
    - exists []. split; [done|]. exact E.
    - exists (read_lines [] ((c :: old') ++ [c_nl])). split.
      + intros Hnone. subst old. by rewrite Hnone in Eold.
      + rewrite <- E. change ([c_nl] ++ ?x) with (c_nl :: x).
        apply read_lines_app_nl. }
  assert (fs' = <[path := RegularFile (old ++ sep ++
            flat_map (fun k => strings_line k (f k)) (sorted_keys additions))]> fs ->
          exists key_to_val' val_to_key',
            parse_localizable U fs' (Some path) = Ok (key_to_val', val_to_key') /\
            (forall k v, additions !! k = Some v ->
               key_to_val' !! escape_for_strings k = Some (escape_for_strings v) /\
               is_Some (val_to_key' !! escape_for_strings v)) /\
            (fs !! path = None ->
             forall k' v', key_to_val' !! k' = Some v' ->
               exists k v, additions !! k = Some v /\
                 k' = escape_for_strings k /\ v' = escape_for_strings v)) as Hmain.
  { intros ->. unfold parse_localizable. rewrite lookup_insert_eq, Hlines.
    rewrite parse_lines_app.
    destruct (fold_left _ _ _) as [ktv vtk] eqn:E. exists ktv, vtk.
    split; [done|]. split.
    - intros k v Hkv.
      assert (k ∈ sorted_keys additions) as Hk by (apply Hks; eauto).
      destruct (fold_strings_lines f (sorted_keys additions) (parse_lines U L0) k)
        as [H1 H2]; [done| |done|].
      { intros k' Hk'%Hf. destruct (Hadd _ _ Hk') as (? & ? & _). done. }
      rewrite E in H1, H2. simpl in H1, H2.
      assert (f k = v) as <- by (unfold f; by rewrite Hkv). done.
    - intros Hnone k' v' Hkv. rewrite (HL0 Hnone) in E.
      destruct (fold_parse_fst_inv U
                  (map (fun k => strings_line k (f k)) (sorted_keys additions))
                  (parse_lines U []) k' v')
        as [H|(line & m & Hin & Hm & <- & <-)].
      { rewrite E. exact Hkv. }
      { simpl in H. by rewrite lookup_empty in H. }
      apply list_elem_of_fmap in Hin as (k & -> & Hk).
      pose proof (Hf _ Hk) as Hkf. destruct (Hadd _ _ Hkf) as (? & ? & _).
      destruct (match_strings_line U k (f k)) as (m2 & Hm2 & Hg1 & Hg2); [done..|].
      rewrite Hm in Hm2. injection Hm2 as <-. exists k, (f k). done. }
  intros Hw.
  assert (fs' = <[path := RegularFile (old ++ sep ++
            flat_map (fun k => strings_line k (f k)) (sorted_keys additions))]> fs)
    as Hfs'.
  { revert Hw. subst sep old. destruct (fs !! path) as [[t|]|]; [| done |].
    all: destruct (write_lines _ _ _) as [text r] eqn:E; intros [= <- ->];
      apply write_lines_returned in E as ->; by rewrite <- app_assoc. }
  destruct (Hmain Hfs') as (ktv & vtk & Hp & H1 & H2).
  exists ktv, vtk. split; [done|]. split; [done|]. split; [|done].
  intros k v Hkv ? ? ? ?. destruct (H1 _ _ Hkv) as [Hl _].
  by rewrite !escape_for_strings_id in Hl.
Qed.
(** X11: parsing the table that [write_strings] wrote finds every addition,
    under its escaped key and with its escaped value, when keys and values
    are not empty and have no line terminator; so an addition without
    quote and backslash is found as it is.  Written to a new file, the
    table holds nothing else. *)
Theorem write_strings_then_parse (fs fs' : gmap string node) (path : string)
    (key_to_val additions : gmap (list N) (list N)) :
  additions ≠ ∅ ->
  (forall k v, additions !! k = Some v ->
     k ≠ [] /\ v ≠ [] /\ one_line k /\ one_line v) ->
  write_strings fs path key_to_val additions = (fs', Ok tt) ->
  exists key_to_val' val_to_key',
    parse_localizable U fs' (Some path) = Ok (key_to_val', val_to_key') /\
    (forall k v, additions !! k = Some v ->
       key_to_val' !! escape_for_strings k = Some (escape_for_strings v) /\
       is_Some (val_to_key' !! escape_for_strings v)) /\
    (forall k v, additions !! k = Some v ->
       c_bs ∉ k -> c_dq ∉ k -> c_bs ∉ v -> c_dq ∉ v ->
       key_to_val' !! k = Some v) /\
    (fs !! path = None ->
     forall k' v', key_to_val' !! k' = Some v' ->
       exists k v, additions !! k = Some v /\
         k' = escape_for_strings k /\ v' = escape_for_strings v).
Proof. apply write_then_parse. Qed.
End WriteThenParse.

(** ** The loop of [main] *)

Section MainFacts.
Variable U : ucd.

Lemma recount_Ok cands t :
  Forall (decodes U) cands ->
  recount U cands t
  = Ok (Tallies (changed_files t)
          (touched_literals t + replaced U cands)
          (skipped_literals t + length (List.filter (skipped U) cands))).
Proof.
  unfold replaced. intros H. revert t. induction H as [|m cands [l Hl] _ IH]; intros t.
  - simpl. destruct t. simpl. by rewrite !Nat.add_0_r.
  - assert (skipped U m = should_skip_literal l) as E.
    { unfold skipped. by rewrite Hl. }
    cbn [recount List.filter]. rewrite Hl, E.
    unfold mbind, result_bind. destruct (should_skip_literal l); rewrite IH; simpl;
      f_equal; f_equal; lia.
Qed.

Lemma main_state_eta s : MainState (m_store s) (m_tallies s) (m_written s) = s.
Proof. by destruct s. Qed.

(** What the body of the loop does, case by case. *)
Lemma main_file_cases dry f s s' :
  keys_clean (val_to_key (m_store s)) ->
  main_file U dry f s = Ok s' ->
  let cands := finditer (TEXT_CALL_RE U) (sf_content f) in
  if ends_with (lit ".swift") (sf_name f) && negb (forallb (skipped U) cands)
  then exists new,
    process_swift U (sf_content f) (m_store s) = Ok (new, m_store s') /\
    new ≠ sf_content f /\
    m_tallies s' = Tallies (S (changed_files (m_tallies s)))
                     (touched_literals (m_tallies s) + replaced U cands)
                     (skipped_literals (m_tallies s)
                      + length (List.filter (skipped U) cands)) /\
    m_written s' = if dry then m_written s else m_written s ++ [(sf_rel f, new)]
  else s' = s.
Proof.
  intros Hclean. unfold main_file.
  destruct (ends_with (lit ".swift") (sf_name f)); simpl; [|by intros [= <-]].
  destruct (finditer (TEXT_CALL_RE U) (sf_content f)) as [|m cands] eqn:Hc.
  { by intros [= <-]. }
  rewrite <- Hc. clear m cands Hc. unfold mbind at 1, result_bind.
  destruct (process_swift U (sf_content f) (m_store s)) as [[new st]|] eqn:Hrun; [|done].
  destruct (process_swift_unchanged U _ _ _ _ Hclean Hrun) as [Hiff Hst].
  destruct (decide (new = sf_content f)) as [Heq|Hne].
  - intros [= <-]. rewrite (proj1 Hiff Heq). simpl. rewrite (Hst Heq).
    apply main_state_eta.
  - destruct (forallb (skipped U) _) eqn:Hall; [by destruct Hne; apply Hiff|].
    simpl. rewrite recount_Ok; cycle 1.
    { apply (process_swift_Ok_iff U _ (m_store s)). eauto. }
    simpl. intros [= <-]. simpl. eauto.
Qed.

Lemma main_file_Ok_iff dry f s :
  (exists s', main_file U dry f s = Ok s') <->
  (ends_with (lit ".swift") (sf_name f) = true ->
   Forall (decodes U) (finditer (TEXT_CALL_RE U) (sf_content f))).
Proof.
  unfold main_file.
  destruct (ends_with (lit ".swift") (sf_name f)); simpl; [|split; [done|eauto]].
  pose proof (process_swift_Ok_iff U (sf_content f) (m_store s)) as Hiff.
  destruct (finditer (TEXT_CALL_RE U) (sf_content f)) as [|m cands] eqn:Hc.
  { split; [constructor|eauto]. }
  rewrite <- Hc in *. clear m cands Hc. unfold mbind at 1, result_bind.
  destruct (process_swift U (sf_content f) (m_store s)) as [[new st]|] eqn:Hrun.
  - assert (Forall (decodes U) (finditer (TEXT_CALL_RE U) (sf_content f))) as Hd.
    { apply Hiff. eauto. }
    split; [done|]. intros _. destruct (decide (new = sf_content f)); [eauto|].
    rewrite recount_Ok by done. simpl. eauto.
  - split; [by intros [? ?]|]. intros H. apply Hiff in H as (? & ? & ?); [done|done].
Qed.

(** X12: the loop returns exactly when, in every file whose name ends in
    .swift, the literal of every candidate decodes. *)
Theorem main_loop_returns_iff dry files s :
  (exists s', main_loop U dry files s = Ok s') <->
  Forall (fun f => ends_with (lit ".swift") (sf_name f) = true ->
            Forall (decodes U) (finditer (TEXT_CALL_RE U) (sf_content f))) files.
Proof.
  revert s. induction files as [|f files IH]; intros s; simpl.
  { split; [constructor|eauto]. }
  rewrite Forall_cons, <- (main_file_Ok_iff dry f s), <- (IH s).
  unfold mbind, result_bind. destruct (main_file U dry f s) as [s1|] eqn:E.
  - split.
    + intros H. split; [eauto|]. apply IH. by apply IH in H.
    + intros [_ H]. apply IH. by apply IH in H.
  - split; [by intros [? ?]|]. by intros [[? ?] _].
Qed.

(** X14: a file that a run has rewritten is left alone by a later run: with
    clean keys in the reuse map of the first run, the body of the loop on
    the rewritten text changes no state, whatever the state. *)
Theorem main_file_rerun content st new st1 dry name rel s2 :
  keys_clean (val_to_key st) ->
  process_swift U content st = Ok (new, st1) ->
  main_file U dry (SourceFile name rel new) s2 = Ok s2.
Proof.
  intros Hclean Hrun.
  destruct (second_pass U (length content) content st new st1) as [_ H]; [done..|].
  unfold main_file. simpl. destruct (negb _); [done|].
  destruct (finditer _ new); [done|].
  rewrite H. simpl. rewrite decide_True by done. by rewrite main_state_eta.
Qed.
End MainFacts.

Section NewKeys.
Variable U : ucd.

Lemma replaced_cons m cands :
  replaced U (m :: cands)
  = if skipped U m then replaced U cands else S (replaced U cands).
Proof. unfold replaced. simpl. by destruct (skipped U m). Qed.

Lemma process_swift_additions_count s st out st' :
  process_swift U s st = Ok (out, st') ->
  dom (additions st) ⊆ existing_keys st ->
  dom (additions st') ⊆ existing_keys st' /\
  size (additions st') <= size (additions st) + replaced U (finditer (TEXT_CALL_RE U) s) /\
  (val_to_key st = ∅ ->
   size (additions st') = size (additions st) + replaced U (finditer (TEXT_CALL_RE U) s)).
Proof.
  revert st out st'.
  induction s as [|c s Hm IH|s m Hm IH] using (text_scan_ind U); intros st out st'.
  - intros [= <- <-] Hdom. unfold replaced. simpl. split; [done|]. split; lia.
  - rewrite (process_swift_plain _ _ _ _ Hm), (finditer_plain _ _ _ Hm).
    destruct (process_swift U s st) as [[out1 st1]|] eqn:E; [|done].
    intros [= <- <-]. by apply IH with out1.
  - rewrite (process_swift_call _ _ _ _ Hm), (finditer_call _ _ _ Hm).
    destruct (repl U m st) as [[new st1]|] eqn:Hr; [|done].
    destruct (process_swift U (Re.m_rest m) st1) as [[out1 st2]|] eqn:E; [|done].
    intros [= <- <-] Hdom. rewrite replaced_cons.
    destruct (repl_cases _ _ _ _ _ Hr)
      as [(-> & -> & ->)|(-> & literal & key & _ & -> & _ & Hcase)].
    { by apply IH with out1. }
    destruct Hcase as [(Hv & _ & ->)|(_ & _ & Hfresh & ->)].
    + destruct (IH _ _ _ E Hdom) as (Hd & Hle & Heq). split; [done|]. split; [lia|].
      intros Hemp. rewrite Hemp, lookup_empty in Hv. done.
    + assert (additions st !! key = None) as Hnone.
      { apply not_elem_of_dom. intros Hk. apply Hfresh. by apply Hdom. }
      assert (setdefault key literal (additions st) = <[key := literal]> (additions st))
        as Hset by (unfold setdefault; by rewrite Hnone).
      destruct (IH _ _ _ E) as (Hd & Hle & Heq).
      { simpl. rewrite Hset, dom_insert. by apply union_mono_l. }
      simpl in Hle, Heq. rewrite Hset, map_size_insert_None in Hle, Heq by done.
      split; [done|]. split; [lia|]. intros Hemp. rewrite (Heq Hemp). lia.
Qed.

(** X15: after the loop, the additions have grown by at most the number of
    replaced occurrences that it has counted; by exactly that number when
    the reuse map is empty (no table was given). *)
Theorem main_loop_new_keys dry files s s' :
  keys_clean (val_to_key (m_store s)) ->
  dom (additions (m_store s)) ⊆ existing_keys (m_store s) ->
  main_loop U dry files s = Ok s' ->
  size (additions (m_store s')) + touched_literals (m_tallies s)
    <= size (additions (m_store s)) + touched_literals (m_tallies s') /\
  (val_to_key (m_store s) = ∅ ->
   size (additions (m_store s')) + touched_literals (m_tallies s)
   = size (additions (m_store s)) + touched_literals (m_tallies s')).
Proof.
  revert s. induction files as [|f files IH]; intros s Hclean Hdom; simpl.
  { intros [= <-]. split; [lia|]. intros _; lia. }
  unfold mbind, result_bind.
  destruct (main_file U dry f s) as [s1|] eqn:Hf; [|done]. intros Hloop.
  pose proof (main_file_cases U dry f s s1 Hclean Hf) as Hcase. simpl in Hcase.
  destruct (ends_with _ _ && negb _).
  - destruct Hcase as (new & Hrun & _ & Ht & _).
    destruct (process_swift_additions_count _ _ _ _ Hrun Hdom) as (Hd1 & Hle & Heq).
    pose proof (process_swift_store_rel U _ _ _ _ Hrun) as (Hv & _).
    destruct (IH s1) as [Hle' Heq']; [by rewrite Hv|done|done|].
    rewrite Ht in Hle', Heq'. simpl in Hle', Heq'. split; [lia|].
    intros Hemp. rewrite Hv in Heq'. specialize (Heq Hemp). specialize (Heq' Hemp). lia.
  - subst s1. by apply IH.
Qed.

(** X16: what the body of the loop does for one file, with clean keys in the
    reuse map.  A file whose name does not end in .swift, or whose
    candidates are all skipped (none at all included), changes nothing:
    no counter moves, nothing is written.  Any other file counts as
    changed, adds its replaced and its skipped candidates to the counters,
    and its rewritten text is written unless the run is a dry run. *)
Theorem main_file_outcome dry f s s' :
  keys_clean (val_to_key (m_store s)) ->
  main_file U dry f s = Ok s' ->
  let cands := finditer (TEXT_CALL_RE U) (sf_content f) in
  if ends_with (lit ".swift") (sf_name f) && negb (forallb (skipped U) cands)
  then exists new,
    process_swift U (sf_content f) (m_store s) = Ok (new, m_store s') /\
    new ≠ sf_content f /\
    m_tallies s' = Tallies (S (changed_files (m_tallies s)))
                     (touched_literals (m_tallies s) + replaced U cands)
                     (skipped_literals (m_tallies s)
                      + length (List.filter (skipped U) cands)) /\
    m_written s' = if dry then m_written s else m_written s ++ [(sf_rel f, new)]
  else s' = s.
Proof. apply main_file_cases. Qed.
End NewKeys.

(** ** The shape of keys *)

Lemma dot_pair_cons c l : dot_pair l -> dot_pair (c :: l).
Proof. intros (a & b & ->). by exists (c :: a), b. Qed.

Lemma dot_pair_cons_inv c l :
  dot_pair (c :: l) -> (c = c_dot /\ head l = Some c_dot) \/ dot_pair l.
Proof.
  intros ([|d a] & b & H); simplify_eq/=; [by left|].
  right. by exists a, b.
Qed.

Lemma dot_pair_app_l a b : dot_pair a -> dot_pair (a ++ b).
Proof. intros (x & y & ->). exists x, (y ++ b). by simplify_list_eq. Qed.

Lemma dot_pair_app_r a b : dot_pair b -> dot_pair (a ++ b).
Proof. intros (x & y & ->). exists (a ++ x), y. by simplify_list_eq. Qed.

Lemma rstrip_split p s : exists w, s = rstrip p s ++ w.
Proof.
  induction s as [|c s [w Hw]]; simpl; [by exists []|].
  destruct (rstrip p s) as [|d r].
  - destruct (p c); [by exists (c :: s)|]. exists s. done.
  - exists w. simpl in *. by f_equal.
Qed.

Lemma dot_pair_strip p l : dot_pair (strip p l) -> dot_pair l.
Proof.
  unfold strip. intros H.
  destruct (lstrip_split p l) as (w & Hl & _).
  destruct (rstrip_split p (lstrip p l)) as [w' Hr].
  rewrite Hl, Hr. by apply dot_pair_app_r, dot_pair_app_l.
Qed.

Lemma dot_pair_take n l : dot_pair (take n l) -> dot_pair l.
Proof. intros H. rewrite <- (take_drop n l). by apply dot_pair_app_l. Qed.

Lemma head_lstrip p s c : head (lstrip p s) = Some c -> p c = false.
Proof.
  induction s as [|d s IH]; simpl; [done|].
  destruct (p d) eqn:Hd; [done|]. simpl. by intros [= <-].
Qed.

Lemma head_rstrip p s c : head (rstrip p s) = Some c -> head s = Some c.
Proof.
  destruct s as [|d s]; simpl; [done|].
  destruct (rstrip p s); [by destruct (p d)|done].
Qed.

Lemma head_strip p s c : head (strip p s) = Some c -> p c = false.
Proof. unfold strip. by intros H%head_rstrip%head_lstrip. Qed.

Section SlugShape.
Variable U : ucd.

Lemma slug_loop_head s : head (slug_loop U true s) ≠ Some c_dot.
Proof.
  induction s as [|c s IH]; simpl; [done|].
  destruct (isalnum U c) eqn:Hc; [|done]. simpl. by intros [= ->].
Qed.

Lemma slug_loop_no_dot_pair b s : ~ dot_pair (slug_loop U b s).
Proof.
  revert b. induction s as [|c s IH]; intros b; simpl.
  { by intros ([|? ?] & ? & ?). }
  destruct (isalnum U c) eqn:Hc.
  - intros [[-> _]|H]%dot_pair_cons_inv; [done|by eapply IH].
  - destruct b; [apply IH|].
    intros [[_ H]|H]%dot_pair_cons_inv; [by eapply slug_loop_head|by eapply IH].
Qed.

Lemma slugify_key_shape s :
  slugify_key U s ≠ [] /\
  head (slugify_key U s) ≠ Some c_dot /\
  ~ dot_pair (slugify_key U s).
Proof.
  unfold slugify_key.
  set (key0 := strip is_dot (slug_loop U false (normalized U s))).
  set (key := if decide (key0 = []) then lit "text" else key0).
  assert (key ≠ [] /\ head key ≠ Some c_dot /\ ~ dot_pair key) as (Hne & Hhead & Hpair).
  { unfold key. destruct (decide (key0 = [])) as [_|Hne].
    - split; [done|]. split; [done|].
      intros (a & b & H). apply (f_equal (fun l => c_dot ∈ l)) in H.
      assert (c_dot ∈ a ++ c_dot :: c_dot :: b) as Hin.
      { rewrite elem_of_app, elem_of_cons. auto. }
      rewrite <- H in Hin. vm_compute in Hin.
      repeat (apply elem_of_cons in Hin as [Hin|Hin]; [done|]).
      by apply elem_of_nil in Hin.
    - split; [done|]. split.
      + by intros H%head_strip.
      + intros H%dot_pair_strip. by eapply slug_loop_no_dot_pair. }
  destruct (decide (60 < length key)) as [Hlong|_]; [|done].
  destruct key as [|c key']; [done|]. simpl in *.
  assert (is_dot c = false) as Hc.
  { unfold is_dot. apply N.eqb_neq. intros ->. done. }
  split; [|split].
  - unfold strip. cbn [lstrip]. rewrite Hc. simpl.
    destruct (rstrip is_dot (take 59 key')); [by rewrite Hc|done].
  - by intros H%head_strip.
  - intros H%dot_pair_strip. apply Hpair. by apply (dot_pair_take 60).
Qed.
End SlugShape.

Lemma slug_char_spec c :
  slug_char c = true ->
  is_ascii c = true /\ ascii_isspace c = false /\ ascii_lower c = c /\
  (c = c_dot \/ ascii_isalnum c = true).
Proof.
  unfold slug_char, is_ascii, ascii_isspace, ascii_lower, ascii_isalnum, between, c_dot.
  intros H.
  destruct (N.eqb_spec c 46) as [E|Hne]; [subst c; by auto|]. simpl in H.
  repeat match goal with
         | |- context [N.leb ?a ?b] => destruct (N.leb_spec a b)
         | |- context [N.ltb ?a ?b] => destruct (N.ltb_spec a b)
         | H : context [N.leb ?a ?b] |- _ => destruct (N.leb_spec a b)
         end; simpl in *; try done; try lia; auto.
Qed.

(** Lowering an ASCII code point that [str.isalnum] accepts gives a small
    letter or a digit. *)
Lemma ascii_lower_slug_char d :
  is_ascii d = true -> ascii_isalnum (ascii_lower d) = true ->
  slug_char (ascii_lower d) = true.
Proof.
  unfold slug_char, is_ascii, ascii_lower, ascii_isalnum, between, c_dot.
  intros Ha.
  destruct (N.leb_spec 65 d), (N.leb_spec d 90); simpl.
  all: repeat match goal with
         | |- context [N.leb ?a ?b] => destruct (N.leb_spec a b)
         | |- context [N.eqb ?a ?b] => destruct (N.eqb_spec a b)
         end; simpl in *; try done; try lia.
Qed.

Lemma forallb_elem_of {A} (p : A -> bool) (l : list A) :
  forallb p l = true <-> forall x, x ∈ l -> p x = true.
Proof.
  rewrite forallb_forall. split; intros H x Hx; apply H; by apply list_elem_of_In.
Qed.

Section SlugAscii.
Variable U : ucd.

Lemma normalized_ascii s :
  forallb is_ascii s = true ->
  normalized U s = map ascii_lower (strip (isspace U) s).
Proof.
  intros Hs. unfold normalized, lower, nfkd.
  assert (forallb is_ascii (strip (isspace U) s) = true) as H1.
  { apply forallb_elem_of. intros c Hc%elem_of_strip.
    by apply (proj1 (forallb_elem_of _ _) Hs). }
  rewrite H1.
  assert (forallb is_ascii (map ascii_lower (strip (isspace U) s)) = true) as ->; [|done].
  apply forallb_elem_of. intros c (d & -> & Hd)%list_elem_of_fmap.
  apply (proj1 (forallb_elem_of _ _) H1) in Hd. revert Hd.
  unfold is_ascii, ascii_lower, between.
  destruct (N.leb_spec 65 d), (N.leb_spec d 90); simpl; try done.
  intros _. apply N.ltb_lt. lia.
Qed.

Lemma slug_loop_id b k :
  forallb slug_char k = true -> ~ dot_pair k ->
  (b = true -> head k ≠ Some c_dot) ->
  slug_loop U b k = k.
Proof.
  revert b. induction k as [|c k IH]; intros b Hk Hpair Hhead; [done|].
  simpl in Hk. apply andb_prop in Hk as [Hc Hk].
  destruct (slug_char_spec c Hc) as (Ha & _ & _ & Hcase).
  assert (~ dot_pair k) as Hpair' by (intros H; by apply Hpair, dot_pair_cons).
  cbn [slug_loop]. unfold isalnum. rewrite Ha.
  destruct Hcase as [-> | ->].
  - change (ascii_isalnum c_dot) with false.
    destruct b; [by destruct Hhead|].
    rewrite (IH true); [done..|]. intros _ Hd. apply Hpair.
    exists [], (tail k). destruct k; simplify_eq/=. done.
  - by rewrite (IH false).
Qed.

(** A well-formed key is its own key. *)
Lemma slugify_key_fixed k :
  forallb slug_char k = true -> k ≠ [] ->
  head k ≠ Some c_dot -> last k ≠ Some c_dot -> ~ dot_pair k ->
  length k <= 60 ->
  slugify_key U k = k.
Proof.
  intros Hk Hne Hhead Hlast Hpair Hlen.
  pose proof (proj1 (forallb_elem_of _ _) Hk) as Hin.
  assert (forallb is_ascii k = true) as Ha.
  { apply forallb_elem_of. intros c Hc. by apply slug_char_spec, Hin. }
  assert (strip (isspace U) k = k) as Hstrip.
  { assert (forall c, c ∈ k -> isspace U c = false) as Hsp.
    { intros c Hc. destruct (slug_char_spec c (Hin c Hc)) as (Hasc & Hs & _).
      unfold isspace. by rewrite Hasc. }
    unfold strip. rewrite lstrip_id; [apply rstrip_id|].
    - intros c Hc%last_Some_elem_of. auto.
    - intros c Hc%head_Some_elem_of. auto. }
  assert (normalized U k = k) as Hnorm.
  { rewrite normalized_ascii, Hstrip by done.
    clear -Hin. induction k as [|c k IH]; [done|]. simpl. f_equal.
    - apply slug_char_spec, Hin. left.
    - apply IH. intros x Hx. apply Hin. by right. }
  unfold slugify_key. rewrite Hnorm, slug_loop_id by done.
  assert (strip is_dot k = k) as ->.
  { unfold strip. rewrite lstrip_id; [apply rstrip_id|].
    - intros c Hc. unfold is_dot. apply N.eqb_neq. by intros ->.
    - intros c Hc. unfold is_dot. apply N.eqb_neq. by intros ->. }
  cbv zeta. destruct (decide (k = [])); [done|].
  destruct (decide (60 < length k)); [lia|done].
Qed.

Lemma slugify_key_slug_chars s :
  forallb is_ascii s = true -> forallb slug_char (slugify_key U s) = true.
Proof.
  intros Hs. apply forallb_elem_of. intros c. unfold slugify_key.
  set (key0 := strip is_dot (slug_loop U false (normalized U s))).
  assert (forall c, c ∈ key0 -> slug_char c = true) as H0.
  { intros d Hd%elem_of_strip. apply elem_of_slug_loop in Hd as [->|[Hal Hd]]; [done|].
    rewrite normalized_ascii in Hd by done.
    apply list_elem_of_fmap in Hd as (x & -> & Hx%elem_of_strip).
    apply (proj1 (forallb_elem_of _ _) Hs) in Hx.
    apply ascii_lower_slug_char; [done|]. revert Hal. unfold isalnum.
    assert (is_ascii (ascii_lower x) = true) as ->; [|done].
    revert Hx. unfold is_ascii, ascii_lower, between.
    destruct (N.leb_spec 65 x), (N.leb_spec x 90); simpl; try done.
    intros _. apply N.ltb_lt. lia. }
  destruct (decide (key0 = [])) as [E|E].
  { assert (forall c, c ∈ lit "text" -> slug_char c = true) as Ht.
    { apply forallb_elem_of. reflexivity. }
    destruct (decide (60 < length (lit "text"))); [|by apply Ht].
    intros Hc%elem_of_strip. apply Ht. by apply (subseteq_take 60). }
  destruct (decide (60 < length key0)); [|by apply H0].
  intros Hc%elem_of_strip. apply H0. by apply (subseteq_take 60).
Qed.
End SlugAscii.

Section SlugTheorems.
Variable U : ucd.

(** X17: a key is never empty, does not begin with a dot, and has no two
    dots in a row. *)
Theorem slugify_key_well_formed s :
  slugify_key U s ≠ [] /\
  head (slugify_key U s) ≠ Some c_dot /\
  (forall a b, slugify_key U s ≠ a ++ c_dot :: c_dot :: b).
Proof.
  destruct (slugify_key_shape U s) as (Hne & Hhead & Hpair).
  split; [done|]. split; [done|]. intros a b H. apply Hpair. by exists a, b.
Qed.

(** X18: the key of an ASCII text is made of small letters, digits and dots,
    and is its own key. *)
Theorem slugify_key_ascii s :
  forallb is_ascii s = true ->
  Forall (fun c => c = c_dot \/ between 48 57 c = true \/ between 97 122 c = true)
    (slugify_key U s) /\
  slugify_key U (slugify_key U s) = slugify_key U s.
Proof.
  intros Hs. pose proof (slugify_key_slug_chars U s Hs) as Hk. split.
  - apply Forall_forall. intros c Hc.
    apply (proj1 (forallb_elem_of _ _) Hk) in Hc. unfold slug_char in Hc.
    apply orb_prop in Hc as [Hc|Hc]; [|by right; right].
    apply orb_prop in Hc as [Hc%N.eqb_eq|Hc]; auto.
  - destruct (slugify_key_shape U s) as (Hne & Hhead & Hpair).
    destruct (slugify_key_bound U s) as [Hlen Hlast].
    by apply slugify_key_fixed.
Qed.
End SlugTheorems.

(** ** A second run, seeded with the table of the first *)

Lemma uint_digits_digit d c : c ∈ uint_digits d -> between 48 57 c = true.
Proof.
  induction d; simpl; try (by intros ?%elem_of_nil);
    intros [->|H]%elem_of_cons; auto.
Qed.

Section Rerun.
Variable U : ucd.

Lemma slug_like_plain k :
  slug_like U k ->
  k ≠ [] /\ one_line k /\ (c_bs ∉ k) /\ (c_dq ∉ k).
Proof.
  intros [Hne Hk]. split; [done|].
  assert (forall c, c ∈ k -> c ≠ c_nl /\ c ≠ c_cr /\ c ≠ c_bs /\ c ≠ c_dq) as H.
  { intros c [->|Hc]%Hk; [done|].
    repeat split; intros ->; discriminate Hc. }
  split; [split|split]; intros Hc; apply H in Hc; tauto.
Qed.

Lemma slugify_key_chars s c :
  c ∈ slugify_key U s -> c = c_dot \/ isalnum U c = true.
Proof.
  unfold slugify_key.
  set (key0 := strip is_dot (slug_loop U false (normalized U s))).
  assert (forall c, c ∈ key0 -> c = c_dot \/ isalnum U c = true) as H0.
  { intros d Hd%elem_of_strip. apply elem_of_slug_loop in Hd as [->|[? _]]; auto. }
  set (key := if decide (key0 = []) then lit "text" else key0).
  assert (forall c, c ∈ key -> c = c_dot \/ isalnum U c = true) as H1.
  { unfold key. destruct (decide (key0 = [])); [|done].
    intros d Hd. right. change (lit "text") with [116; 101; 120; 116]%N in Hd.
    repeat (apply elem_of_cons in Hd as [->|Hd]; [reflexivity|]).
    by apply elem_of_nil in Hd. }
  destruct (decide (60 < length key)); [|by apply H1].
  intros Hc%elem_of_strip. apply H1. by apply (subseteq_take 60).
Qed.

Lemma generate_unique_key_slug_like literal keys key ks :
  generate_unique_key (slugify_key U literal) keys = Some (key, ks) ->
  slug_like U key.
Proof.
  destruct (slugify_key_shape U literal) as (Hne & _).
  intros (_ & _ & [[_ ->]|[_ (j & _ & -> & _)]])%unique_key_loop_Some.
  - split; [done|]. intros c. apply slugify_key_chars.
  - split; [by destruct (slugify_key U literal)|].
    unfold suffixed. intros c [Hc|Hc]%elem_of_app; [by eapply slugify_key_chars|].
    apply elem_of_cons in Hc as [->|Hc]; [by left|]. right.
    apply uint_digits_digit in Hc. unfold isalnum, is_ascii, ascii_isalnum.
    rewrite Hc. unfold between in Hc. apply andb_prop in Hc as [_ Hc%N.leb_le].
    assert (N.ltb c 128 = true) as -> by (apply N.ltb_lt; lia). done.
Qed.

(** The keys that a run adds are minted keys. *)
Lemma repl_adds_slug_like m st new st' :
  repl U m st = Ok (new, st') ->
  forall k, is_Some (additions st' !! k) ->
    is_Some (additions st !! k) \/ slug_like U k.
Proof.
  intros [(_ & _ & ->)|(_ & literal & key & _ & _ & _ & Hcase)]%repl_cases k Hk;
    [by left|].
  destruct Hcase as [(_ & _ & ->)|(_ & Hg & _ & ->)]; [by left|].
  simpl in Hk. unfold setdefault in Hk.
  destruct (additions st !! key) eqn:E; [by left|].
  destruct (decide (k = key)) as [->|Hne].
  - right. by eapply generate_unique_key_slug_like.
  - left. by rewrite lookup_insert_ne in Hk.
Qed.

Lemma process_swift_adds_slug_like s st out st' :
  process_swift U s st = Ok (out, st') ->
  forall k, is_Some (additions st' !! k) ->
    is_Some (additions st !! k) \/ slug_like U k.
Proof.
  unfold process_swift, Re.sub.
  apply (sub_loop_preserves
           (fun a b => forall k, is_Some (additions b !! k) ->
                         is_Some (additions a !! k) \/ slug_like U k)).
  - auto.
  - intros a b c Hab Hbc k Hk. destruct (Hbc k Hk) as [Hb|?]; auto.
  - apply repl_adds_slug_like.
Qed.

(** After a run without table, the literal of every candidate that is not
    skipped is the value of an addition. *)
Lemma process_swift_records s st out st' :
  process_swift U s st = Ok (out, st') ->
  val_to_key st = ∅ ->
  dom (additions st) ⊆ existing_keys st ->
  Forall (fun m => skipped U m = false ->
            exists literal k, unescape U (Re.group_ 1 m) = Ok literal /\
                              additions st' !! k = Some literal)
    (finditer (TEXT_CALL_RE U) s).
Proof.
  revert st out st'.
  induction s as [|c s Hm IH|s m Hm IH] using (text_scan_ind U); intros st out st'.
  - intros _ _ _. constructor.
  - rewrite (process_swift_plain _ _ _ _ Hm), (finditer_plain _ _ _ Hm).
    destruct (process_swift U s st) as [[out1 st1]|] eqn:E; [|done].
    intros [= <- <-]. by apply (IH st out1).
  - rewrite (process_swift_call _ _ _ _ Hm), (finditer_call _ _ _ Hm).
    destruct (repl U m st) as [[new st1]|] eqn:Hr; [|done].
    destruct (process_swift U (Re.m_rest m) st1) as [[out1 st2]|] eqn:E; [|done].
    intros [= <- <-] Hemp Hdom.
    destruct (repl_cases _ _ _ _ _ Hr)
      as [(Hsk & -> & ->)|(Hsk & literal & key & Hlit & -> & _ & Hcase)].
    { constructor; [by rewrite Hsk|]. by apply (IH st out1). }
    destruct Hcase as [(Hv & _ & ->)|(_ & _ & Hfresh & ->)].
    { rewrite Hemp, lookup_empty in Hv. done. }
    assert (additions st !! key = None) as Hnone.
    { apply not_elem_of_dom. intros Hk. apply Hfresh. by apply Hdom. }
    assert (setdefault key literal (additions st) = <[key := literal]> (additions st))
      as Hset by (unfold setdefault; by rewrite Hnone).
    constructor.
    + intros _. exists literal, key. split; [done|].
      pose proof (process_swift_store_rel U _ _ _ _ E) as (_ & _ & Hsub & _).
      eapply lookup_weaken; [|exact Hsub]. simpl. rewrite Hset.
      apply lookup_insert_eq.
    + eapply IH; [exact E|done|].
      simpl. rewrite Hset, dom_insert. by apply union_mono_l.
Qed.

(** A run in which the reuse map knows the literal of every candidate that
    is not skipped returns and leaves the store as it was. *)
Lemma process_swift_all_known s st :
  Forall (decodes U) (finditer (TEXT_CALL_RE U) s) ->
  Forall (fun m => skipped U m = false ->
            exists literal c k, unescape U (Re.group_ 1 m) = Ok literal /\
                                val_to_key st !! literal = Some (c :: k))
    (finditer (TEXT_CALL_RE U) s) ->
  exists out, process_swift U s st = Ok (out, st).
Proof.
  induction s as [|c s Hm IH|s m Hm IH] using (text_scan_ind U).
  - intros _ _. by exists [].
  - rewrite (process_swift_plain _ _ _ _ Hm), (finditer_plain _ _ _ Hm).
    intros Hd Hk. destruct (IH Hd Hk) as [out ->]. by eexists.
  - rewrite (process_swift_call _ _ _ _ Hm), (finditer_call _ _ _ Hm).
    intros [Hdm Hd]%Forall_cons [Hkm Hk]%Forall_cons.
    destruct (proj2 (repl_Ok_iff U m st) Hdm) as (new & st1 & Hr). rewrite Hr.
    assert (st1 = st) as ->.
    { destruct (repl_cases _ _ _ _ _ Hr)
        as [(_ & _ & ->)|(Hsk & literal & key & Hlit & _ & _ & Hcase)]; [done|].
      destruct Hcase as [(_ & _ & ->)|(Hnone & _)]; [done|].
      destruct (Hkm Hsk) as (l' & c & k & Hl' & Hv).
      rewrite Hlit in Hl'. injection Hl' as <-. rewrite Hv in Hnone.
      by destruct Hnone. }
    destruct (IH Hd Hk) as [out ->]. by eexists.
Qed.

Lemma main_file_preserves (R : store -> store -> Prop) dry f s s' :
  (forall st, R st st) ->
  (forall c st out st', process_swift U c st = Ok (out, st') -> R st st') ->
  main_file U dry f s = Ok s' -> R (m_store s) (m_store s').
Proof.
  intros Hrefl Hrun. unfold main_file.
  destruct (negb _); [intros [= <-]; apply Hrefl|].
  destruct (finditer _ _); [intros [= <-]; apply Hrefl|].
  unfold mbind, result_bind.
  destruct (process_swift U (sf_content f) (m_store s)) as [[new st]|] eqn:E; [|done].
  apply Hrun in E.
  destruct (decide _); [by intros [= <-]|].
  destruct (recount _ _ _); [|done]. by intros [= <-].
Qed.

Lemma main_loop_preserves (R : store -> store -> Prop) dry files s s' :
  (forall st, R st st) ->
  (forall a b c, R a b -> R b c -> R a c) ->
  (forall c st out st', process_swift U c st = Ok (out, st') -> R st st') ->
  main_loop U dry files s = Ok s' -> R (m_store s) (m_store s').
Proof.
  intros Hrefl Htrans Hrun.
  revert s. induction files as [|f files IH]; intros s; simpl.
  { intros [= <-]. apply Hrefl. }
  unfold mbind, result_bind. destruct (main_file U dry f s) as [s1|] eqn:E; [|done].
  intros H. eapply Htrans; [by eapply main_file_preserves|by apply IH].
Qed.

Lemma main_file_store_grows dry f s s' :
  main_file U dry f s = Ok s' -> store_grows (m_store s) (m_store s').
Proof.
  apply main_file_preserves; [apply store_grows_refl|apply process_swift_store_rel].
Qed.

Lemma main_loop_store_grows dry files s s' :
  main_loop U dry files s = Ok s' -> store_grows (m_store s) (m_store s').
Proof.
  apply main_loop_preserves;
    [apply store_grows_refl|apply store_grows_trans|apply process_swift_store_rel].
Qed.

Lemma main_loop_adds_slug_like dry files s s' :
  main_loop U dry files s = Ok s' ->
  forall k, is_Some (additions (m_store s') !! k) ->
    is_Some (additions (m_store s) !! k) \/ slug_like U k.
Proof.
  apply (main_loop_preserves
           (fun a b => forall k, is_Some (additions b !! k) ->
                         is_Some (additions a !! k) \/ slug_like U k)).
  - auto.
  - intros a b c Hab Hbc k Hk. destruct (Hbc k Hk) as [Hb|?]; auto.
  - apply process_swift_adds_slug_like.
Qed.

Lemma main_file_records dry f s s' :
  main_file U dry f s = Ok s' ->
  val_to_key (m_store s) = ∅ ->
  dom (additions (m_store s)) ⊆ existing_keys (m_store s) ->
  dom (additions (m_store s')) ⊆ existing_keys (m_store s') /\
  Forall (fun m => skipped U m = false ->
            exists literal k, unescape U (Re.group_ 1 m) = Ok literal /\
                              additions (m_store s') !! k = Some literal)
    (file_candidates U f).
Proof.
  intros Hf Hemp Hdom.
  assert (keys_clean (val_to_key (m_store s))) as Hclean.
  { intros v k H. rewrite Hemp, lookup_empty in H. done. }
  pose proof (main_file_cases U dry f s s' Hclean Hf) as Hcase. simpl in Hcase.
  unfold file_candidates.
  destruct (ends_with (lit ".swift") (sf_name f)); simpl in Hcase.
  - destruct (forallb (skipped U) _) eqn:Hall; simpl in Hcase.
    + subst s'. split; [done|]. rewrite forallb_forall in Hall.
      apply Forall_forall. intros m Hm%list_elem_of_In%Hall. by rewrite Hm.
    + destruct Hcase as (new & Hrun & _).
      split.
      * by destruct (process_swift_additions_count U _ _ _ _ Hrun Hdom).
      * by eapply process_swift_records.
  - subst s'. split; [done|constructor].
Qed.

Lemma main_loop_records dry files s s' :
  main_loop U dry files s = Ok s' ->
  val_to_key (m_store s) = ∅ ->
  dom (additions (m_store s)) ⊆ existing_keys (m_store s) ->
  Forall (fun f =>
    Forall (fun m => skipped U m = false ->
              exists literal k, unescape U (Re.group_ 1 m) = Ok literal /\
                                additions (m_store s') !! k = Some literal)
      (file_candidates U f)) files.
Proof.
  revert s. induction files as [|f files IH]; intros s; simpl; [constructor|].
  unfold mbind, result_bind. destruct (main_file U dry f s) as [s1|] eqn:E; [|done].
  intros Hloop Hemp Hdom.
  destruct (main_file_records _ _ _ _ E Hemp Hdom) as [Hdom1 Hrec].
  pose proof (main_file_store_grows _ _ _ _ E) as (Hv & _).
  pose proof (main_loop_store_grows _ _ _ _ Hloop) as (_ & _ & Hsub & _).
  constructor.
  - eapply Forall_impl; [exact Hrec|]. intros m Hm Hsk.
    destruct (Hm Hsk) as (literal & k & Hl & Hk). exists literal, k.
    split; [done|]. by eapply lookup_weaken.
  - apply (IH s1); [done|congruence|done].
Qed.

Lemma main_file_all_known dry f s :
  Forall (decodes U) (file_candidates U f) ->
  Forall (fun m => skipped U m = false ->
            exists literal c k, unescape U (Re.group_ 1 m) = Ok literal /\
              val_to_key (m_store s) !! literal = Some (c :: k))
    (file_candidates U f) ->
  exists s', main_file U dry f s = Ok s' /\ m_store s' = m_store s.
Proof.
  unfold file_candidates, main_file.
  destruct (ends_with (lit ".swift") (sf_name f)); simpl; [|by eauto].
  intros Hd Hk.
  destruct (process_swift_all_known _ (m_store s) Hd Hk) as [out Hrun].
  destruct (finditer (TEXT_CALL_RE U) (sf_content f)) as [|m cands] eqn:Hc; [by eauto|].
  rewrite <- Hc in *. rewrite Hrun. simpl.
  destruct (decide (out = sf_content f)); [by eauto|].
  rewrite recount_Ok by done. simpl. eauto.
Qed.

Lemma main_loop_all_known dry files s :
  Forall (fun f => Forall (decodes U) (file_candidates U f)) files ->
  Forall (fun f =>
    Forall (fun m => skipped U m = false ->
              exists literal c k, unescape U (Re.group_ 1 m) = Ok literal /\
                val_to_key (m_store s) !! literal = Some (c :: k))
      (file_candidates U f)) files ->
  exists s', main_loop U dry files s = Ok s' /\ m_store s' = m_store s.
Proof.
  revert s. induction files as [|f files IH]; intros s; simpl; [by eauto|].
  intros [Hd Hds]%Forall_cons [Hk Hks]%Forall_cons.
  destruct (main_file_all_known dry f s Hd Hk) as (s1 & -> & Hs1). simpl.
  rewrite <- Hs1 in Hks. destruct (IH s1 Hds Hks) as (s' & -> & Hs').
  exists s'. split; [done|congruence].
Qed.

Lemma main_loop_decodes dry files s s' :
  main_loop U dry files s = Ok s' ->
  Forall (fun f => Forall (decodes U) (file_candidates U f)) files.
Proof.
  intros H.
  assert (exists s', main_loop U dry files s = Ok s') as Hex by eauto.
  clear H. revert s Hex. induction files as [|f files IH]; intros s; simpl; [constructor|].
  unfold mbind, result_bind. destruct (main_file U dry f s) as [s1|] eqn:E;
    [|by intros [? ?]].
  intros Hex. constructor; [|by eapply IH].
  unfold file_candidates.
  destruct (ends_with (lit ".swift") (sf_name f)) eqn:Hsw; [|constructor].
  apply (main_file_Ok_iff U dry f s); eauto.
Qed.

Lemma parse_localizable_lines fs path ktv vtk :
  parse_localizable U fs path = Ok (ktv, vtk) ->
  exists lines, parse_lines U lines = (ktv, vtk).
Proof.
  unfold parse_localizable. destruct path as [p|]; [|intros [= <- <-]; by exists []].
  destruct (fs !! p) as [[text|]|]; [|done|].
  - intros [= H]. eauto.
  - intros [= <- <-]. by exists [].
Qed.

(** X19: a second run over the same files, seeded with the table that
    the first run (started without table) wrote, returns and adds no key:
    its store ends as it began.  This holds when the values that the first
    run added are not empty and have no quote, no backslash and no line
    terminator. *)
Theorem rerun_with_written_table dry files t w s1 fs path key_to_val fs'
    key_to_val' val_to_key' dry' t' w' :
  main_loop U dry files (MainState empty_store t w) = Ok s1 ->
  (forall k v, additions (m_store s1) !! k = Some v ->
     v ≠ [] /\ one_line v /\ (c_bs ∉ v) /\ (c_dq ∉ v)) ->
  write_strings fs path key_to_val (additions (m_store s1)) = (fs', Ok tt) ->
  parse_localizable U fs' (Some path) = Ok (key_to_val', val_to_key') ->
  exists s2,
    main_loop U dry' files (MainState (Store val_to_key' (dom key_to_val') ∅) t' w')
    = Ok s2 /\
    m_store s2 = Store val_to_key' (dom key_to_val') ∅.
Proof.
  intros Hrun Hvals Hwrite Hparse.
  pose proof (main_loop_records _ _ _ _ Hrun eq_refl) as Hrec.
  pose proof (main_loop_decodes _ _ _ _ Hrun) as Hdec.
  apply (main_loop_all_known dry' files
           (MainState (Store val_to_key' (dom key_to_val') ∅) t' w') Hdec).
  eapply Forall_impl; [apply Hrec; simpl; by rewrite dom_empty_L|].
  intros f Hf. eapply Forall_impl; [exact Hf|]. clear f Hf.
  intros m Hm Hsk. destruct (Hm Hsk) as (literal & k0 & Hlit & Hk0).
  exists literal. simpl.
  assert (additions (m_store s1) ≠ ∅) as Hne.
  { intros Hemp. rewrite Hemp, lookup_empty in Hk0. done. }
  assert (forall k v, additions (m_store s1) !! k = Some v ->
            k ≠ [] /\ v ≠ [] /\ one_line k /\ one_line v) as Hadd.
  { intros k v Hkv. destruct (Hvals k v Hkv) as (? & ? & _).
    destruct (main_loop_adds_slug_like _ _ _ _ Hrun k) as [[? Hk]|Hk]; [by eauto| |].
    { simpl in Hk. by rewrite lookup_empty in Hk. }
    apply slug_like_plain in Hk as (? & ? & _). done. }
  destruct (write_then_parse U fs fs' path key_to_val _ Hne Hadd Hwrite)
    as (ktv & vtk & Hp & Hfound & _).
  rewrite Hparse in Hp. injection Hp as <- <-.
  destruct (Hfound _ _ Hk0) as [_ [key Hkey]].
  destruct (Hvals _ _ Hk0) as (_ & _ & ? & ?).
  rewrite escape_for_strings_id in Hkey by done.
  destruct (parse_localizable_lines _ _ _ _ Hparse) as [lines Hlines].
  assert (key ≠ []) as Hkne.
  { apply (parse_lines_keys_nonempty U lines literal). by rewrite Hlines. }
  destruct key as [|c k]; [done|]. by exists c, k.
Qed.
End Rerun.

(** ** The further properties on concrete inputs *)

Lemma process_swift_only_adds_witness :
  let st := store_of_table cpython_excerpt [swift "'hello' = 'Hi there';"] in
  let src := swift "Text('Hello') Text('Hi there') Text('Score: %d')" in
  let out := swift "Text('hello.2'.localized) Text('hello'.localized) Text('Score: %d')" in
  let st1 := Store (val_to_key st) {[lit "hello"; lit "hello.2"]}
               {[lit "hello.2" := lit "Hello"]} in
  process_swift cpython_excerpt src st = Ok (out, st1) /\
  val_to_key st1 = val_to_key st /\
  existing_keys st ⊆ existing_keys st1 /\
  (forall k v, additions st !! k = Some v -> additions st1 !! k = Some v).
Proof.
  intros st src out st1.
  assert (process_swift cpython_excerpt src st = Ok (out, st1)) as Hrun
    by (vm_compute; reflexivity).
  split; [assumption|].
  exact (process_swift_only_adds cpython_excerpt src st out st1 Hrun).
Defined.

Lemma process_swift_mints_fresh_keys_witness :
  let st := store_of_table cpython_excerpt [swift "'hello' = 'Hi there';"] in
  let src := swift "Text('Hello') Text('Hi there') Text('Score: %d')" in
  let out := swift "Text('hello.2'.localized) Text('hello'.localized) Text('Score: %d')" in
  let st1 := Store (val_to_key st) {[lit "hello"; lit "hello.2"]}
               {[lit "hello.2" := lit "Hello"]} in
  process_swift cpython_excerpt src st = Ok (out, st1) /\
  dom (additions st) ⊆ existing_keys st /\
  existing_keys st1 = existing_keys st ∪ dom (additions st1).
Proof.
  intros st src out st1.
  assert (process_swift cpython_excerpt src st = Ok (out, st1)) as Hrun
    by (vm_compute; reflexivity).
  assert (dom (additions st) ⊆ existing_keys st) as Hdom.
  { assert (additions st = ∅) as -> by (vm_compute; reflexivity).
    rewrite dom_empty_L. apply empty_subseteq. }
  split; [assumption|]. split; [assumption|].
  exact (proj2 (process_swift_mints_fresh_keys cpython_excerpt src st out st1 Hrun)
           Hdom).
Defined.

Lemma unescape_escape_for_strings_witness :
  let s := swift "say 'hi' \ now" in
  forallb is_ascii s = true /\
  unescape cpython_excerpt (escape_for_strings s) = Ok s.
Proof.
  intros s.
  assert (forallb is_ascii s = true) as H by (vm_compute; reflexivity).
  split; [assumption|].
  exact (proj2 (unescape_escape_for_strings cpython_excerpt s) H).
Defined.

Lemma unescape_without_backslash_witness :
  let s := lit "Hello" in
  (c_bs ∉ s) /\
  unescape cpython_excerpt s = utf8_encode s /\
  (forallb is_ascii s = true -> unescape cpython_excerpt s = Ok s) /\
  (forallb is_ascii s = false -> unescape cpython_excerpt s ≠ Ok s).
Proof.
  intros s.
  assert (c_bs ∉ s) as H
    by (apply (bool_decide_unpack (c_bs ∉ s)); vm_compute; exact I).
  split; [assumption|].
  exact (unescape_without_backslash cpython_excerpt s H).
Defined.

Lemma process_swift_returns_iff_witness :
  let src := swift "Text('bad \x')" in
  process_swift cpython_excerpt src empty_store = Raise UnicodeDecodeError /\
  Exists (fun m => unescape cpython_excerpt (Re.group_ 1 m) = Raise UnicodeDecodeError)
    (finditer (TEXT_CALL_RE cpython_excerpt) src).
Proof.
  intros src.
  assert (process_swift cpython_excerpt src empty_store
          = Raise UnicodeDecodeError) as H by (vm_compute; reflexivity).
  split; [assumption|].
  exact (proj2 (proj2 (process_swift_returns_iff cpython_excerpt src empty_store)
                  UnicodeDecodeError H)).
Defined.

Lemma process_swift_unchanged_iff_witness :
  let src := swift "Text('Score: %d') Text('Hi \(name)')" in
  keys_clean (val_to_key empty_store) /\
  process_swift cpython_excerpt src empty_store = Ok (src, empty_store) /\
  forallb (skipped cpython_excerpt) (finditer (TEXT_CALL_RE cpython_excerpt) src)
  = true.
Proof.
  intros src.
  assert (keys_clean (val_to_key empty_store)) as Hclean.
  { intros v k H. simpl in H. rewrite lookup_empty in H. discriminate H. }
  assert (process_swift cpython_excerpt src empty_store = Ok (src, empty_store))
    as Hrun by (vm_compute; reflexivity).
  split; [assumption|]. split; [assumption|].
  exact (proj1 (proj1 (process_swift_unchanged_iff cpython_excerpt src empty_store
                         src empty_store Hclean Hrun)) eq_refl).
Defined.

Lemma process_swift_without_call_witness :
  let s := lit "let title = localized(name)" in
  contains (lit "Text(") s = false /\
  process_swift cpython_excerpt s empty_store = Ok (s, empty_store).
Proof.
  intros s.
  assert (contains (lit "Text(") s = false) as H by (vm_compute; reflexivity).
  split; [assumption|].
  exact (process_swift_without_call cpython_excerpt s empty_store H).
Defined.

Lemma unescape_errors_witness :
  let s := [72; 55296]%N in
  forallb encodable s = false /\
  unescape cpython_excerpt s = Raise UnicodeEncodeError.
Proof.
  intros s.
  assert (forallb encodable s = false) as H by (vm_compute; reflexivity).
  split; [assumption|].
  exact (proj2 (proj1 (unescape_errors cpython_excerpt s)) H).
Defined.

Lemma process_swift_plain_text_returns_witness :
  let src := swift "VStack { Text('Save') }" in
  (c_bs ∉ src) /\ forallb encodable src = true /\
  exists out st', process_swift cpython_excerpt src empty_store = Ok (out, st').
Proof.
  intros src.
  assert (c_bs ∉ src) as H1
    by (apply (bool_decide_unpack (c_bs ∉ src)); vm_compute; exact I).
  assert (forallb encodable src = true) as H2 by (vm_compute; reflexivity).
  split; [assumption|]. split; [assumption|].
  exact (process_swift_plain_text_returns cpython_excerpt src empty_store H1 H2).
Defined.

Lemma parse_lines_sound_witness :
  let lines := [swift "'hello' = 'Hi';"] in
  snd (parse_lines cpython_excerpt lines) !! lit "Hi" = Some (lit "hello") /\
  lit "hello" ∈ dom (fst (parse_lines cpython_excerpt lines)).
Proof.
  intros lines.
  assert (snd (parse_lines cpython_excerpt lines) !! lit "Hi" = Some (lit "hello"))
    as H by (vm_compute; reflexivity).
  split; [assumption|].
  exact (proj1 (proj2 (proj2 (proj2 (parse_lines_sound cpython_excerpt lines) _ _ H)))).
Defined.

Lemma write_strings_then_parse_witness :
  let path := "Localizable.strings"%string in
  let fs : gmap string node := ∅ in
  let additions : gmap (list N) (list N) := {[lit "save" := lit "Save"]} in
  let fs' : gmap string node :=
    {[path := RegularFile (swift "'save' = 'Save';" ++ [c_nl])]} in
  additions ≠ ∅ /\
  (forall k v, additions !! k = Some v ->
     k ≠ [] /\ v ≠ [] /\ one_line k /\ one_line v) /\
  write_strings fs path ∅ additions = (fs', Ok tt) /\
  exists key_to_val' val_to_key',
    parse_localizable cpython_excerpt fs' (Some path)
    = Ok (key_to_val', val_to_key') /\
    (forall k v, additions !! k = Some v ->
       key_to_val' !! escape_for_strings k = Some (escape_for_strings v) /\
       is_Some (val_to_key' !! escape_for_strings v)) /\
    (forall k v, additions !! k = Some v ->
       c_bs ∉ k -> c_dq ∉ k -> c_bs ∉ v -> c_dq ∉ v ->
       key_to_val' !! k = Some v) /\
    (fs !! path = None ->
     forall k' v', key_to_val' !! k' = Some v' ->
       exists k v, additions !! k = Some v /\
         k' = escape_for_strings k /\ v' = escape_for_strings v).
Proof.
  intros path fs additions fs'.
  assert (additions ≠ ∅) as H1.
  { intros H. apply (f_equal (fun m => m !! lit "save")) in H.
    vm_compute in H. discriminate H. }
  assert (forall k v, additions !! k = Some v ->
            k ≠ [] /\ v ≠ [] /\ one_line k /\ one_line v) as H2.
  { intros k v [<- <-]%lookup_singleton_Some.
    split; [discriminate|]. split; [discriminate|].
    split; split.
    - apply (bool_decide_unpack (c_nl ∉ lit "save")); vm_compute; exact I.
    - apply (bool_decide_unpack (c_cr ∉ lit "save")); vm_compute; exact I.
    - apply (bool_decide_unpack (c_nl ∉ lit "Save")); vm_compute; exact I.
    - apply (bool_decide_unpack (c_cr ∉ lit "Save")); vm_compute; exact I. }
  assert (write_strings fs path ∅ additions = (fs', Ok tt)) as H3
    by (vm_compute; reflexivity).
  split; [assumption|]. split; [assumption|]. split; [assumption|].
  exact (write_strings_then_parse cpython_excerpt fs fs' path ∅ additions H1 H2 H3).
Defined.

Lemma main_loop_returns_iff_witness :
  let files := [SourceFile (lit "A.swift") "A.swift" (swift "Text('bad \x')");
                SourceFile (lit "notes.txt") "notes.txt" (swift "Text('bad \x')")] in
  let s := MainState empty_store (Tallies 0 0 0) [] in
  main_loop cpython_excerpt false files s = Raise UnicodeDecodeError /\
  ~ Forall (fun f => ends_with (lit ".swift") (sf_name f) = true ->
              Forall (decodes cpython_excerpt)
                (finditer (TEXT_CALL_RE cpython_excerpt) (sf_content f))) files.
Proof.
  intros files s.
  assert (main_loop cpython_excerpt false files s = Raise UnicodeDecodeError) as H
    by (vm_compute; reflexivity).
  split; [assumption|]. intros Hall.
  apply (proj2 (main_loop_returns_iff cpython_excerpt false files s)) in Hall
    as [s' Hs']. rewrite H in Hs'. discriminate Hs'.
Defined.

Lemma main_file_rerun_witness :
  let st := store_of_table cpython_excerpt [swift "'hello' = 'Hi there';"] in
  let src := swift "Text('Hello') Text('Hi there') Text('Score: %d')" in
  let out := swift "Text('hello.2'.localized) Text('hello'.localized) Text('Score: %d')" in
  let st1 := Store (val_to_key st) {[lit "hello"; lit "hello.2"]}
               {[lit "hello.2" := lit "Hello"]} in
  let s2 := MainState st1 (Tallies 1 2 1) [("View.swift"%string, out)] in
  keys_clean (val_to_key st) /\
  process_swift cpython_excerpt src st = Ok (out, st1) /\
  main_file cpython_excerpt false (SourceFile (lit "View.swift") "View.swift" out) s2
  = Ok s2.
Proof.
  intros st src out st1 s2.
  assert (keys_clean (val_to_key st)) as Hclean.
  { assert (val_to_key st = {[lit "Hi there" := lit "hello"]}) as E
      by (vm_compute; reflexivity).
    intros v k H. rewrite E in H.
    apply lookup_singleton_Some in H as [_ <-]. reflexivity. }
  assert (process_swift cpython_excerpt src st = Ok (out, st1)) as Hrun
    by (vm_compute; reflexivity).
  split; [assumption|]. split; [assumption|].
  exact (main_file_rerun cpython_excerpt src st out st1 false (lit "View.swift")
           "View.swift" s2 Hclean Hrun).
Defined.

Lemma main_loop_new_keys_witness :
  let files := [SourceFile (lit "A.swift") "A.swift"
                  (swift "Text('Save') Text('Save') Text('Score: %d')");
                SourceFile (lit "notes.txt") "notes.txt" (swift "Text('Other')")] in
  let s := MainState empty_store (Tallies 0 0 0) [] in
  let s' := MainState
              (Store ∅ {[lit "save"; lit "save.2"]}
                 {[lit "save" := lit "Save"; lit "save.2" := lit "Save"]})
              (Tallies 1 2 1)
              [("A.swift"%string,
                swift "Text('save'.localized) Text('save.2'.localized) Text('Score: %d')")] in
  keys_clean (val_to_key (m_store s)) /\
  dom (additions (m_store s)) ⊆ existing_keys (m_store s) /\
  main_loop cpython_excerpt false files s = Ok s' /\
  size (additions (m_store s')) + touched_literals (m_tallies s)
    <= size (additions (m_store s)) + touched_literals (m_tallies s') /\
  (val_to_key (m_store s) = ∅ ->
   size (additions (m_store s')) + touched_literals (m_tallies s)
   = size (additions (m_store s)) + touched_literals (m_tallies s')).
Proof.
  intros files s s'.
  assert (keys_clean (val_to_key (m_store s))) as Hclean.
  { intros v k H. simpl in H. rewrite lookup_empty in H. discriminate H. }
  assert (dom (additions (m_store s)) ⊆ existing_keys (m_store s)) as Hdom.
  { simpl. rewrite dom_empty_L. apply empty_subseteq. }
  assert (main_loop cpython_excerpt false files s = Ok s') as Hrun
    by (vm_compute; reflexivity).
  split; [assumption|]. split; [assumption|]. split; [assumption|].
  exact (main_loop_new_keys cpython_excerpt false files s s' Hclean Hdom Hrun).
Defined.

Lemma main_file_outcome_witness :
  let f := SourceFile (lit "A.swift") "A.swift"
             (swift "Text('Save') Text('Score: %d')") in
  let new := swift "Text('save'.localized) Text('Score: %d')" in
  let s := MainState empty_store (Tallies 0 0 0) [] in
  let s' := MainState (Store ∅ {[lit "save"]} {[lit "save" := lit "Save"]})
              (Tallies 1 1 1) [("A.swift"%string, new)] in
  keys_clean (val_to_key (m_store s)) /\
  main_file cpython_excerpt false f s = Ok s' /\
  exists new,
    process_swift cpython_excerpt (sf_content f) (m_store s) = Ok (new, m_store s') /\
    new ≠ sf_content f /\
    m_tallies s'
    = Tallies (S (changed_files (m_tallies s)))
        (touched_literals (m_tallies s)
         + replaced cpython_excerpt
             (finditer (TEXT_CALL_RE cpython_excerpt) (sf_content f)))
        (skipped_literals (m_tallies s)
         + length (List.filter (skipped cpython_excerpt)
                     (finditer (TEXT_CALL_RE cpython_excerpt) (sf_content f)))) /\
    m_written s' = m_written s ++ [(sf_rel f, new)].
Proof.
  intros f new s s'.
  assert (keys_clean (val_to_key (m_store s))) as Hclean.
  { intros v k H. simpl in H. rewrite lookup_empty in H. discriminate H. }
  assert (main_file cpython_excerpt false f s = Ok s') as Hrun
    by (vm_compute; reflexivity).
  split; [assumption|]. split; [assumption|].
  pose proof (main_file_outcome cpython_excerpt false f s s' Hclean Hrun) as H.
  assert (ends_with (lit ".swift") (sf_name f)
          && negb (forallb (skipped cpython_excerpt)
                     (finditer (TEXT_CALL_RE cpython_excerpt) (sf_content f)))
          = true) as E by (vm_compute; reflexivity).
  cbv zeta in H. rewrite E in H. exact H.
Defined.

Lemma slugify_key_ascii_witness :
  let s := lit "  Hello,  World! " in
  forallb is_ascii s = true /\
  slugify_key cpython_excerpt s = lit "hello.world" /\
  Forall (fun c => c = c_dot \/ between 48 57 c = true \/ between 97 122 c = true)
    (slugify_key cpython_excerpt s) /\
  slugify_key cpython_excerpt (slugify_key cpython_excerpt s)
  = slugify_key cpython_excerpt s.
Proof.
  intros s.
  assert (forallb is_ascii s = true) as H by (vm_compute; reflexivity).
  split; [assumption|]. split; [vm_compute; reflexivity|].
  exact (slugify_key_ascii cpython_excerpt s H).
Defined.

Lemma rerun_with_written_table_witness :
  let files := [SourceFile (lit "A.swift") "A.swift"
                  (swift "Text('Save') Text('Save') Text('Score: %d')")] in
  let adds : gmap (list N) (list N) :=
    {[lit "save" := lit "Save"; lit "save.2" := lit "Save"]} in
  let s1 := MainState (Store ∅ {[lit "save"; lit "save.2"]} adds) (Tallies 1 2 1)
              [("A.swift"%string,
                swift "Text('save'.localized) Text('save.2'.localized) Text('Score: %d')")] in
  let path := "Localizable.strings"%string in
  let fs' : gmap string node :=
    {[path := RegularFile (swift "'save' = 'Save';" ++ [c_nl]
                             ++ swift "'save.2' = 'Save';" ++ [c_nl])]} in
  main_loop cpython_excerpt false files (MainState empty_store (Tallies 0 0 0) [])
  = Ok s1 /\
  (forall k v, additions (m_store s1) !! k = Some v ->
     v ≠ [] /\ one_line v /\ (c_bs ∉ v) /\ (c_dq ∉ v)) /\
  write_strings ∅ path ∅ (additions (m_store s1)) = (fs', Ok tt) /\
  parse_localizable cpython_excerpt fs' (Some path)
  = Ok (adds, {[lit "Save" := lit "save"]}) /\
  exists s2,
    main_loop cpython_excerpt false files
      (MainState (Store {[lit "Save" := lit "save"]} (dom adds) ∅) (Tallies 0 0 0) [])
    = Ok s2 /\
    m_store s2 = Store {[lit "Save" := lit "save"]} (dom adds) ∅.
Proof.
  intros files adds s1 path fs'.
  assert (main_loop cpython_excerpt false files
            (MainState empty_store (Tallies 0 0 0) []) = Ok s1) as H1
    by (vm_compute; reflexivity).
  assert (forall k v, additions (m_store s1) !! k = Some v ->
            v ≠ [] /\ one_line v /\ (c_bs ∉ v) /\ (c_dq ∉ v)) as H2.
  { assert (v_ok : lit "Save" ≠ [] /\ one_line (lit "Save")
                   /\ (c_bs ∉ lit "Save") /\ (c_dq ∉ lit "Save")).
    { split; [discriminate|]. split; [split|split].
      - apply (bool_decide_unpack (c_nl ∉ lit "Save")); vm_compute; exact I.
      - apply (bool_decide_unpack (c_cr ∉ lit "Save")); vm_compute; exact I.
      - apply (bool_decide_unpack (c_bs ∉ lit "Save")); vm_compute; exact I.
      - apply (bool_decide_unpack (c_dq ∉ lit "Save")); vm_compute; exact I. }
    intros k v H. simpl in H. unfold adds in H.
    apply lookup_insert_Some in H as [[_ <-]|[_ H]]; [exact v_ok|].
    apply lookup_singleton_Some in H as [_ <-]. exact v_ok. }
  assert (write_strings ∅ path ∅ (additions (m_store s1)) = (fs', Ok tt)) as H3
    by (vm_compute; reflexivity).
  assert (parse_localizable cpython_excerpt fs' (Some path)
          = Ok (adds, {[lit "Save" := lit "save"]})) as H4
    by (vm_compute; reflexivity).
  split; [assumption|]. split; [assumption|]. split; [assumption|].
  split; [assumption|].
  exact (rerun_with_written_table cpython_excerpt false files (Tallies 0 0 0) [] s1
           ∅ path ∅ fs' adds {[lit "Save" := lit "save"]} false (Tallies 0 0 0) []
           H1 H2 H3 H4).
Defined.
